(** * PyWren executor: a shallow embedding of [pywren/executor.py]

    The development follows the source file top to bottom:

    - Python values, dictionaries and exceptions;
    - the call-id format ["{:05d}".format(i)];
    - [Executor.agg_data] and Python slicing;
    - a small free monad of collaborator calls (clock, serializer, blob
      store, invocation backend), with a handler that records every call
      in a trace;
    - [Executor.invoke_with_keys], the [invoke] closure of [Executor.map],
      the worker pool, [Executor.map], [Executor.call_async],
      [Executor.reduce] and [Executor.parse_module_dependencies];
    - the constructor [Executor.__init__] and the log reader
      [Executor.get_logs];
    - the properties of the orchestrator. *)

From stdpp Require Import gmap strings list fin_maps.
From Stdlib Require Import ZArith Lia Ascii.
From Stdlib.Strings Require Import Byte.

Set Warnings "-register-all".

Open Scope string_scope.
Open Scope Z_scope.
Open Scope list_scope.

(** ** Python values *)

(** [bytes] objects are sequences of bytes. *)
Abbreviation bytes := (list Byte.byte).

(** The values that travel through the executor.  Floats only occur as
    clock readings ([time.time()]) and their differences; they are kept
    as an integral number of clock ticks. *)
Inductive pyval : Type :=
| PNone
| PBool (b : bool)
| PInt (z : Z)
| PFloat (ticks : Z)
| PStr (s : string)
| PBytes (b : bytes)
| PTuple (items : list pyval)
| PList (items : list pyval)
| PDict (items : list (string * pyval))
| PObj (id : nat).

(** A Python [dict] with string keys, as the executor uses them
    ([arg_dict], [host_job_meta]). *)
Abbreviation pydict := (gmap string pyval).

(** A dict literal [{k1: v1, k2: v2, ...}]: keys keep the position of
    their first occurrence and the value of their last one, so that
    iterating [.items()] visits every key once. *)
Fixpoint dict_set (items : list (string * pyval)) (k : string) (v : pyval)
  : list (string * pyval) :=
  match items with
  | [] => [(k, v)]
  | (k', v') :: rest =>
      if String.eqb k' k then (k', v) :: rest else (k', v') :: dict_set rest k v
  end.

Definition dict_items (literal : list (string * pyval)) : list (string * pyval) :=
  fold_left (fun d kv => dict_set d (fst kv) (snd kv)) literal [].

(** [d.update(other)]: the entries of [other] win. *)
Definition dict_update (d other : pydict) : pydict := other ∪ d.

(** The exceptions the executor raises itself. *)
Inductive exn : Type :=
| ValueError (msg : string) (args : list pyval)
| AssertionError (line : nat)
| UnboundLocalError (name : string)
| IndexError (msg : string)
| HandleError (callset_id call_id : string).

(** ** Call ids: ["{:05d}".format(i)] *)

Definition digit_char (d : nat) : ascii := ascii_of_nat (48 + d).

(** The decimal digits of [n], most significant first, pushed in front
    of [acc]. *)
Fixpoint dec_digits (fuel n : nat) (acc : string) : string :=
  match fuel with
  | O => acc
  | S fuel' =>
      let acc' := String (digit_char (n mod 10)) acc in
      if (n / 10 =? 0)%nat then acc' else dec_digits fuel' (n / 10) acc'
  end.

(** [str(n)] for a non-negative integer. *)
Definition str_of_nat (n : nat) : string := dec_digits (S n) n "".

Fixpoint zeros (k : nat) : string :=
  match k with O => "" | S k' => String "0" (zeros k') end.

(** The format spec [0w d] on a non-negative integer: zeros on the left
    up to a {e minimum} width [w]. *)
Definition zero_pad (w : nat) (s : string) : string :=
  (zeros (w - String.length s) ++ s)%string.

Definition format_05d (i : nat) : string := zero_pad 5 (str_of_nat i).

(** Reading a decimal string back. *)
Definition digit_val (c : ascii) : nat := (nat_of_ascii c - 48)%nat.

Fixpoint dec_value_from (acc : nat) (s : string) : nat :=
  match s with
  | EmptyString => acc
  | String c rest => dec_value_from (10 * acc + digit_val c)%nat rest
  end.

Definition dec_value (s : string) : nat := dec_value_from 0 s.

(** ** [Executor.agg_data] *)

(** Python slicing [l[a:b]] (step 1), negative indices included. *)
Definition slice_bound (len i : Z) : Z :=
  if i <? 0 then Z.max 0 (len + i) else Z.min i len.

Definition py_slice {A} (l : list A) (a b : Z) : list A :=
  let len := Z.of_nat (length l) in
  let lo := slice_bound len a in
  let hi := slice_bound len b in
  take (Z.to_nat (hi - lo)) (drop (Z.to_nat lo) l).

(** One iteration of the loop of [agg_data]: the state is [(ranges, pos)]. *)
Definition agg_step (st : list (Z * Z) * Z) (datum : bytes) : list (Z * Z) * Z :=
  let '(ranges, pos) := st in
  let l := Z.of_nat (length datum) in
  (ranges ++ [(pos, pos + l - 1)], pos + l).

Definition agg_data (data_strs : list bytes) : bytes * list (Z * Z) :=
  let '(ranges, _) := fold_left agg_step data_strs ([], 0) in
  (concat data_strs, ranges).

(** ** Futures

    Modelled from the spec: the ResultHandle of [pywren.future] (not in
    [executor.py]).  The executor builds one from a call id, a callset id,
    the host job metadata and a storage path, and sets its state to
    [invoked]; the later states are driven by polling. *)
Inductive JobState : Type := created | invoked | success | failed | cancelled.

Record ResponseFuture : Type := {
  call_id : string;
  callset_id : string;
  invoke_metadata : pydict;
  storage_path : pyval;
  state : JobState
}.

Definition _set_state (f : ResponseFuture) (s : JobState) : ResponseFuture :=
  {| call_id := call_id f; callset_id := callset_id f;
     invoke_metadata := invoke_metadata f; storage_path := storage_path f;
     state := s |}.

Definition terminal (s : JobState) : bool :=
  match s with success | failed | cancelled => true | _ => false end.

(** The objects handed to the serializer: plain values, user functions,
    the closure [reduce_func] of [Executor.reduce] (which captures
    [function]) and lists of futures. *)
Inductive pyobj : Type :=
| OVal (v : pyval)
| OFunc (name : string)
| OReduceFunc (function : pyobj)
| OFutures (fs : list ResponseFuture).

(** ** Collaborators

    The serializer, the key scheme of [storage_utils], the constants of
    [wrenconfig] and [version], and the sources of non-determinism (clock,
    random generator, callset ids, remote job outcomes) are parameters. *)
Class Collaborators : Type := {
  (* pywren.serialize: one payload per object, and the module paths *)
  dumps : pyobj -> bytes;
  module_paths : list pyobj -> gset string;
  mod_data_of : gset string -> pyval;
  pickle_dumps : pyval -> bytes;
  (* pywren.storage.storage_utils *)
  create_func_key : string -> string -> string;
  create_mod_key : string -> string -> string;
  create_agg_data_key : string -> string -> string;
  create_keys : string -> string -> string -> string * string * string * string;
  get_storage_path : pyval -> pyval;
  (* pywren.wrenconfig, pywren.version *)
  MAX_AGG_DATA_SIZE : Z;
  pywren_version : string;
  (* the invocation backend's own configuration *)
  invoker_config : pydict;
  (* non-determinism: the n-th clock reading, random draw, callset id *)
  clock_at : nat -> Z;
  random_at : nat -> nat;
  callset_id_at : nat -> string;
  (* the state in which the remote job of a (callset, call) settles *)
  final_state : string -> string -> JobState
}.

(** ** Collaborator calls *)

(** What the blob store, the serializer and the backend see. *)
Inductive call : Type :=
| CSerialize (objs : list pyobj) (ignore_module_dependencies : bool)
| CCreateModData (mod_paths : gset string)
| CPutData (key : string) (data : bytes)
| CPutFunc (key : string) (data : bytes)
| CPutModuleDependencies (key : string) (data : bytes)
| CInvoke (arg_dict : pydict)
| CInvokerConfig
| CWait (fs : list ResponseFuture).

Inductive wait_outcome : Type :=
| WaitForever
| WaitRaised (e : exn)
| WaitDone.

(** The requests a thread of the executor makes, indexed by the type of
    the answer. *)
Inductive event : Type -> Type :=
| Time : event Z
| RandomChoice (l : list pyval) : event pyval
| CreateCallsetId : event string
| Serialize (objs : list pyobj) (ignore_module_dependencies : bool)
  : event (list bytes * gset string)
| CreateModData (mod_paths : gset string) : event pyval
| PutData (key : string) (data : bytes) : event unit
| PutFunc (key : string) (data : bytes) : event unit
| PutModuleDependencies (key : string) (data : bytes) : event unit
| Invoke (arg_dict : pydict) : event unit
| InvokerConfig : event pydict
| Wait (fs : list ResponseFuture) : event wait_outcome.

(** Programs: return, raise, never resume, or make a request and go on
    with its answer. *)
Inductive prog (A : Type) : Type :=
| Ret (a : A)
| Throw (e : exn)
| Block
| Vis {X : Type} (ev : event X) (k : X -> prog A).

Arguments Ret {A} a.
Arguments Throw {A} e.
Arguments Block {A}.
Arguments Vis {A X} ev k.

Fixpoint bind {A B} (p : prog A) (f : A -> prog B) : prog B :=
  match p with
  | Ret a => f a
  | Throw e => Throw e
  | Block => Block
  | Vis ev k => Vis ev (fun x => bind (k x) f)
  end.

#[global] Instance prog_ret : MRet prog := @Ret.
#[global] Instance prog_bind : MBind prog := fun A B f p => bind p f.

Definition trigger {X} (ev : event X) : prog X := Vis ev Ret.

(** [time.time()] *)
Definition time : prog Z := trigger Time.

(** The state of the world around the executor. *)
Record world : Type := {
  clock_reads : nat;
  random_draws : nat;
  callsets : nat;
  trace : list call
}.

Definition tick (w : world) : world :=
  {| clock_reads := S (clock_reads w); random_draws := random_draws w;
     callsets := callsets w; trace := trace w |}.

Definition draw (w : world) : world :=
  {| clock_reads := clock_reads w; random_draws := S (random_draws w);
     callsets := callsets w; trace := trace w |}.

Definition fresh (w : world) : world :=
  {| clock_reads := clock_reads w; random_draws := random_draws w;
     callsets := S (callsets w); trace := trace w |}.

Definition record (c : call) (w : world) : world :=
  {| clock_reads := clock_reads w; random_draws := random_draws w;
     callsets := callsets w; trace := trace w ++ [c] |}.

Inductive outcome (A : Type) : Type :=
| Returned (a : A)
| Raised (e : exn)
| Blocked.

Arguments Returned {A} a.
Arguments Raised {A} e.
Arguments Blocked {A}.

(** ** Running programs *)

Section Semantics.
Context `{Collaborators}.

Definition settled (f : ResponseFuture) : JobState :=
  final_state (callset_id f) (call_id f).

(** Modelled from the spec: the Wait Utility [pywren.wait.wait] with
    [return_when=ALL_COMPLETED] (not in [executor.py]).  It blocks until
    every handle has reached a terminal state, and then propagates the
    failure of the first handle that did not succeed. *)
Definition wait_all_completed (fs : list ResponseFuture) : wait_outcome :=
  if forallb (fun f => terminal (settled f)) fs then
    match List.find (fun f => match settled f with success => false | _ => true end) fs with
    | Some f => WaitRaised (HandleError (callset_id f) (call_id f))
    | None => WaitDone
    end
  else WaitForever.

(** The serializer returns one payload per object and the module paths
    of all of them, unless told to ignore module dependencies. *)
Definition serializer (objs : list pyobj) (ignore_module_dependencies : bool)
  : list bytes * gset string :=
  (dumps <$> objs, if ignore_module_dependencies then ∅ else module_paths objs).

Definition handle {X} (ev : event X) (w : world) : X * world :=
  match ev in event X return X * world with
  | Time => (clock_at (clock_reads w), tick w)
  | RandomChoice l =>
      (List.nth (random_at (random_draws w) mod length l)%nat l PNone, draw w)
  | CreateCallsetId => (callset_id_at (callsets w), fresh w)
  | Serialize objs ig => (serializer objs ig, record (CSerialize objs ig) w)
  | CreateModData mp => (mod_data_of mp, record (CCreateModData mp) w)
  | PutData k d => (tt, record (CPutData k d) w)
  | PutFunc k d => (tt, record (CPutFunc k d) w)
  | PutModuleDependencies k d => (tt, record (CPutModuleDependencies k d) w)
  | Invoke a => (tt, record (CInvoke a) w)
  | InvokerConfig => (invoker_config, record CInvokerConfig w)
  | Wait fs => (wait_all_completed fs, record (CWait fs) w)
  end.

(** A single thread, run to its end. *)
Fixpoint run {A} (p : prog A) (w : world) : outcome A * world :=
  match p with
  | Ret a => (Returned a, w)
  | Throw e => (Raised e, w)
  | Block => (Blocked, w)
  | Vis ev k => let '(x, w') := handle ev w in run (k x) w'
  end.

(** *** The worker pool

    [ThreadPool(n)] runs the submitted tasks on [n] threads.  A task is
    taken from the queue in submission order when a thread is free; the
    threads then interleave at the collaborator calls.  A schedule lists,
    step by step, the task that moves next. *)
Record task (A : Type) : Type := {
  started : bool;
  body : prog A
}.

#[global] Arguments started {A} t.
#[global] Arguments body {A} t.

Definition queued {A} (p : prog A) : task A := {| started := false; body := p |}.

Definition running {A} (t : task A) : bool :=
  started t && match body t with Vis _ _ => true | _ => false end.

Definition may_step {A} (threads : Z) (pool : list (task A)) (i : nat) : bool :=
  match pool !! i with
  | None => false
  | Some t =>
      started t ||
      (forallb started (take i pool)
       && (Z.of_nat (length (filter (fun t => running t = true) pool)) <? threads))
  end.

Definition step_task {A} (t : task A) (w : world) : task A * world :=
  match body t with
  | Vis ev k => let '(x, w') := handle ev w in ({| started := true; body := k x |}, w')
  | p => ({| started := true; body := p |}, w)
  end.

Definition step_pool {A} (threads : Z) (pool : list (task A)) (i : nat) (w : world)
  : list (task A) * world :=
  if may_step threads pool i then
    match pool !! i with
    | Some t => let '(t', w') := step_task t w in (<[i := t']> pool, w')
    | None => (pool, w)
    end
  else (pool, w).

Fixpoint run_pool {A} (threads : Z) (schedule : list nat) (pool : list (task A))
  (w : world) : list (task A) * world :=
  match schedule with
  | [] => (pool, w)
  | i :: rest => let '(pool', w') := step_pool threads pool i w in
                 run_pool threads rest pool' w'
  end.

(** [[c.get() for c in call_result_objs]]: the results in submission
    order; [get] waits for its task and re-raises what the task raised. *)
Fixpoint collect {A} (pool : list (task A)) : outcome (list A) :=
  match pool with
  | [] => Returned []
  | t :: rest =>
      match body t with
      | Ret a => match collect rest with
                 | Returned l => Returned (a :: l)
                 | Raised e => Raised e
                 | Blocked => Blocked
                 end
      | Throw e => Raised e
      | _ => Blocked
      end
  end.

End Semantics.

(** ** The executor *)

(** The fields of [self] that the methods read. *)
Record executor : Type := {
  self_job_max_runtime : pyval;
  self_config_runtime : pyval;            (* self.config['runtime'] *)
  self_storage_config : pyval;
  self_storage_prefix : string;           (* self.storage.prefix *)
  self_runtime_urls : option pyval;       (* self.runtime_meta_info['urls'], if present *)
  self_map_item_limit : option Z
}.

(** [sub in s] on strings. *)
Fixpoint contains (sub s : string) : bool :=
  String.prefix sub s ||
  match s with
  | EmptyString => false
  | String _ s' => contains sub s'
  end.

(** What [Executor.map] has computed when it starts to submit calls. *)
Record job : Type := {
  job_callset_id : string;
  job_func_key : string;
  job_host_job_meta : pydict;
  job_agg_data_key : option string;
  job_agg_data_ranges : option (list (Z * Z));   (* unbound without aggregation *)
  job_data_strs : list bytes
}.

Module Executor.
Section Methods.
Context `{Collaborators}.
Variable self : executor.

Definition put_data (data_key : string) (data_str : bytes)
  (callset_id call_id : string) : prog unit :=
  trigger (PutData data_key data_str).

(** The loop over [extra_meta.items()]. *)
Fixpoint merge_extra_meta (items : list (string * pyval)) (arg_dict : pydict)
  : prog pydict :=
  match items with
  | [] => Ret arg_dict
  | (k, v) :: rest =>
      match arg_dict !! k with
      | Some _ => Throw (ValueError "Key {} already in dict" [PStr k])
      | None => merge_extra_meta rest (<[k := v]> arg_dict)
      end
  end.

Definition invoke_with_keys (func_key data_key output_key status_key cancel_key
    callset_id call_id : string) (extra_env : option pyval)
    (extra_meta : option (list (string * pyval))) (data_byte_range : pyval)
    (use_cached_runtime : bool) (host_job_meta : pydict) (job_max_runtime : pyval)
    (overwrite_invoke_args : option pydict) : prog ResponseFuture :=
  runtime_url ←
    match self_runtime_urls self with
    | Some (PList (u :: urls)) => trigger (RandomChoice (u :: urls))
    | _ => Ret (PStr "")
    end;
  let arg_dict : pydict :=
    <["runtime_url" := runtime_url]> (
    <["pywren_version" := PStr pywren_version]> (
    <["runtime" := self_config_runtime self]> (
    <["use_cached_runtime" := PBool use_cached_runtime]> (
    <["call_id" := PStr call_id]> (
    <["data_byte_range" := data_byte_range]> (
    <["job_max_runtime" := job_max_runtime]> (
    <["callset_id" := PStr callset_id]> (
    <["cancel_key" := PStr cancel_key]> (
    <["status_key" := PStr status_key]> (
    <["output_key" := PStr output_key]> (
    <["data_key" := PStr data_key]> (
    <["func_key" := PStr func_key]> (
    <["storage_config" := self_storage_config self]> ∅))))))))))))) in
  let arg_dict :=
    match extra_env with
    | Some env => <["extra_env" := env]> arg_dict
    | None => arg_dict
    end in
  arg_dict ←
    match extra_meta with
    | Some meta => merge_extra_meta (dict_items meta) arg_dict
    | None => Ret arg_dict
    end;
  host_submit_time ← time;
  let arg_dict := <["host_submit_time" := PFloat host_submit_time]> arg_dict in
  lambda_invoke_time_start ← time;
  let arg_dict :=
    match overwrite_invoke_args with
    | Some args => dict_update arg_dict args
    | None => arg_dict
    end in
  _ ← trigger (Invoke arg_dict);
  let host_job_meta :=
    <["lambda_invoke_timestamp" := PFloat lambda_invoke_time_start]> host_job_meta in
  now ← time;
  let host_job_meta :=
    <["lambda_invoke_time" := PFloat (now - lambda_invoke_time_start)]> host_job_meta in
  config ← trigger InvokerConfig;
  let host_job_meta := dict_update host_job_meta config in
  let host_job_meta := dict_update host_job_meta arg_dict in
  let storage_path := get_storage_path (self_storage_config self) in
  let fut := {| call_id := call_id; callset_id := callset_id;
                invoke_metadata := host_job_meta; storage_path := storage_path;
                state := created |} in
  Ret (_set_state fut invoked).

(** The closure [invoke] of [map]; it captures [extra_env], [extra_meta],
    [use_cached_runtime] and [overwrite_invoke_args]. *)
Definition invoke (extra_env : option pyval)
    (extra_meta : option (list (string * pyval))) (use_cached_runtime : bool)
    (overwrite_invoke_args : option pydict)
    (data_str : bytes) (callset_id call_id func_key : string)
    (host_job_meta : pydict) (agg_data_key : option string)
    (data_byte_range : pyval) : prog ResponseFuture :=
  let '(data_key, output_key, status_key, cancel_key) :=
    create_keys (self_storage_prefix self) callset_id call_id in
  now ← time;
  let host_job_meta := <["job_invoke_timestamp" := PFloat now]> host_job_meta in
  '(data_key, host_job_meta) ←
    match agg_data_key with
    | None =>
        data_upload_time ← time;
        _ ← put_data data_key data_str callset_id call_id;
        now ← time;
        let data_upload_time := now - data_upload_time in
        let host_job_meta :=
          <["data_upload_time" := PFloat data_upload_time]> host_job_meta in
        now ← time;
        let host_job_meta :=
          <["data_upload_timestamp" := PFloat now]> host_job_meta in
        Ret (data_key, host_job_meta)
    | Some agg_data_key => Ret (agg_data_key, host_job_meta)
    end;
  invoke_with_keys func_key data_key output_key status_key cancel_key
    callset_id call_id extra_env extra_meta data_byte_range use_cached_runtime
    host_job_meta (self_job_max_runtime self) overwrite_invoke_args.

(** [assert hint is not None] and
    [assert not (from_shared_storage and sync_to_shared_storage)]. *)
Definition assert (line : nat) (cond : bool) : prog unit :=
  if cond then Ret tt else Throw (AssertionError line).

Definition parse_module_dependencies (func : pyobj) (hint : option string)
    (from_shared_storage sync_to_shared_storage : bool) : prog unit :=
  _ ← assert 184 (match hint with Some _ => true | None => false end);
  _ ← assert 185 (negb (from_shared_storage && sync_to_shared_storage));
  match hint with
  | None => Throw (AssertionError 184)
  | Some user_key =>
      if from_shared_storage then Ret tt
      else
        start ← time;
        '(func_str, mod_paths) ← trigger (Serialize [func] false);
        match func_str with
        | [] => Throw (IndexError "list index out of range")
        | func_str :: _ =>
            module_data ← trigger (CreateModData mod_paths);
            let func_module_str :=
              pickle_dumps (PDict [("func", PBytes func_str);
                                   ("module_data", module_data)]) in
            end_ ← time;
            if sync_to_shared_storage then
              let storage_key := create_mod_key (self_storage_prefix self) user_key in
              trigger (PutModuleDependencies storage_key func_module_str)
            else Ret tt
        end
  end.

(** [sum(len(x) for x in data_strs)] *)
Definition total_size (data_strs : list bytes) : Z :=
  foldr Z.add 0 ((fun x : bytes => Z.of_nat (length x)) <$> data_strs).

(** [ThreadPool(processes)] refuses to start without a thread. *)
Definition ThreadPool (processes : Z) : prog unit :=
  if processes <? 1
  then Throw (ValueError "Number of processes must be at least 1" [])
  else Ret tt.

(** Reading a local variable that may not have been assigned. *)
Definition local {A} (name : string) (v : option A) : prog A :=
  match v with
  | Some a => Ret a
  | None => Throw (UnboundLocalError name)
  end.

(** The module-exclusion loops: every path that mentions an excluded
    module is removed from the set. *)
Definition remove_excluded (exclude_modules : list string) (mod_paths : gset string)
  : gset string :=
  foldl (fun paths module =>
           filter (fun mod_path => contains module mod_path = false) paths)
        mod_paths exclude_modules.

(** [map], from the creation of the pool to the definition of [invoke]. *)
Definition package (func : pyobj) (data : list pyobj) (invoke_pool_threads : Z)
    (data_all_as_one : bool) (exclude_modules : option (list string))
    (module_dependencies_key : option string) : prog job :=
  let host_job_meta : pydict := ∅ in
  _ ← ThreadPool invoke_pool_threads;
  callset_id ← trigger CreateCallsetId;
  '(func_and_data_ser, mod_paths) ←
    match module_dependencies_key with
    | None =>
        '(ser, paths) ← trigger (Serialize (func :: data) false);
        Ret (ser, Some paths)
    | Some _ =>
        (* the other branch binds [mod_path], not [mod_paths] *)
        '(ser, _) ← trigger (Serialize (func :: data) true);
        Ret (ser, None)
    end;
  match func_and_data_ser with
  | [] => Throw (IndexError "list index out of range")
  | func_str :: data_strs =>
      let data_size_bytes := total_size data_strs in
      let host_job_meta := <["agg_data" := PBool false]> host_job_meta in
      let host_job_meta :=
        <["data_size_bytes" := PInt data_size_bytes]> host_job_meta in
      '(agg_data_key, agg_data_ranges, host_job_meta) ←
        (if (data_size_bytes <? MAX_AGG_DATA_SIZE) && data_all_as_one then
           let agg_data_key :=
             create_agg_data_key (self_storage_prefix self) callset_id in
           let '(agg_data_bytes, agg_data_ranges) := agg_data data_strs in
           agg_upload_time ← time;
           _ ← trigger (PutData agg_data_key agg_data_bytes);
           let host_job_meta := <["agg_data" := PBool true]> host_job_meta in
           now ← time;
           let host_job_meta :=
             <["data_upload_time" := PFloat (now - agg_upload_time)]> host_job_meta in
           now ← time;
           let host_job_meta :=
             <["data_upload_timestamp" := PFloat now]> host_job_meta in
           Ret (Some agg_data_key, Some agg_data_ranges, host_job_meta)
         else Ret (None, None, host_job_meta));
      mod_paths ←
        match exclude_modules with
        | Some (module :: modules) =>
            paths ← local "mod_paths" mod_paths;
            Ret (Some (remove_excluded (module :: modules) paths))
        | _ => Ret mod_paths
        end;
      module_data ←
        match module_dependencies_key with
        | None =>
            paths ← local "mod_paths" mod_paths;
            module_data ← trigger (CreateModData paths);
            Ret (Some module_data)
        | Some _ => Ret None
        end;
      func_upload_time ← time;
      '(func_key, host_job_meta) ←
        match module_dependencies_key with
        | None =>
            module_data ← local "module_data" module_data;
            let func_module_str :=
              pickle_dumps (PDict [("func", PBytes func_str);
                                   ("module_data", module_data)]) in
            let host_job_meta :=
              <["func_module_str_len" := PInt (Z.of_nat (length func_module_str))]>
                host_job_meta in
            let func_key := create_func_key (self_storage_prefix self) callset_id in
            _ ← trigger (PutFunc func_key func_module_str);
            Ret (func_key, host_job_meta)
        | Some key =>
            let func_key := create_mod_key (self_storage_prefix self) key in
            Ret (func_key, <["func_module_str_len" := PInt 0]> host_job_meta)
        end;
      now ← time;
      let host_job_meta :=
        <["func_upload_time" := PFloat (now - func_upload_time)]> host_job_meta in
      now ← time;
      let host_job_meta := <["func_upload_timestamp" := PFloat now]> host_job_meta in
      Ret {| job_callset_id := callset_id; job_func_key := func_key;
             job_host_job_meta := host_job_meta; job_agg_data_key := agg_data_key;
             job_agg_data_ranges := agg_data_ranges; job_data_strs := data_strs |}
  end.

(** One iteration of the submission loop: the arguments of
    [pool.apply_async(invoke, ...)] for input [i]. *)
Definition submit (extra_env : option pyval)
    (extra_meta : option (list (string * pyval))) (use_cached_runtime : bool)
    (overwrite_invoke_args : option pydict) (j : job) (i : nat)
  : exn + prog ResponseFuture :=
  let call_id := format_05d i in
  let data_byte_range : exn + pyval :=
    match job_agg_data_key j with
    | None => inr PNone
    | Some _ =>
        match job_agg_data_ranges j with
        | None => inl (UnboundLocalError "agg_data_ranges")
        | Some ranges =>
            match ranges !! i with
            | Some (lo, hi) => inr (PTuple [PInt lo; PInt hi])
            | None => inl (IndexError "list index out of range")
            end
        end
    end in
  match data_byte_range with
  | inl e => inl e
  | inr data_byte_range =>
      match job_data_strs j !! i with
      | None => inl (IndexError "list index out of range")
      | Some data_str =>
          inr (invoke extra_env extra_meta use_cached_runtime overwrite_invoke_args
                 data_str (job_callset_id j) call_id (job_func_key j)
                 (job_host_job_meta j) (job_agg_data_key j) data_byte_range)
      end
  end.

Fixpoint submit_all (extra_env : option pyval)
    (extra_meta : option (list (string * pyval))) (use_cached_runtime : bool)
    (overwrite_invoke_args : option pydict) (j : job) (indices : list nat)
  : exn + list (prog ResponseFuture) :=
  match indices with
  | [] => inr []
  | i :: rest =>
      match submit extra_env extra_meta use_cached_runtime overwrite_invoke_args j i with
      | inl e => inl e
      | inr cb =>
          match submit_all extra_env extra_meta use_cached_runtime
                  overwrite_invoke_args j rest with
          | inl e => inl e
          | inr call_result_objs => inr (cb :: call_result_objs)
          end
      end
  end.

Definition exceeds (n : nat) (limit : option Z) : bool :=
  match limit with
  | Some limit => Z.of_nat n >? limit
  | None => false
  end.

Definition map (func : pyobj) (iterdata : list pyobj) (extra_env : option pyval)
    (extra_meta : option (list (string * pyval))) (invoke_pool_threads : Z)
    (data_all_as_one use_cached_runtime : bool)
    (overwrite_invoke_args : option pydict) (exclude_modules : option (list string))
    (module_dependencies_key : option string)
    (schedule : list nat) (w : world) : outcome (list ResponseFuture) * world :=
  let data := iterdata in
  match data with
  | [] => (Returned [], w)
  | _ :: _ =>
      if exceeds (length data) (self_map_item_limit self) then
        (Raised (ValueError
           "len(data) ={}, exceeding map item limit of {}consider mapping over a smallernumber of items"
           [PInt (Z.of_nat (length data));
            match self_map_item_limit self with Some l => PInt l | None => PNone end]),
         w)
      else
        match run (package func data invoke_pool_threads data_all_as_one
                     exclude_modules module_dependencies_key) w with
        | (Returned j, w) =>
            let N := length data in
            match submit_all extra_env extra_meta use_cached_runtime
                    overwrite_invoke_args j (seq 0 N) with
            | inl e => (Raised e, w)
            | inr call_result_objs =>
                let '(pool, w) :=
                  run_pool invoke_pool_threads schedule (queued <$> call_result_objs) w in
                (collect pool, w)
            end
        | (Raised e, w) => (Raised e, w)
        | (Blocked, w) => (Blocked, w)
        end
  end.

Definition call_async (func data : pyobj) (extra_env : option pyval)
    (extra_meta : option (list (string * pyval)))
    (schedule : list nat) (w : world) : outcome ResponseFuture * world :=
  match map func [data] extra_env extra_meta 64 true true None None None schedule w with
  | (Returned (fut :: _), w) => (Returned fut, w)
  | (Returned [], w) => (Raised (IndexError "list index out of range"), w)
  | (Raised e, w) => (Raised e, w)
  | (Blocked, w) => (Blocked, w)
  end.

Definition wait (fs : list ResponseFuture) : prog unit :=
  o ← trigger (Wait fs);
  match o with
  | WaitForever => Block
  | WaitRaised e => Throw e
  | WaitDone => Ret tt
  end.

Definition reduce (function : pyobj) (list_of_futures : list ResponseFuture)
    (extra_env : option pyval) (extra_meta : option (list (string * pyval)))
    (schedule : list nat) (w : world) : outcome ResponseFuture * world :=
  match run (wait list_of_futures) w with
  | (Returned _, w) =>
      let reduce_func := OReduceFunc function in
      call_async reduce_func (OFutures list_of_futures) extra_env extra_meta schedule w
  | (Raised e, w) => (Raised e, w)
  | (Blocked, w) => (Blocked, w)
  end.

End Methods.
End Executor.

(** ** A concrete setting

    Collaborators in the style of the real ones, used to run the
    executor on examples. *)
Module Demo.

Definition join_key (parts : list string) : string :=
  foldr (fun p acc => match acc with
                      | EmptyString => p
                      | _ => (p ++ "/" ++ acc)%string
                      end) "" parts.

Definition demo_dumps (o : pyobj) : bytes :=
  match o with
  | OVal (PBytes b) => b
  | OVal _ => [x76]
  | OFunc _ => [x66; x6e]
  | OReduceFunc _ => [x72; x65; x64]
  | OFutures fs => List.repeat x2a (length fs)
  end.

#[global] Instance collaborators : Collaborators := {|
  dumps := demo_dumps;
  module_paths := fun _ => {["/site-packages/numpy"; "/home/user/helpers"]};
  mod_data_of := fun paths => PList (PStr <$> elements paths);
  pickle_dumps := fun v =>
    match v with
    | PDict (("func", PBytes b) :: _) => x80 :: b
    | _ => [x80]
    end;
  create_func_key := fun prefix callset => join_key [prefix; callset; "func.json"];
  create_mod_key := fun prefix key => join_key [prefix; "modules"; key];
  create_agg_data_key := fun prefix callset => join_key [prefix; callset; "aggdata.pickle"];
  create_keys := fun prefix callset call =>
    (join_key [prefix; callset; call; "data.pickle"],
     join_key [prefix; callset; call; "output.pickle"],
     join_key [prefix; callset; call; "status.json"],
     join_key [prefix; callset; call; "cancel"]);
  get_storage_path := fun config => PTuple [PStr "s3"; config];
  MAX_AGG_DATA_SIZE := 4000000;
  pywren_version := "0.4.0";
  invoker_config := {["function_name" := PStr "pywren_1"]};
  clock_at := fun n => 1000 + 7 * Z.of_nat n;
  random_at := fun n => n;
  callset_id_at := fun n => ("callset-" ++ str_of_nat n)%string;
  final_state := fun callset call =>
    if String.eqb call "00001" then failed else success
|}.

Definition pwex (limit : option Z) : executor := {|
  self_job_max_runtime := PInt 300;
  self_config_runtime := PDict [("s3_bucket", PStr "runtimes")];
  self_storage_config := PDict [("storage_backend", PStr "s3")];
  self_storage_prefix := "pywren.jobs";
  self_runtime_urls := None;
  self_map_item_limit := limit
|}.

Definition w0 : world :=
  {| clock_reads := 0; random_draws := 0; callsets := 0; trace := [] |}.

Definition foo : pyobj := OFunc "foo".

Definition payloads : list pyobj :=
  [OVal (PBytes [x01; x02]); OVal (PBytes []); OVal (PBytes [x03])].

(** Task 2 moves first and task 0 last. *)
Definition late_first : list nat :=
  [0; 1; 2; 2; 2; 2; 2; 2; 2; 1; 1; 1; 1; 1; 1; 1; 0; 0; 0; 0; 0; 0; 0; 0; 0; 0]%nat.

End Demo.

(** ** Auxiliary definitions *)

(** The ranges of [agg_data], by recursion on the payloads. *)
Fixpoint ranges_from (pos : Z) (data_strs : list bytes) : list (Z * Z) :=
  match data_strs with
  | [] => []
  | datum :: rest =>
      let l := Z.of_nat (length datum) in
      (pos, pos + l - 1) :: ranges_from (pos + l) rest
  end.

(** Where payload [i] starts in the concatenation. *)
Definition offset (data_strs : list bytes) (i : nat) : Z :=
  Z.of_nat (length (concat (take i data_strs))).

(** Decimal digit strings. *)
Definition is_digit (c : ascii) : Prop :=
  exists d, (d < 10)%nat /\ c = digit_char d.

Fixpoint all_digits (s : string) : Prop :=
  match s with
  | EmptyString => True
  | String c rest => is_digit c /\ all_digits rest
  end.

(** The collaborator calls that a request leaves in the trace. *)
Definition emitted {X} (ev : event X) : list call :=
  match ev with
  | Time | RandomChoice _ | CreateCallsetId => []
  | Serialize objs ig => [CSerialize objs ig]
  | CreateModData mp => [CCreateModData mp]
  | PutData k d => [CPutData k d]
  | PutFunc k d => [CPutFunc k d]
  | PutModuleDependencies k d => [CPutModuleDependencies k d]
  | Invoke a => [CInvoke a]
  | InvokerConfig => [CInvokerConfig]
  | Wait fs => [CWait fs]
  end.

(** [sat E R F p]: whatever answers it gets, [p] only makes calls that
    satisfy [E], only returns results that satisfy [R], only raises
    exceptions that satisfy [F], and never blocks. *)
Inductive sat {A} (E : call -> Prop) (R : A -> Prop) (F : exn -> Prop)
  : prog A -> Prop :=
| sat_ret a : R a -> sat E R F (Ret a)
| sat_throw e : F e -> sat E R F (Throw e)
| sat_vis X (ev : event X) k :
    Forall E (emitted ev) -> (forall x, sat E R F (k x)) -> sat E R F (Vis ev k).

(** [uploads_first key data E p]: [p] makes no call before it puts
    [data] under [key], and afterwards only calls that satisfy [E]. *)
Inductive uploads_first {A} (key : string) (data : bytes) (E : call -> Prop)
  : prog A -> Prop :=
| uf_ret a : uploads_first key data E (Ret a)
| uf_throw e : uploads_first key data E (Throw e)
| uf_quiet X (ev : event X) k :
    emitted ev = [] -> (forall x, uploads_first key data E (k x)) ->
    uploads_first key data E (Vis ev k)
| uf_upload k :
    (forall x, sat E (fun _ => True) (fun _ => True) (k x)) ->
    uploads_first key data E (Vis (PutData key data) k).

Definition is_invoke (c : call) : bool :=
  match c with CInvoke _ => true | _ => false end.

Definition is_put_data (c : call) : bool :=
  match c with CPutData _ _ => true | _ => false end.

Definition is_put_func (c : call) : bool :=
  match c with CPutFunc _ _ => true | _ => false end.

(** The calls of a task once its data is in the store: invocations
    whose arguments satisfy [P], and reads of the backend configuration. *)
Definition invokes_with (P : pydict -> Prop) (c : call) : Prop :=
  match c with
  | CInvoke a => P a
  | CInvokerConfig => True
  | _ => False
  end.

(** The value that [overwrite_invoke_args] gives to a field, if any. *)
Definition override_of (overwrite_invoke_args : option pydict) (k : string)
  : option pyval :=
  match overwrite_invoke_args with
  | Some args => args !! k
  | None => None
  end.

(** The error of the sanity check on [extra_meta]. *)
Definition key_collision (e : exn) : Prop :=
  exists k, e = ValueError "Key {} already in dict" [PStr k].

(** The value of field [k] after [arg_dict.update(overwrite_invoke_args)]:
    the value of [overwrite_invoke_args] when it rebinds the field, and
    the computed value [v] otherwise. *)
Definition field_value (overwrite_invoke_args : option pydict) (k : string)
    (v : pyval) : pyval :=
  default v (override_of overwrite_invoke_args k).

(** The fields of the invocation arguments that locate the data of a
    call: each holds the computed value, or the value that
    [overwrite_invoke_args] gives it when it rebinds the field. *)
Definition carries (overwrite_invoke_args : option pydict) (data_key : string)
    (data_byte_range : pyval) (call_id : string) (a : pydict) : Prop :=
  a !! "data_key"
  = Some (field_value overwrite_invoke_args "data_key" (PStr data_key))
  /\ a !! "data_byte_range"
     = Some (field_value overwrite_invoke_args "data_byte_range" data_byte_range)
  /\ a !! "call_id"
     = Some (field_value overwrite_invoke_args "call_id" (PStr call_id)).

(** The data key of a call. *)
Definition data_key_of `{Collaborators} (prefix callset_id call_id : string) : string :=
  (create_keys prefix callset_id call_id).1.1.1.

(** What a future returned for a call looks like. *)
Definition future_of (callset call : string) (f : ResponseFuture) : Prop :=
  call_id f = call /\ callset_id f = callset /\ state f = invoked.

(** Every element of [l] satisfies [Ec] in the context of what comes
    before it. *)
Definition each_after (Ec : list call -> call -> Prop) (l : list call) : Prop :=
  forall pre c post, l = pre ++ c :: post -> Ec pre c.

(** The condition under which [map] aggregates the payloads. *)
Definition aggregates `{Collaborators} (data : list pyobj) (data_all_as_one : bool)
  : bool :=
  (Executor.total_size (dumps <$> data) <? MAX_AGG_DATA_SIZE) && data_all_as_one.

(** Outcomes as booleans, to evaluate examples. *)
Definition returned {A} (o : outcome A) : bool :=
  match o with Returned _ => true | _ => false end.

Definition raised {A} (o : outcome A) : option exn :=
  match o with Raised e => Some e | _ => None end.

(** A call of the pool when the payloads are aggregated: no upload, and
    every invocation carries the aggregated key and the range of its
    call, or the values that [overwrite_invoke_args] gives these
    fields. *)
Definition aggregated_call (overwrite_invoke_args : option pydict)
    (agg_data_key : string) (ranges : list (Z * Z)) (c : call) : Prop :=
  match c with
  | CInvoke a =>
      exists i lo hi,
        ranges !! i = Some (lo, hi)
        /\ carries overwrite_invoke_args agg_data_key (PTuple [PInt lo; PInt hi])
             (format_05d i) a
  | CInvokerConfig => True
  | _ => False
  end.

(** A call of the pool when they are not, after the calls [pre]: an
    upload puts the payload of a call under the data key of that call,
    and an invocation carries the data key of its call and no range (or
    the values that [overwrite_invoke_args] gives these fields), and
    comes after the upload of that call. *)
Definition own_data_call `{Collaborators} (overwrite_invoke_args : option pydict)
    (prefix callset_id : string) (data_strs : list bytes)
    (pre : list call) (c : call) : Prop :=
  match c with
  | CPutData k d =>
      exists i, data_strs !! i = Some d
                /\ k = data_key_of prefix callset_id (format_05d i)
  | CInvoke a =>
      exists i d,
        data_strs !! i = Some d
        /\ carries overwrite_invoke_args
             (data_key_of prefix callset_id (format_05d i)) PNone (format_05d i) a
        /\ CPutData (data_key_of prefix callset_id (format_05d i)) d ∈ pre
  | CInvokerConfig => True
  | _ => False
  end.

(** The value of a field in the arguments of each invocation of a
    trace, in order. *)
Definition invoked_field (k : string) (tr : list call) : list (option pyval) :=
  omap (fun c => match c with CInvoke a => Some (a !! k) | _ => None end) tr.

(** [must_invoke P p]: whatever answers it gets, [p] does not return
    before it has invoked the backend with arguments that satisfy [P]. *)
Inductive must_invoke {A} (P : pydict -> Prop) : prog A -> Prop :=
| mi_throw e : must_invoke P (Throw e)
| mi_block : must_invoke P Block
| mi_vis X (ev : event X) k :
    (forall x, must_invoke P (k x)) -> must_invoke P (Vis ev k)
| mi_invoke a k : P a -> must_invoke P (Vis (Invoke a) k).

(** The fields of the literal [arg_dict] of [invoke_with_keys]. *)
Definition arg_dict_fields : list string :=
  ["storage_config"; "func_key"; "data_key"; "output_key"; "status_key";
   "cancel_key"; "callset_id"; "job_max_runtime"; "data_byte_range"; "call_id";
   "use_cached_runtime"; "runtime"; "pywren_version"; "runtime_url"].

(** The keys that are in [arg_dict] when [extra_meta] is merged. *)
Definition fields_at_merge (extra_env : option pyval) : list string :=
  match extra_env with
  | Some _ => "extra_env" :: arg_dict_fields
  | None => arg_dict_fields
  end.

(** [finishes_within n p]: whatever answers it gets, [p] makes at most
    [n] requests. *)
Fixpoint finishes_within {A} (n : nat) (p : prog A) : Prop :=
  match n with
  | O => match p with Vis _ _ => False | _ => True end
  | S n' => match p with
            | Vis ev k => forall x, finishes_within n' (k x)
            | _ => True
            end
  end.

(** The schedule that serves [n] calls one after the other, each for
    [steps] steps. *)
Definition sequential (n steps : nat) : list nat :=
  flat_map (fun i => repeat i steps) (seq 0 n).

(** ** The constructor and the log reader

    [Executor.__init__] and [Executor.get_logs] read nested dictionaries
    ([config], the runtime description, the run status of a call) and
    fail on a missing key, or on a value that is not a dictionary. *)

(** The errors of item and attribute access. *)
Inductive lookup_error : Type :=
| KeyError (key : string)
| TypeError (operand : pyval)
| AttributeError (operand : pyval) (name : string).

Definition try_ {E A B} (r : E + A) (f : A -> E + B) : E + B :=
  match r with
  | inl e => inl e
  | inr a => f a
  end.

Fixpoint assoc (k : string) (items : list (string * pyval)) : option pyval :=
  match items with
  | [] => None
  | (k', v) :: rest => if String.eqb k' k then Some v else assoc k rest
  end.

(** The value of key [k] in a [dict] value. *)
Definition dict_get (items : list (string * pyval)) (k : string) : option pyval :=
  assoc k (dict_items items).

(** [k in container] for a string [k]: a key of a dict, a substring of
    a string, an element of a list or tuple; other values are not
    containers ([PObj] stands for an object without the container
    protocol). *)
Definition py_in (k : string) (container : pyval) : lookup_error + bool :=
  match container with
  | PDict items => inr (match dict_get items k with Some _ => true | None => false end)
  | PStr s => inr (contains k s)
  | PList items | PTuple items =>
      inr (existsb (fun x => match x with PStr s => String.eqb s k | _ => false end)
             items)
  | _ => inl (TypeError container)
  end.

(** [container[k]] for a string [k]: only a dict can be indexed by a
    string. *)
Definition py_getitem (container : pyval) (k : string) : lookup_error + pyval :=
  match container with
  | PDict items =>
      match dict_get items k with
      | Some v => inr v
      | None => inl (KeyError k)
      end
  | _ => inl (TypeError container)
  end.

(** What the constructor gets from the other modules of the package:
    [wrenconfig.extract_storage_config], the prefix of
    [storage.Storage(storage_config)] and [runtime.get_runtime_info]. *)
Class Setup : Type := {
  extract_storage_config : pydict -> pyval;
  storage_prefix : pyval -> string;
  get_runtime_info : pyval -> pydict
}.

(** The attributes that [__init__] sets.  [attr_serializer] is the
    argument of [SerializeIndependent]: the preinstalled modules, or
    nothing when the serializer is built with its defaults. *)
Record attributes : Type := {
  attr_invoker : pyval;
  attr_job_max_runtime : pyval;
  attr_config : pydict;
  attr_storage_config : pyval;
  attr_storage_prefix : string;
  attr_runtime_meta_info : pydict;
  attr_serializer : option pyval;
  attr_map_item_limit : pyval
}.

(** One event of a CloudWatch log stream, as [get_log_events] returns
    it: the fields that [get_logs] reads. *)
Record log_event : Type := {
  timestamp : Z;
  message : string
}.

(** [boto3.client('logs', region_name=...).get_log_events(logGroupName=...,
    logStreamName=...)['events']], and [str(value)] for a value that is
    not a string, as the interpreter prints it. *)
Class Logs : Type := {
  get_log_events : pyval -> pyval -> pyval -> list log_event;
  str_of : pyval -> string
}.

(** ["{}".format(value)]: a string is put in as it is, another value as
    its text. *)
Definition format_value `{Logs} (value : pyval) : string :=
  match value with
  | PStr s => s
  | _ => str_of value
  end.

(** [str.isspace] on the characters below 256, and [str.strip()]. *)
Definition is_space (c : ascii) : bool :=
  let n := nat_of_ascii c in
  ((9 <=? n) && (n <=? 13) || (28 <=? n) && (n <=? 32) || (n =? 133) || (n =? 160))%nat.

Fixpoint lstrip (s : string) : string :=
  match s with
  | EmptyString => EmptyString
  | String c rest => if is_space c then lstrip rest else s
  end.

Definition rstrip (s : string) : string := String.rev (lstrip (String.rev s)).

Definition strip (s : string) : string := rstrip (lstrip s).

Module Instance.
Section Methods.
Context `{Setup} `{Logs}.

(** [self.runtime_meta_info['preinstalls'].append(entry)] *)
Definition append_preinstall (runtime_meta_info : pydict) (entry : pyval)
  : lookup_error + pydict :=
  match runtime_meta_info !! "preinstalls" with
  | None => inl (KeyError "preinstalls")
  | Some (PList items) =>
      inr (<["preinstalls" := PList (items ++ [entry])]> runtime_meta_info)
  | Some v => inl (AttributeError v "append")
  end.

Definition __init__ (invoker : pyval) (config : pydict) (job_max_runtime : pyval)
  : lookup_error + attributes :=
  let storage_config := extract_storage_config config in
  let prefix := storage_prefix storage_config in
  match config !! "runtime" with
  | None => inl (KeyError "runtime")
  | Some runtime =>
      let runtime_meta_info := get_runtime_info runtime in
      try_ (append_preinstall runtime_meta_info (PList [PStr "pandas"; PBool true]))
        (fun runtime_meta_info =>
      try_ (append_preinstall runtime_meta_info (PList [PStr "thrift"; PBool true]))
        (fun runtime_meta_info =>
      try_ (append_preinstall runtime_meta_info (PList [PStr "Thrift"; PBool true]))
        (fun runtime_meta_info =>
      let serializer :=
        match runtime_meta_info !! "preinstalls" with
        | Some preinstalls => Some preinstalls
        | None => None
        end in
      try_ (match config !! "scheduler" with
            | Some scheduler =>
                try_ (py_in "map_item_limit" scheduler) (fun present =>
                  if present then py_getitem scheduler "map_item_limit"
                  else inr PNone)
            | None => inr PNone
            end)
        (fun map_item_limit =>
      inr {| attr_invoker := invoker;
             attr_job_max_runtime := job_max_runtime;
             attr_config := config;
             attr_storage_config := storage_config;
             attr_storage_prefix := prefix;
             attr_runtime_meta_info := runtime_meta_info;
             attr_serializer := serializer;
             attr_map_item_limit := map_item_limit |}))))
  end.

(** The fields that the other methods read, when the item limit is an
    integer or [None]; an instance with another limit (a [bool], a
    [float], a string) has no image here. *)
Definition as_executor (self : attributes) : option executor :=
  match attr_config self !! "runtime",
        match attr_map_item_limit self with
        | PNone => Some None
        | PInt limit => Some (Some limit)
        | _ => None
        end with
  | Some runtime, Some limit =>
      Some {| self_job_max_runtime := attr_job_max_runtime self;
              self_config_runtime := runtime;
              self_storage_config := attr_storage_config self;
              self_storage_prefix := attr_storage_prefix self;
              self_runtime_urls := attr_runtime_meta_info self !! "urls";
              self_map_item_limit := limit |}
  | _, _ => None
  end.

(** One iteration of the loop of [get_logs]; the state is what was
    printed, [this_events_logs] and [in_this_event].  A call of [print]
    is kept as the list of its arguments. *)
Definition get_logs_step (verbose : bool) (aws_request_id : pyval)
    (st : list (list pyval) * list (Z * string) * bool) (event : log_event)
  : list (list pyval) * list (Z * string) * bool :=
  let '(printed, this_events_logs, in_this_event) := st in
  let start_string := ("START RequestId: " ++ format_value aws_request_id)%string in
  let end_string := ("REPORT RequestId: " ++ format_value aws_request_id)%string in
  let message := strip (message event) in
  let timestamp := timestamp event in
  let printed :=
    if verbose then printed ++ [[PInt timestamp; PStr message]] else printed in
  let '(in_this_event, this_events_logs) :=
    if contains start_string message then (true, this_events_logs)
    else if contains end_string message
         then (false, this_events_logs ++ [(timestamp, message)])
         else (in_this_event, this_events_logs) in
  let this_events_logs :=
    if in_this_event then this_events_logs ++ [(timestamp, message)]
    else this_events_logs in
  (printed, this_events_logs, in_this_event).

(** [get_logs(future, verbose)]: [run_status] is the value of
    [future.run_status], whatever it is: [None] on a future whose status
    has not been fetched, the dictionary of the status otherwise.  The
    result is what was printed and the list returned. *)
Definition get_logs (self : attributes) (run_status : pyval)
    (verbose : bool) : lookup_error + (list (list pyval) * list (Z * string)) :=
  match attr_config self !! "account" with
  | None => inl (KeyError "account")
  | Some account =>
      try_ (py_getitem account "aws_region") (fun aws_region =>
      try_ (py_getitem run_status "log_group_name") (fun log_group_name =>
      try_ (py_getitem run_status "log_stream_name") (fun log_stream_name =>
      try_ (py_getitem run_status "aws_request_id") (fun aws_request_id =>
          let log_events := get_log_events aws_region log_group_name log_stream_name in
          let printed := if verbose then [[PStr "log events returned"]] else [] in
          let '(printed, this_events_logs, _) :=
            fold_left (get_logs_step verbose aws_request_id) log_events
              (printed, [], false) in
          inr (printed, this_events_logs)))))
  end.

End Methods.
End Instance.

(** ** Auxiliary definitions for the constructor, the log reader and the records *)

(** The pair that [get_logs] keeps for an event. *)
Definition entry (e : log_event) : Z * string := (timestamp e, strip (message e)).

(** The lines that open and close the log of a request.  A line that
    holds both markers opens. *)
Definition is_start (aws_request_id : string) (e : log_event) : bool :=
  contains ("START RequestId: " ++ aws_request_id)%string (strip (message e)).

Definition is_report (aws_request_id : string) (e : log_event) : bool :=
  negb (is_start aws_request_id e)
  && contains ("REPORT RequestId: " ++ aws_request_id)%string (strip (message e)).

Definition is_marker (aws_request_id : string) (e : log_event) : bool :=
  is_start aws_request_id e || is_report aws_request_id e.

(** The events that the loop of [get_logs] keeps, from the state
    [in_this_event]. *)
Fixpoint kept (aws_request_id : string) (in_this_event : bool)
    (events : list log_event) : list log_event :=
  match events with
  | [] => []
  | e :: rest =>
      (if is_marker aws_request_id e || in_this_event then [e] else [])
      ++ kept aws_request_id
           (if is_start aws_request_id e then true
            else if is_report aws_request_id e then false
            else in_this_event)
           rest
  end.

(** The lookups of [get_logs] succeed, and give the region, the log
    group, the log stream, and a request whose text is
    [aws_request_id]. *)
Definition log_stream_of `{Logs} (self : attributes) (run_status : pyval)
    (aws_region log_group_name log_stream_name : pyval) (aws_request_id : string)
  : Prop :=
  (exists account, attr_config self !! "account" = Some account
                   /\ py_getitem account "aws_region" = inr aws_region)
  /\ py_getitem run_status "log_group_name" = inr log_group_name
  /\ py_getitem run_status "log_stream_name" = inr log_stream_name
  /\ exists request, py_getitem run_status "aws_request_id" = inr request
                     /\ format_value request = aws_request_id.

(** The error of [container[k]]: the key is missing from a dictionary,
    or the container is not a dictionary. *)
Definition getitem_error (container : pyval) (k : string) (e : lookup_error) : Prop :=
  (exists items, container = PDict items /\ dict_get items k = None /\ e = KeyError k)
  \/ ((forall items, container <> PDict items) /\ e = TypeError container).

(** The three entries that [__init__] adds to the preinstalled
    modules. *)
Definition added_preinstalls : list pyval :=
  [PList [PStr "pandas"; PBool true]; PList [PStr "thrift"; PBool true];
   PList [PStr "Thrift"; PBool true]].

(** The literal [arg_dict] of [invoke_with_keys], with [extra_env] when
    it is given. *)
Definition arg_dict_literal `{Collaborators} (self : executor)
    (func_key data_key output_key status_key cancel_key callset_id call_id : string)
    (extra_env : option pyval) (data_byte_range : pyval) (use_cached_runtime : bool)
    (job_max_runtime runtime_url : pyval) : pydict :=
  let literal : pydict :=
    <["runtime_url" := runtime_url]> (
    <["pywren_version" := PStr pywren_version]> (
    <["runtime" := self_config_runtime self]> (
    <["use_cached_runtime" := PBool use_cached_runtime]> (
    <["call_id" := PStr call_id]> (
    <["data_byte_range" := data_byte_range]> (
    <["job_max_runtime" := job_max_runtime]> (
    <["callset_id" := PStr callset_id]> (
    <["cancel_key" := PStr cancel_key]> (
    <["status_key" := PStr status_key]> (
    <["output_key" := PStr output_key]> (
    <["data_key" := PStr data_key]> (
    <["func_key" := PStr func_key]> (
    <["storage_config" := self_storage_config self]> ∅))))))))))))) in
  match extra_env with
  | Some env => <["extra_env" := env]> literal
  | None => literal
  end.

(** The runtime url that [invoke_with_keys] picks in a world, and the
    world after the pick. *)
Definition chosen_url `{Collaborators} (self : executor) (w : world) : pyval * world :=
  match self_runtime_urls self with
  | Some (PList (u :: urls)) =>
      (List.nth (random_at (random_draws w) mod length (u :: urls))%nat (u :: urls) PNone,
       draw w)
  | _ => (PStr "", w)
  end.

(** The entries of [extra_meta], in the order of [extra_meta.items()]. *)
Definition meta_items (extra_meta : option (list (string * pyval)))
  : list (string * pyval) :=
  match extra_meta with
  | Some meta => dict_items meta
  | None => []
  end.

(** The first entry of [extra_meta] whose key is a key of the record
    when the sanity check runs. *)
Definition first_collision (extra_env : option pyval)
    (extra_meta : option (list (string * pyval))) : option (string * pyval) :=
  List.find (fun kv => bool_decide (kv.1 ∈ fields_at_merge extra_env))
    (meta_items extra_meta).

(** The keys of [overwrite_invoke_args]. *)
Definition override_keys (overwrite_invoke_args : option pydict) : gset string :=
  match overwrite_invoke_args with
  | Some args => dom args
  | None => ∅
  end.

(** The calls that the tasks of the pool make: data uploads,
    invocations whose record satisfies [P], and reads of the backend
    configuration. *)
Definition pool_call (P : pydict -> Prop) (c : call) : Prop :=
  match c with
  | CInvoke a => P a
  | CPutData _ _ | CInvokerConfig => True
  | _ => False
  end.

(** [a] carries the entries of [fields], except under the keys that
    [overwrite_invoke_args] rebinds. *)
Definition keeps (overwrite_invoke_args : option pydict) (fields a : pydict) : Prop :=
  forall k v, fields !! k = Some v ->
    override_of overwrite_invoke_args k = None -> a !! k = Some v.

(** The fields of the record of call [i] of a callset that do not
    depend on the data: the keys of the function, of the output, of the
    status and of the cancellation, the ids, and the settings of the
    executor. *)
Definition call_fields `{Collaborators} (self : executor) (callset_id func_key : string)
    (use_cached_runtime : bool) (i : nat) : pydict :=
  let '(_, output_key, status_key, cancel_key) :=
    create_keys (self_storage_prefix self) callset_id (format_05d i) in
  <["pywren_version" := PStr pywren_version]> (
  <["runtime" := self_config_runtime self]> (
  <["use_cached_runtime" := PBool use_cached_runtime]> (
  <["call_id" := PStr (format_05d i)]> (
  <["job_max_runtime" := self_job_max_runtime self]> (
  <["callset_id" := PStr callset_id]> (
  <["cancel_key" := PStr cancel_key]> (
  <["status_key" := PStr status_key]> (
  <["output_key" := PStr output_key]> (
  <["func_key" := PStr func_key]> (
  <["storage_config" := self_storage_config self]> ∅)))))))))).

(** The function key that [map] hands to the calls. *)
Definition func_key_of `{Collaborators} (self : executor) (callset_id : string)
    (module_dependencies_key : option string) : string :=
  match module_dependencies_key with
  | None => create_func_key (self_storage_prefix self) callset_id
  | Some key => create_mod_key (self_storage_prefix self) key
  end.

(** The module paths that go into the function package. *)
Definition packaged_paths `{Collaborators} (func : pyobj) (data : list pyobj)
    (exclude_modules : option (list string)) : gset string :=
  Executor.remove_excluded (default [] exclude_modules) (module_paths (func :: data)).

(** The function package: the serialized function and the data of its
    modules. *)
Definition func_module_str_of `{Collaborators} (func : pyobj) (paths : gset string)
  : bytes :=
  pickle_dumps (PDict [("func", PBytes (dumps func)); ("module_data", mod_data_of paths)]).

(** What [map] does before it starts the pool, when it gets that far. *)
Definition packaging_calls `{Collaborators} (self : executor) (func : pyobj)
    (data : list pyobj) (data_all_as_one : bool) (exclude_modules : option (list string))
    (module_dependencies_key : option string) (callset_id : string) : list call :=
  CSerialize (func :: data)
    (match module_dependencies_key with Some _ => true | None => false end)
  :: (if aggregates data data_all_as_one
      then [CPutData (create_agg_data_key (self_storage_prefix self) callset_id)
              (concat (dumps <$> data))]
      else [])
  ++ match module_dependencies_key with
     | None =>
         [CCreateModData (packaged_paths func data exclude_modules);
          CPutFunc (create_func_key (self_storage_prefix self) callset_id)
            (func_module_str_of func (packaged_paths func data exclude_modules))]
     | Some _ => []
     end.

(** The calls that gather or store a function package. *)
Definition is_package_call (c : call) : bool :=
  match c with
  | CCreateModData _ | CPutFunc _ _ | CPutModuleDependencies _ _ => true
  | _ => false
  end.

(** The keys of the host job metadata that a call writes itself. *)
Definition call_timing_keys : list string :=
  ["job_invoke_timestamp"; "data_upload_time"; "data_upload_timestamp";
   "lambda_invoke_timestamp"; "lambda_invoke_time"; "host_submit_time"].

(** Nothing on the way from the host job metadata to the future writes
    under [k]: neither the call, nor the record, nor the caller's
    metadata and overrides, nor the backend configuration. *)
Definition untouched `{Collaborators} (extra_env : option pyval)
    (extra_meta : option (list (string * pyval)))
    (overwrite_invoke_args : option pydict) (k : string) : Prop :=
  (k ∉ call_timing_keys)
  /\ (k ∉ fields_at_merge extra_env)
  /\ (k ∉ (meta_items extra_meta).*1)
  /\ override_of overwrite_invoke_args k = None
  /\ invoker_config !! k = None.

(** The answers that the handler gives to a request. *)
Definition answered `{Collaborators} {X} (ev : event X) (x : X) : Prop :=
  exists w, x = (handle ev w).1.

(** [results R p]: with the answers of the handler, [p] only returns
    results that satisfy [R]. *)
Fixpoint results `{Collaborators} {A} (R : A -> Prop) (p : prog A) : Prop :=
  match p with
  | Ret a => R a
  | Throw _ | Block => True
  | Vis ev k => forall x, answered ev x -> results R (k x)
  end.

(** A concrete configuration and a concrete log stream, used to run
    the constructor and the log reader on examples. *)
Module DemoInstance.

#[global] Instance setup : Setup := {|
  extract_storage_config := fun config => default PNone (config !! "storage");
  storage_prefix := fun _ => "pywren.jobs";
  get_runtime_info := fun runtime =>
    {["preinstalls" := PList [PList [PStr "numpy"; PBool true]];
      "runtime_version" := PStr "3.6"]}
|}.

Definition line (t : Z) (m : string) : log_event := {| timestamp := t; message := m |}.

Definition stream : list log_event :=
  [line 1 "START RequestId: 7d1f Version: $LATEST";
   line 2 "REPORT RequestId: 7d1f Duration: 3 ms";
   line 3 "  START RequestId: 42ab Version: $LATEST ";
   line 4 "hello from the job";
   line 5 "END RequestId: 42ab";
   line 6 "REPORT RequestId: 42ab Duration: 12 ms";
   line 7 "START RequestId: 9c0e Version: $LATEST"].

(** The stream [open] ends before the report of request 42ab, and the
    stream [late] starts after its opening line. *)
#[global] Instance logs : Logs := {|
  get_log_events := fun region group name =>
    match name with
    | PStr "open" => take 5 stream
    | PStr "late" => drop 3 stream
    | _ => stream
    end;
  str_of := fun value =>
    match value with
    | PNone => "None"
    | PBool true => "True"
    | PBool false => "False"
    | _ => "<value>"
    end
|}.

Definition config (limit : option Z) : pydict :=
  let base : pydict :=
    {["runtime" := PDict [("s3_bucket", PStr "runtimes")];
      "account" := PDict [("aws_region", PStr "us-west-2")];
      "storage" := PDict [("storage_backend", PStr "s3")]]} in
  match limit with
  | Some l => <["scheduler" := PDict [("map_item_limit", PInt l)]]> base
  | None => base
  end.

Definition self : attributes := {|
  attr_invoker := PObj 0;
  attr_job_max_runtime := PInt 300;
  attr_config := config None;
  attr_storage_config := PDict [("storage_backend", PStr "s3")];
  attr_storage_prefix := "pywren.jobs";
  attr_runtime_meta_info :=
    {["preinstalls" := PList (PList [PStr "numpy"; PBool true] :: added_preinstalls);
      "runtime_version" := PStr "3.6"]};
  attr_serializer :=
    Some (PList (PList [PStr "numpy"; PBool true] :: added_preinstalls));
  attr_map_item_limit := PNone
|}.

(** The events of the stream [name] of the log group of the setting. *)
Definition events (name : string) : list log_event :=
  get_log_events (PStr "us-west-2") (PStr "/aws/lambda/pywren_1") (PStr name).

Definition run_status (name aws_request_id : string) : pyval :=
  PDict [("log_group_name", PStr "/aws/lambda/pywren_1");
         ("log_stream_name", PStr name);
         ("aws_request_id", PStr aws_request_id)].

End DemoInstance.

(** * Properties *)

(** ** Aggregation *)

Lemma agg_fold (data_strs : list bytes) :
  forall ranges pos,
    fst (fold_left agg_step data_strs (ranges, pos))
    = ranges ++ ranges_from pos data_strs.
Proof.
  induction data_strs as [|datum rest IH]; intros ranges pos; simpl.
  - by rewrite app_nil_r.
  - rewrite IH, <- app_assoc. reflexivity.
Qed.

Lemma agg_data_eq (data_strs : list bytes) :
  agg_data data_strs = (concat data_strs, ranges_from 0 data_strs).
Proof.
  unfold agg_data.
  pose proof (agg_fold data_strs [] 0) as Hf.
  destruct (fold_left agg_step data_strs ([], 0)) as [ranges pos].
  simpl in Hf. by rewrite Hf.
Qed.

Lemma ranges_from_length (data_strs : list bytes) :
  forall pos, length (ranges_from pos data_strs) = length data_strs.
Proof. induction data_strs; intros; simpl; [done | by rewrite IHdata_strs]. Qed.

Lemma offset_0 (data_strs : list bytes) : offset data_strs 0 = 0.
Proof. reflexivity. Qed.

Lemma offset_cons (datum : bytes) (rest : list bytes) (i : nat) :
  offset (datum :: rest) (S i) = Z.of_nat (length datum) + offset rest i.
Proof. unfold offset. simpl. rewrite length_app. lia. Qed.

Lemma offset_S (data_strs : list bytes) (i : nat) (p : bytes) :
  data_strs !! i = Some p ->
  offset data_strs (S i) = offset data_strs i + Z.of_nat (length p).
Proof.
  revert i. induction data_strs as [|d rest IH]; intros [|i] Hi; simplify_eq/=.
  - rewrite offset_cons, !offset_0. lia.
  - rewrite !offset_cons. rewrite (IH i Hi). lia.
Qed.

Lemma offset_mono (data_strs : list bytes) (i j : nat) :
  (i <= j)%nat -> offset data_strs i <= offset data_strs j.
Proof.
  unfold offset. intros Hij.
  assert (take j data_strs = take i data_strs ++ drop i (take j data_strs)) as ->.
  { rewrite <- (take_drop i (take j data_strs)) at 1.
    rewrite take_take. do 2 f_equal. lia. }
  rewrite concat_app, length_app. lia.
Qed.

Lemma offset_total (data_strs : list bytes) :
  offset data_strs (length data_strs) = Z.of_nat (length (concat data_strs)).
Proof. unfold offset. by rewrite firstn_all. Qed.

Lemma ranges_from_lookup (data_strs : list bytes) :
  forall pos i,
    ranges_from pos data_strs !! i
    = (fun p : bytes => (pos + offset data_strs i,
                         pos + offset data_strs i + Z.of_nat (length p) - 1))
        <$> data_strs !! i.
Proof.
  induction data_strs as [|d rest IH]; intros pos [|i]; simpl; try done.
  - rewrite offset_0. do 3 f_equal; lia.
  - rewrite IH, offset_cons. destruct (rest !! i); simpl; [|done].
    do 2 f_equal; lia.
Qed.

Lemma concat_middle (data_strs : list bytes) (i : nat) (p : bytes) :
  data_strs !! i = Some p ->
  concat data_strs
  = concat (take i data_strs) ++ p ++ concat (drop (S i) data_strs).
Proof.
  intros Hi. rewrite <- (take_drop_middle data_strs i p Hi) at 1.
  by rewrite concat_app.
Qed.

Lemma slice_payload (data_strs : list bytes) (i : nat) (p : bytes) :
  data_strs !! i = Some p ->
  py_slice (concat data_strs) (offset data_strs i)
    (offset data_strs i + Z.of_nat (length p)) = p.
Proof.
  intros Hi. unfold offset.
  rewrite (concat_middle _ _ _ Hi).
  set (pre := concat (take i data_strs)).
  set (post := concat (drop (S i) data_strs)).
  unfold py_slice, slice_bound. rewrite !length_app.
  rewrite !(proj2 (Z.ltb_ge _ 0)) by lia.
  rewrite !Z.min_l by lia.
  replace (Z.of_nat (length pre) + Z.of_nat (length p) - Z.of_nat (length pre))
    with (Z.of_nat (length p)) by lia.
  rewrite !Nat2Z.id, drop_app_length.
  by rewrite take_app_length.
Qed.

(** C2.  For every ordered list of byte payloads, [agg_data] returns the
    concatenation of the payloads and one range per payload, in
    submission order; slicing the blob by range [i], end included, gives
    payload [i] back; the first range starts at 0, every range starts
    right after the previous one ends, the last one ends with the blob,
    and a range ends before any later range starts. *)
Theorem agg_data_round_trip (payloads : list bytes) :
  length (agg_data payloads).2 = length payloads
  /\ (forall i p, payloads !! i = Some p ->
        exists lo hi, (agg_data payloads).2 !! i = Some (lo, hi)
                      /\ py_slice (agg_data payloads).1 lo (hi + 1) = p)
  /\ (forall lo hi, (agg_data payloads).2 !! 0%nat = Some (lo, hi) -> lo = 0)
  /\ (forall i lo hi lo' hi',
        (agg_data payloads).2 !! i = Some (lo, hi) ->
        (agg_data payloads).2 !! S i = Some (lo', hi') -> lo' = hi + 1)
  /\ (forall lo hi, last (agg_data payloads).2 = Some (lo, hi) ->
        hi + 1 = Z.of_nat (length (agg_data payloads).1))
  /\ (forall i j lo hi lo' hi', (i < j)%nat ->
        (agg_data payloads).2 !! i = Some (lo, hi) ->
        (agg_data payloads).2 !! j = Some (lo', hi') ->
        0 <= lo <= hi + 1 /\ hi < lo').
Proof.
  rewrite agg_data_eq. simpl.
  assert (forall i lo hi, ranges_from 0 payloads !! i = Some (lo, hi) ->
            exists p, payloads !! i = Some p /\ lo = offset payloads i
                      /\ hi = offset payloads i + Z.of_nat (length p) - 1) as Hinv.
  { intros i lo hi. rewrite ranges_from_lookup.
    destruct (payloads !! i) as [p|]; simpl; [|done].
    intros [= <- <-]. exists p. repeat split; lia. }
  repeat split.
  - apply ranges_from_length.
  - intros i p Hi. rewrite ranges_from_lookup, Hi. simpl.
    eexists _, _. split; [reflexivity|].
    etrans; [|apply (slice_payload _ _ _ Hi)]. f_equal; lia.
  - intros lo hi Hr. apply Hinv in Hr as (p & _ & -> & _). apply offset_0.
  - intros i lo hi lo' hi' Hr Hr'.
    apply Hinv in Hr as (p & Hp & -> & ->).
    apply Hinv in Hr' as (p' & _ & -> & _).
    rewrite (offset_S _ _ _ Hp). lia.
  - intros lo hi Hl. rewrite last_lookup, ranges_from_length in Hl.
    apply Hinv in Hl as (p & Hp & -> & ->).
    pose proof (offset_S _ _ _ Hp) as HS.
    assert (S (Nat.pred (length payloads)) = length payloads) as Hlen
      by (apply lookup_lt_Some in Hp; lia).
    rewrite Hlen, offset_total in HS. lia.
  - apply Hinv in H0 as (p & _ & -> & _). unfold offset. lia.
  - apply Hinv in H0 as (p & _ & -> & ->). lia.
  - apply Hinv in H0 as (p & Hp & _ & ->).
    apply Hinv in H1 as (p' & _ & -> & _).
    pose proof (offset_S _ _ _ Hp).
    pose proof (offset_mono payloads (S i) j ltac:(lia)). lia.
Qed.

Example agg_data_ex :
  agg_data [[x01; x02]; []; [x03]] = ([x01; x02; x03], [(0, 1); (2, 1); (2, 2)]).
Proof. reflexivity. Qed.

Example agg_data_slice_ex :
  py_slice [x01; x02; x03] 2 (1 + 1) = @nil Byte.byte
  /\ py_slice [x01; x02; x03] 0 (1 + 1) = [x01; x02].
Proof. split; reflexivity. Qed.

(** ** Call ids *)

Section Decimal.
Local Open Scope nat_scope.

Lemma digit_val_char (d : nat) : d < 10 -> digit_val (digit_char d) = d.
Proof.
  intros Hd. unfold digit_val, digit_char.
  rewrite nat_ascii_embedding by lia. lia.
Qed.

Lemma append_cons (c : ascii) (s t : string) :
  (String c s ++ t)%string = String c (s ++ t).
Proof. reflexivity. Qed.

Lemma append_nil_l (t : string) : ("" ++ t)%string = t.
Proof. reflexivity. Qed.

Lemma append_nil_r (s : string) : (s ++ "")%string = s.
Proof. induction s; [done|]. by rewrite append_cons, IHs. Qed.

Lemma dec_value_from_app (s t : string) :
  forall a, dec_value_from a (s ++ t)%string = dec_value_from (dec_value_from a s) t.
Proof.
  induction s as [|c s IH]; intros a; [done|].
  rewrite append_cons. simpl. apply IH.
Qed.

Lemma dec_value_from_pow (s : string) :
  forall a, dec_value_from a s = a * 10 ^ String.length s + dec_value s.
Proof.
  unfold dec_value.
  induction s as [|c s IH]; intros a; cbn [dec_value_from String.length Nat.pow].
  - lia.
  - rewrite (IH (10 * a + digit_val c)), (IH (10 * 0 + digit_val c)). lia.
Qed.

Lemma dec_value_snoc (s : string) (d : nat) :
  d < 10 ->
  dec_value (s ++ String (digit_char d) "")%string = 10 * dec_value s + d.
Proof.
  intros Hd. unfold dec_value. rewrite dec_value_from_app. simpl.
  by rewrite digit_val_char.
Qed.

Lemma all_digits_app (s t : string) :
  all_digits s -> all_digits t -> all_digits (s ++ t)%string.
Proof.
  induction s; [done|]. rewrite append_cons. simpl. intuition.
Qed.

Lemma length_app_string (s t : string) :
  String.length (s ++ t)%string = String.length s + String.length t.
Proof. induction s; [done|]. rewrite append_cons. simpl. by rewrite IHs. Qed.

Lemma app_assoc_string (s t u : string) :
  ((s ++ t) ++ u)%string = (s ++ (t ++ u))%string.
Proof. induction s; [done|]. by rewrite !append_cons, IHs. Qed.

Lemma dec_value_bound (s : string) :
  all_digits s -> dec_value s < 10 ^ String.length s.
Proof.
  induction s as [|c s IH]; simpl.
  - intros _. unfold dec_value. simpl. lia.
  - intros [(d & Hd & ->) Hs]. specialize (IH Hs).
    unfold dec_value in *. simpl.
    rewrite dec_value_from_pow, digit_val_char by done.
    unfold dec_value. nia.
Qed.

(** What [dec_digits] pushes in front of the accumulator. *)
Lemma dec_digits_spec (fuel : nat) :
  forall n acc, n < fuel ->
    exists s, dec_digits fuel n acc = (s ++ acc)%string
              /\ all_digits s /\ dec_value s = n
              /\ 1 <= String.length s
              /\ (String.length s = 1 \/ 10 ^ (String.length s - 1) <= n).
Proof.
  induction fuel as [|fuel IH]; intros n acc Hn; [lia|].
  cbn [dec_digits]. pose proof (Nat.mod_upper_bound n 10 ltac:(lia)) as Hm.
  pose proof (Nat.div_mod_eq n 10) as Hdm.
  set (d := n mod 10) in *. set (q := n / 10) in *.
  destruct (q =? 0) eqn:Hq.
  - apply Nat.eqb_eq in Hq.
    exists (String (digit_char d) ""). repeat split.
    + by exists d.
    + unfold dec_value. cbn [dec_value_from]. rewrite digit_val_char by done. lia.
    + cbn [String.length]. lia.
    + by left.
  - apply Nat.eqb_neq in Hq.
    destruct (IH q (String (digit_char d) acc) ltac:(lia))
      as (s & Hs & Hall & Hval & Hlen & Hlow).
    exists (s ++ String (digit_char d) "")%string. repeat split.
    + rewrite Hs, app_assoc_string. reflexivity.
    + apply all_digits_app; [done|]. split; [by exists d | done].
    + rewrite dec_value_snoc by done. lia.
    + rewrite length_app_string. cbn [String.length]. lia.
    + right. rewrite length_app_string. cbn [String.length].
      replace (String.length s + 1 - 1) with (S (String.length s - 1)) by lia.
      rewrite Nat.pow_succ_r'. destruct Hlow as [Hl|Hl].
      * rewrite Hl. cbn [Nat.sub Nat.pow]. lia.
      * lia.
Qed.

Lemma str_of_nat_spec (n : nat) :
  all_digits (str_of_nat n) /\ dec_value (str_of_nat n) = n
  /\ 1 <= String.length (str_of_nat n)
  /\ n < 10 ^ String.length (str_of_nat n)
  /\ (String.length (str_of_nat n) = 1
      \/ 10 ^ (String.length (str_of_nat n) - 1) <= n).
Proof.
  unfold str_of_nat.
  destruct (dec_digits_spec (S n) n "" ltac:(lia)) as (s & -> & Hall & Hval & Hlen & Hlow).
  rewrite append_nil_r.
  repeat split; try done.
  rewrite <- Hval at 1. by apply dec_value_bound.
Qed.

Lemma zeros_length (k : nat) : String.length (zeros k) = k.
Proof. induction k; simpl; congruence. Qed.

Lemma zeros_digits (k : nat) : all_digits (zeros k).
Proof.
  induction k; simpl; [done|].
  split; [exists 0; split; [lia | reflexivity] | done].
Qed.

Lemma zeros_value (k : nat) : forall a, dec_value_from a (zeros k) = a * 10 ^ k.
Proof.
  induction k as [|k IH]; intros a; simpl; [lia|].
  rewrite IH. change (digit_val "0") with 0. lia.
Qed.

Lemma format_05d_digits (i : nat) : all_digits (format_05d i).
Proof.
  apply all_digits_app; [apply zeros_digits | apply str_of_nat_spec].
Qed.

Lemma format_05d_value (i : nat) : dec_value (format_05d i) = i.
Proof.
  unfold format_05d, zero_pad, dec_value.
  rewrite dec_value_from_app, zeros_value. simpl. apply str_of_nat_spec.
Qed.

Lemma format_05d_length (i : nat) :
  String.length (format_05d i) = Nat.max 5 (String.length (str_of_nat i)).
Proof.
  unfold format_05d, zero_pad. rewrite length_app_string, zeros_length. lia.
Qed.

Lemma str_of_nat_short (i : nat) :
  i < 10 ^ 5 -> String.length (str_of_nat i) <= 5.
Proof.
  intros Hi. destruct (str_of_nat_spec i) as (_ & _ & _ & _ & [Hl|Hl]); [lia|].
  destruct (Nat.le_gt_cases (String.length (str_of_nat i)) 5) as [|Hgt]; [done|].
  assert (10 ^ 5 <= 10 ^ (String.length (str_of_nat i) - 1))
    by (apply Nat.pow_le_mono_r; lia).
  lia.
Qed.

Lemma str_of_nat_long (i : nat) :
  10 ^ 5 <= i -> 6 <= String.length (str_of_nat i).
Proof.
  intros Hi. destruct (str_of_nat_spec i) as (_ & _ & _ & Hup & _).
  destruct (Nat.le_gt_cases 6 (String.length (str_of_nat i))) as [|Hlt]; [done|].
  assert (10 ^ String.length (str_of_nat i) <= 10 ^ 5)
    by (apply Nat.pow_le_mono_r; lia).
  lia.
Qed.

Lemma digit_compare (a b : nat) :
  a < 10 -> b < 10 -> Ascii.compare (digit_char a) (digit_char b) = Nat.compare a b.
Proof.
  intros Ha Hb.
  do 10 (destruct a as [|a]; [do 10 (destruct b as [|b]; [reflexivity|]); lia|]).
  lia.
Qed.

(** On digit strings of the same length, the order of strings is the
    order of the numbers they denote. *)
Lemma digits_compare (s : string) :
  forall t, all_digits s -> all_digits t -> String.length s = String.length t ->
    String.compare s t = Nat.compare (dec_value s) (dec_value t).
Proof.
  induction s as [|c s IH]; intros [|c' t]; simpl; try done.
  intros [(d & Hd & ->) Hs] [(d' & Hd' & ->) Ht] [= Hlen].
  rewrite digit_compare by done.
  pose proof (dec_value_bound s Hs) as Hbs.
  pose proof (dec_value_bound t Ht) as Hbt.
  unfold dec_value at 1 2. simpl.
  rewrite !dec_value_from_pow, !digit_val_char by done.
  rewrite <- Hlen in *. set (p := 10 ^ String.length s) in *.
  destruct (Nat.compare_spec d d') as [->|Hlt|Hgt].
  - rewrite (IH t Hs Ht Hlen).
    destruct (Nat.compare_spec (dec_value s) (dec_value t)) as [->|?|?];
      symmetry.
    + apply Nat.compare_refl.
    + apply Nat.compare_lt_iff. lia.
    + apply Nat.compare_gt_iff. lia.
  - symmetry. apply Nat.compare_lt_iff. nia.
  - symmetry. apply Nat.compare_gt_iff. nia.
Qed.

End Decimal.

(** ** Programs, runs and pools *)

Section Basics.
Context `{Collaborators}.

Lemma handle_trace {X} (ev : event X) (w : world) :
  trace (handle ev w).2 = trace w ++ emitted ev.
Proof. destruct ev; simpl; by rewrite ?app_nil_r. Qed.

Lemma run_bind {A B} (p : prog A) (f : A -> prog B) :
  forall w, run (bind p f) w
            = match run p w with
              | (Returned a, w') => run (f a) w'
              | (Raised e, w') => (Raised e, w')
              | (Blocked, w') => (Blocked, w')
              end.
Proof.
  induction p as [a|e| |X ev k IH]; intros w; simpl; try done.
  destruct (handle ev w) as [x w']. apply IH.
Qed.

Lemma sat_bind {A B} (E : call -> Prop) (R1 : A -> Prop) (R : B -> Prop)
    (F : exn -> Prop) (p : prog A) (f : A -> prog B) :
  sat E R1 F p -> (forall a, R1 a -> sat E R F (f a)) -> sat E R F (bind p f).
Proof.
  intros Hp Hf. induction Hp as [a Ha|e He|X ev k Hev _ IH]; simpl.
  - by apply Hf.
  - by constructor.
  - constructor; [done|]. intros x. apply IH.
Qed.

Lemma sat_weaken {A} (E E' : call -> Prop) (R R' : A -> Prop)
    (F F' : exn -> Prop) (p : prog A) :
  (forall c, E c -> E' c) -> (forall a, R a -> R' a) -> (forall e, F e -> F' e) ->
  sat E R F p -> sat E' R' F' p.
Proof.
  intros HE HR HF Hp. induction Hp as [a Ha|e He|X ev k Hev _ IH].
  - constructor. by apply HR.
  - constructor. by apply HF.
  - constructor; [|done]. eapply Forall_impl; [exact Hev | exact HE].
Qed.

(** A program that satisfies [sat] keeps its promises when it runs. *)
Lemma run_sat {A} (E : call -> Prop) (R : A -> Prop) (F : exn -> Prop)
    (p : prog A) :
  sat E R F p ->
  forall w, exists new,
    trace (run p w).2 = trace w ++ new /\ Forall E new
    /\ match (run p w).1 with
       | Returned a => R a
       | Raised e => F e
       | Blocked => False
       end.
Proof.
  intros Hp. induction Hp as [a Ha|e He|X ev k Hev _ IH]; intros w; simpl.
  - exists []. by rewrite app_nil_r.
  - exists []. by rewrite app_nil_r.
  - pose proof (handle_trace ev w) as Ht.
    destruct (handle ev w) as [x w']. simpl in Ht.
    destruct (IH x w') as (new & Hnew & HE & Hres).
    exists (emitted ev ++ new). rewrite Hnew, Ht, <- app_assoc.
    split; [done|]. split; [|done]. by apply Forall_app.
Qed.

(** *** Invariants of the pool

    [I i tr p] relates the rest [p] of task [i] to the trace [tr]; [G] is
    a property of the trace.  Both survive every step of every
    schedule. *)
Section PoolInvariant.
Context {A : Type}.
Variable I : nat -> list call -> prog A -> Prop.
Variable G : list call -> Prop.
Hypothesis I_mono : forall i tr cs p, I i tr p -> I i (tr ++ cs) p.
Hypothesis I_step : forall i tr X (ev : event X) k x,
  I i tr (Vis ev k) -> I i (tr ++ emitted ev) (k x).
Hypothesis G_step : forall i tr X (ev : event X) (k : X -> prog A),
  G tr -> I i tr (Vis ev k) -> G (tr ++ emitted ev).

Definition pool_inv (pool : list (task A)) (w : world) : Prop :=
  (forall i (t : task A), pool !! i = Some t -> I i (trace w) (body t))
  /\ G (trace w).

Lemma step_pool_inv (threads : Z) (pool : list (task A)) (i : nat) (w : world) :
  pool_inv pool w ->
  pool_inv (step_pool threads pool i w).1 (step_pool threads pool i w).2
  /\ length (step_pool threads pool i w).1 = length pool.
Proof.
  intros [HI HG]. unfold step_pool.
  destruct (may_step threads pool i); [|by repeat split].
  destruct (pool !! i) as [t|] eqn:Hi; [|by repeat split].
  unfold step_task. destruct (body t) as [a|e| |X ev k] eqn:Hb; simpl.
  1-3: split; [|by rewrite length_insert]; split; [|done];
       intros j t' Hj; destruct (decide (i = j)) as [<-|Hne];
       [ rewrite list_lookup_insert_eq in Hj by (by eapply lookup_lt_Some);
         injection Hj as <-; simpl; rewrite <- Hb; by apply HI
       | rewrite list_lookup_insert_ne in Hj by done; by apply HI ].
  pose proof (handle_trace ev w) as Ht.
  destruct (handle ev w) as [x w']. simpl in *.
  pose proof (HI i t Hi) as Hti. rewrite Hb in Hti.
  split; [|by rewrite length_insert]. split.
  - intros j t' Hj. rewrite Ht. destruct (decide (i = j)) as [<-|Hne].
    + rewrite list_lookup_insert_eq in Hj by (by eapply lookup_lt_Some).
      injection Hj as <-. simpl. by apply I_step.
    + rewrite list_lookup_insert_ne in Hj by done. apply I_mono. by apply HI.
  - rewrite Ht. by eapply G_step.
Qed.

Lemma run_pool_inv (threads : Z) (schedule : list nat) :
  forall (pool : list (task A)) (w : world),
    pool_inv pool w ->
    pool_inv (run_pool threads schedule pool w).1 (run_pool threads schedule pool w).2
    /\ length (run_pool threads schedule pool w).1 = length pool.
Proof.
  induction schedule as [|i rest IH]; intros pool w Hinv; simpl; [done|].
  destruct (step_pool_inv threads pool i w Hinv) as [Hinv' Hlen].
  destruct (step_pool threads pool i w) as [pool' w']. simpl in *.
  destruct (IH pool' w' Hinv') as [Hinv'' Hlen'].
  split; [done | congruence].
Qed.

End PoolInvariant.

(** What [collect] returns was returned by the tasks, slot by slot. *)
Lemma collect_returned {A} (pool : list (task A)) :
  forall l, collect pool = Returned l ->
    length l = length pool
    /\ forall i a, l !! i = Some a ->
         exists t : task A, pool !! i = Some t /\ body t = Ret a.
Proof.
  induction pool as [|t rest IH]; intros l; simpl.
  - intros [= <-]. split; [done|]. intros i a Hi. by rewrite lookup_nil in Hi.
  - destruct (body t) as [a|e| |X ev k] eqn:Hb; try done.
    destruct (collect rest) as [l'| |] eqn:Hc; try done.
    intros [= <-]. destruct (IH l' eq_refl) as [Hlen Hall].
    split; [simpl; congruence|].
    intros [|i] a' Hi; simpl in *.
    + injection Hi as <-. by exists t.
    + by apply Hall.
Qed.

(** What [collect] raises was raised by a task. *)
Lemma collect_raised {A} (pool : list (task A)) :
  forall e, collect pool = Raised e ->
    exists i (t : task A), pool !! i = Some t /\ body t = Throw e.
Proof.
  induction pool as [|t rest IH]; intros e; simpl; [done|].
  destruct (body t) as [a|e'| |X ev k] eqn:Hb; try done.
  - destruct (collect rest) as [l'|e'|] eqn:Hc; try done.
    intros [= <-]. destruct (IH e' eq_refl) as (i & t' & Hi & Ht').
    by exists (S i), t'.
  - intros [= <-]. by exists 0%nat, t.
Qed.

End Basics.

(** ** One call *)

Section Calls.
Context `{Collaborators}.
Variable self : executor.

Ltac sat_go :=
  repeat first
    [ apply sat_ret
    | apply sat_throw
    | apply sat_vis; [cbn [emitted]; repeat constructor | intros ?]
    | progress cbn [mbind prog_bind bind trigger time Executor.put_data] ].

Lemma merge_extra_meta_sat (E : call -> Prop) (items : list (string * pyval)) :
  forall arg_dict,
    sat E (fun d => arg_dict ⊆ d) key_collision
      (Executor.merge_extra_meta items arg_dict).
Proof.
  induction items as [|[k v] rest IH]; intros arg_dict; simpl.
  - by constructor.
  - destruct (arg_dict !! k) eqn:Hk.
    + constructor. by exists k.
    + eapply sat_weaken; [done| |done|apply IH].
      intros d Hd. etrans; [|exact Hd]. by apply insert_subseteq.
Qed.

Lemma invoke_with_keys_sat func_key data_key output_key status_key cancel_key
    callset_id call_id extra_env extra_meta data_byte_range use_cached_runtime
    host_job_meta job_max_runtime overwrite_invoke_args :
  sat (invokes_with (carries overwrite_invoke_args data_key data_byte_range call_id))
      (future_of callset_id call_id) key_collision
      (Executor.invoke_with_keys self func_key data_key output_key status_key
         cancel_key callset_id call_id extra_env extra_meta data_byte_range
         use_cached_runtime host_job_meta job_max_runtime overwrite_invoke_args).
Proof.
  unfold Executor.invoke_with_keys.
  eapply (sat_bind _ (fun _ => True)).
  { destruct (self_runtime_urls self) as [[| | | | | | |[|u urls]| |]|]; sat_go; done. }
  intros runtime_url _.
  match goal with |- context [Executor.merge_extra_meta _ ?d] => set (base := d) end.
  assert (base !! "data_key" = Some (PStr data_key)
          /\ base !! "data_byte_range" = Some data_byte_range
          /\ base !! "call_id" = Some (PStr call_id)) as (Hdk & Hbr & Hci).
  { unfold base. destruct extra_env; repeat split; by simplify_map_eq. }
  eapply (sat_bind _ (fun d => base ⊆ d)).
  { destruct extra_meta; [apply merge_extra_meta_sat | by constructor]. }
  intros arg_dict Hsub. clearbody base.
  assert (forall t k v, k <> "host_submit_time" -> base !! k = Some v ->
            match overwrite_invoke_args with
            | Some args =>
                dict_update (<["host_submit_time" := PFloat t]> arg_dict) args
            | None => <["host_submit_time" := PFloat t]> arg_dict
            end !! k = Some (field_value overwrite_invoke_args k v)) as Hkeep.
  { intros t k v Hne Hk.
    assert ((<["host_submit_time" := PFloat t]> arg_dict) !! k = Some v) as Hin.
    { rewrite lookup_insert_ne by done. by eapply lookup_weaken. }
    unfold field_value.
    destruct overwrite_invoke_args as [args|]; cbn [override_of default]; [|done].
    unfold dict_update. destruct (args !! k) as [v'|] eqn:Hov; cbn [default].
    - by apply lookup_union_Some_l.
    - by rewrite lookup_union_r. }
  sat_go; try done.
  - exact (Hkeep _ "data_key" _ ltac:(done) Hdk).
  - exact (Hkeep _ "data_byte_range" _ ltac:(done) Hbr).
  - exact (Hkeep _ "call_id" _ ltac:(done) Hci).
Qed.

Lemma invoke_agg_sat extra_env extra_meta use_cached_runtime overwrite_invoke_args
    data_str callset_id call_id func_key host_job_meta agg_data_key data_byte_range :
  sat (invokes_with (carries overwrite_invoke_args agg_data_key data_byte_range call_id))
      (future_of callset_id call_id) key_collision
      (Executor.invoke self extra_env extra_meta use_cached_runtime
         overwrite_invoke_args data_str callset_id call_id func_key host_job_meta
         (Some agg_data_key) data_byte_range).
Proof.
  unfold Executor.invoke.
  destruct (create_keys _ _ _) as [[[data_key output_key] status_key] cancel_key].
  sat_go. apply invoke_with_keys_sat.
Qed.

Lemma invoke_own_uploads_first extra_env extra_meta use_cached_runtime
    overwrite_invoke_args data_str callset_id call_id func_key host_job_meta
    data_byte_range :
  uploads_first (data_key_of (self_storage_prefix self) callset_id call_id) data_str
    (invokes_with (carries overwrite_invoke_args
                     (data_key_of (self_storage_prefix self) callset_id call_id)
                     data_byte_range call_id))
    (Executor.invoke self extra_env extra_meta use_cached_runtime
       overwrite_invoke_args data_str callset_id call_id func_key host_job_meta
       None data_byte_range).
Proof.
  unfold Executor.invoke, data_key_of.
  destruct (create_keys _ _ _) as [[[data_key output_key] status_key] cancel_key].
  cbn [fst mbind prog_bind bind trigger time Executor.put_data].
  apply uf_quiet; [done|]. intros t0.
  apply uf_quiet; [done|]. intros t1.
  apply uf_upload. intros [].
  sat_go. eapply sat_weaken; [done| | |apply invoke_with_keys_sat]; done.
Qed.

Lemma invoke_future_sat extra_env extra_meta use_cached_runtime overwrite_invoke_args
    data_str callset_id call_id func_key host_job_meta agg_data_key data_byte_range :
  sat (fun _ => True) (future_of callset_id call_id) key_collision
      (Executor.invoke self extra_env extra_meta use_cached_runtime
         overwrite_invoke_args data_str callset_id call_id func_key host_job_meta
         agg_data_key data_byte_range).
Proof.
  unfold Executor.invoke.
  destruct (create_keys _ _ _) as [[[data_key output_key] status_key] cancel_key].
  destruct agg_data_key; sat_go;
    (eapply sat_weaken; [| | |apply invoke_with_keys_sat]; done).
Qed.

End Calls.

(** ** Packaging *)

Section Packaging.
Context `{Collaborators}.
Variable self : executor.

Ltac run_go :=
  cbn [run bind mbind prog_bind trigger time handle serializer fst snd
       Executor.local Executor.ThreadPool trace record tick fresh draw].

(** Everything [package] can do, by cases on the size of the pool, the
    dependency key and the excluded modules. *)
Lemma package_run func data invoke_pool_threads data_all_as_one exclude_modules
    module_dependencies_key (w : world) :
  let r := run (Executor.package self func data invoke_pool_threads data_all_as_one
                  exclude_modules module_dependencies_key) w in
  let cs := callset_id_at (callsets w) in
  let data_strs := dumps <$> data in
  let agg := aggregates data data_all_as_one in
  let agg_key := create_agg_data_key (self_storage_prefix self) cs in
  exists setup,
    trace r.2 = trace w ++ setup
    /\ Forall (fun c => is_invoke c = false) setup
    /\ (forall c, c ∈ setup -> is_put_data c = true ->
          agg = true /\ c = CPutData agg_key (concat data_strs))
    /\ match r.1 with
       | Returned j =>
           1 <= invoke_pool_threads
           /\ job_callset_id j = cs
           /\ job_data_strs j = data_strs
           /\ job_agg_data_key j = (if agg then Some agg_key else None)
           /\ job_agg_data_ranges j
              = (if agg then Some (agg_data data_strs).2 else None)
           /\ (agg = true -> CPutData agg_key (concat data_strs) ∈ setup)
           /\ (module_dependencies_key = None \/ exclude_modules = None
               \/ exclude_modules = Some [])
       | Raised e =>
           (invoke_pool_threads < 1 /\ setup = []
            /\ e = ValueError "Number of processes must be at least 1" [])
           \/ (1 <= invoke_pool_threads
               /\ e = UnboundLocalError "mod_paths"
               /\ (exists k m ms, module_dependencies_key = Some k
                                  /\ exclude_modules = Some (m :: ms))
               /\ Forall (fun c => is_put_func c = false) setup)
       | Blocked => False
       end.
Proof.
  unfold Executor.package, aggregates. cbn zeta.
  unfold Executor.ThreadPool. destruct (Z.ltb_spec invoke_pool_threads 1) as [Hlt|Hge].
  { exists []. cbn. rewrite app_nil_r.
    split; [done|]. split; [constructor|]. split.
    - intros c Hc. by apply elem_of_nil in Hc.
    - left. by repeat split. }
  destruct module_dependencies_key as [key|], exclude_modules as [[|m ms]|];
    run_go; cbn [fmap list_fmap];
    (destruct (_ && _) eqn:Hagg;
     [ rewrite agg_data_eq | ]);
    run_go; rewrite <- ?app_assoc;
    (eexists; split; [reflexivity|]);
    (split; [repeat constructor|]);
    (split; [intros c Hc Hp; set_unfold in Hc;
             repeat (destruct Hc as [->|Hc]; try discriminate Hp); try done
            |]).
  all: try (repeat split; try done; try (intros _; set_solver); by auto).
  all: try (right; repeat split; try done; [by eexists _, _, _ | repeat constructor]).
Qed.

End Packaging.

(** ** Submission *)

Section Submission.
Context `{Collaborators}.
Variable self : executor.
Variables (extra_env : option pyval) (extra_meta : option (list (string * pyval)))
  (use_cached_runtime : bool) (overwrite_invoke_args : option pydict).

Lemma submit_spec (j : job) (i : nat) (cb : prog ResponseFuture) :
  Executor.submit self extra_env extra_meta use_cached_runtime
    overwrite_invoke_args j i = inr cb ->
  exists data_str data_byte_range,
    job_data_strs j !! i = Some data_str
    /\ cb = Executor.invoke self extra_env extra_meta use_cached_runtime
              overwrite_invoke_args data_str (job_callset_id j) (format_05d i)
              (job_func_key j) (job_host_job_meta j) (job_agg_data_key j)
              data_byte_range
    /\ match job_agg_data_key j with
       | None => data_byte_range = PNone
       | Some _ =>
           exists ranges lo hi,
             job_agg_data_ranges j = Some ranges /\ ranges !! i = Some (lo, hi)
             /\ data_byte_range = PTuple [PInt lo; PInt hi]
       end.
Proof.
  unfold Executor.submit. intros Hs.
  destruct (job_agg_data_key j) as [agg_key|].
  - destruct (job_agg_data_ranges j) as [ranges|]; [|done].
    destruct (ranges !! i) as [[lo hi]|] eqn:Hr; [|done].
    destruct (job_data_strs j !! i) as [data_str|]; [|done].
    injection Hs as <-. eexists _, _. repeat split. by eexists _, _, _.
  - destruct (job_data_strs j !! i) as [data_str|]; [|done].
    injection Hs as <-. by eexists _, _.
Qed.

Lemma submit_all_spec (j : job) (indices : list nat) :
  forall call_result_objs,
    Executor.submit_all self extra_env extra_meta use_cached_runtime
      overwrite_invoke_args j indices = inr call_result_objs ->
    length call_result_objs = length indices
    /\ forall n cb, call_result_objs !! n = Some cb ->
         exists i, indices !! n = Some i
                   /\ Executor.submit self extra_env extra_meta use_cached_runtime
                        overwrite_invoke_args j i = inr cb.
Proof.
  induction indices as [|i rest IH]; intros cbs; simpl.
  - intros [= <-]. split; [done|]. intros n cb Hn. by rewrite lookup_nil in Hn.
  - destruct (Executor.submit _ _ _ _ _ j i) as [e|cb] eqn:Hs; [done|].
    destruct (Executor.submit_all _ _ _ _ _ j rest) as [e|cbs'] eqn:Hr; [done|].
    intros [= <-]. destruct (IH cbs' eq_refl) as [Hlen Hall].
    split; [simpl; congruence|].
    intros [|n] cb' Hn; simpl in *.
    + injection Hn as <-. by exists i.
    + by apply Hall.
Qed.

(** With the job that [package] returns, no submission fails. *)
Lemma submit_all_ok (j : job) (data_strs : list bytes) (agg : bool) (agg_key : string) :
  job_data_strs j = data_strs ->
  job_agg_data_key j = (if agg then Some agg_key else None) ->
  job_agg_data_ranges j = (if agg then Some (agg_data data_strs).2 else None) ->
  forall s n, (s + n <= length data_strs)%nat ->
    exists call_result_objs,
      Executor.submit_all self extra_env extra_meta use_cached_runtime
        overwrite_invoke_args j (seq s n) = inr call_result_objs.
Proof.
  intros Hd Hk Hr s n. revert s.
  induction n as [|n IH]; intros s Hle; simpl; [by eexists|].
  unfold Executor.submit. rewrite Hk, Hr, Hd.
  destruct (lookup_lt_is_Some_2 data_strs s ltac:(lia)) as [d Hds].
  rewrite Hds.
  destruct (IH (S s) ltac:(lia)) as [cbs Hcbs]. rewrite Hcbs.
  destruct agg; [|by eexists].
  rewrite agg_data_eq. cbn [snd]. rewrite ranges_from_lookup, Hds.
  by eexists.
Qed.

End Submission.

(** ** [map] *)

Section Map.
Context `{Collaborators}.
Variable self : executor.

Lemma sat_ret_inv {A} E (R : A -> Prop) F (a : A) : sat E R F (Ret a) -> R a.
Proof.
  intros Hs.
  exact (match Hs in sat _ _ _ p
               return match p with Ret a => R a | _ => True end with
         | sat_ret _ _ _ _ Ha => Ha
         | _ => I
         end).
Qed.

Lemma sat_throw_inv {A} E (R : A -> Prop) F (e : exn) : sat E R F (Throw e) -> F e.
Proof.
  intros Hs.
  exact (match Hs in sat _ _ _ p
               return match p with Throw e => F e | _ => True end with
         | sat_throw _ _ _ _ He => He
         | _ => I
         end).
Qed.

Lemma sat_vis_inv {A X} E (R : A -> Prop) F (ev : event X) (k : X -> prog A) :
  sat E R F (Vis ev k) -> Forall E (emitted ev) /\ forall x, sat E R F (k x).
Proof.
  intros Hs.
  exact (match Hs in sat _ _ _ p
               return match p with
                      | Vis ev k => Forall E (emitted ev) /\ forall x, sat E R F (k x)
                      | _ => True
                      end with
         | sat_vis _ _ _ _ _ _ Hev Hk => conj Hev Hk
         | _ => I
         end).
Qed.

Lemma sat_not_block {A} E (R : A -> Prop) F : ~ sat E R F (@Block A).
Proof.
  intros Hs.
  exact (match Hs in sat _ _ _ p
               return match p with Block => False | _ => True end with
         | sat_ret _ _ _ _ _ => I
         | sat_throw _ _ _ _ _ => I
         | sat_vis _ _ _ _ _ _ _ _ => I
         end).
Qed.

Lemma uploads_first_vis_inv {A X} key data E (ev : event X) (k : X -> prog A) :
  uploads_first key data E (Vis ev k) ->
  (emitted ev = [] /\ forall x, uploads_first key data E (k x))
  \/ (emitted ev = [CPutData key data]
      /\ forall x, sat E (fun _ => True) (fun _ => True) (k x)).
Proof.
  intros Hu.
  exact (match Hu in uploads_first _ _ _ p
               return match p with
                      | Vis ev k =>
                          (emitted ev = [] /\ forall x, uploads_first key data E (k x))
                          \/ (emitted ev = [CPutData key data]
                              /\ forall x, sat E (fun _ => True) (fun _ => True) (k x))
                      | _ => True
                      end with
         | uf_quiet _ _ _ _ _ _ Hq Hk => or_introl (conj Hq Hk)
         | uf_upload _ _ _ _ Hk => or_intror (conj eq_refl Hk)
         | _ => I
         end).
Qed.

(** The phases of a call of [map] on a non-empty list within the limit:
    packaging, then the pool, then the collection of the results. *)
Lemma map_phases func d ds extra_env extra_meta invoke_pool_threads
    data_all_as_one use_cached_runtime overwrite_invoke_args exclude_modules
    module_dependencies_key schedule (w : world) :
  Executor.exceeds (length (d :: ds)) (self_map_item_limit self) = false ->
  let r := Executor.map self func (d :: ds) extra_env extra_meta
             invoke_pool_threads data_all_as_one use_cached_runtime
             overwrite_invoke_args exclude_modules module_dependencies_key
             schedule w in
  let p := run (Executor.package self func (d :: ds) invoke_pool_threads
                  data_all_as_one exclude_modules module_dependencies_key) w in
  match p.1 with
  | Returned j =>
      exists call_result_objs,
        Executor.submit_all self extra_env extra_meta use_cached_runtime
          overwrite_invoke_args j (seq 0 (length (d :: ds))) = inr call_result_objs
        /\ r = (collect (run_pool invoke_pool_threads schedule
                           (queued <$> call_result_objs) p.2).1,
                (run_pool invoke_pool_threads schedule
                   (queued <$> call_result_objs) p.2).2)
  | Raised e => r = (Raised e, p.2)
  | Blocked => r = (Blocked, p.2)
  end.
Proof.
  intros Hlim. cbn zeta. unfold Executor.map. rewrite Hlim.
  pose proof (package_run self func (d :: ds) invoke_pool_threads data_all_as_one
                exclude_modules module_dependencies_key w) as Hp.
  cbn zeta in Hp. destruct Hp as (setup & _ & _ & _ & Hp).
  destruct (run _ w) as [[j|e|] w1]; cbn [fst snd] in *; [|done|done].
  destruct Hp as (_ & _ & Hd & Hk & Hr & _).
  destruct (submit_all_ok self extra_env extra_meta use_cached_runtime
              overwrite_invoke_args j _ _ _ Hd Hk Hr 0%nat (length (d :: ds)))
    as [cbs Hcbs].
  { rewrite length_fmap. simpl. lia. }
  exists cbs. split; [done|]. rewrite Hcbs.
  by destruct (run_pool _ _ _ _).
Qed.

(** The futures that come out of the pool are those of the calls, slot
    by slot, whatever the schedule. *)
Lemma pool_futures extra_env extra_meta use_cached_runtime overwrite_invoke_args
    (j : job) (n : nat) call_result_objs invoke_pool_threads schedule (w : world) :
  Executor.submit_all self extra_env extra_meta use_cached_runtime
    overwrite_invoke_args j (seq 0 n) = inr call_result_objs ->
  forall i (t : task ResponseFuture),
    (run_pool invoke_pool_threads schedule (queued <$> call_result_objs) w).1 !! i
    = Some t ->
    sat (fun _ => True) (future_of (job_callset_id j) (format_05d i)) (fun _ => True)
      (body t).
Proof.
  intros Hsub.
  pose (I := fun (i : nat) (_ : list call) (p : prog ResponseFuture) =>
               sat (fun _ => True) (future_of (job_callset_id j) (format_05d i))
                 (fun _ => True) p).
  assert (forall i tr cs p, I i tr p -> I i (tr ++ cs) p) as Hmono by done.
  assert (forall i tr X (ev : event X) k x,
            I i tr (Vis ev k) -> I i (tr ++ emitted ev) (k x)) as Hstep.
  { intros i tr X ev k x Hs. apply sat_vis_inv in Hs as [_ Hk]. apply Hk. }
  assert (pool_inv I (fun _ => True) (queued <$> call_result_objs) w) as Hinit.
  { split; [|done]. intros i t Hi.
    rewrite list_lookup_fmap in Hi.
    destruct (call_result_objs !! i) as [cb|] eqn:Hcb; [|done].
    injection Hi as <-. cbn [body queued].
    destruct (submit_all_spec _ _ _ _ _ _ _ _ Hsub) as [_ Hall].
    destruct (Hall i cb Hcb) as (i' & Hi' & Hs).
    apply lookup_seq in Hi' as [-> _]. simpl in Hs.
    apply submit_spec in Hs as (data_str & range & _ & -> & _).
    eapply sat_weaken; [| | |apply invoke_future_sat]; done. }
  destruct (run_pool_inv I (fun _ => True) Hmono Hstep ltac:(done)
              invoke_pool_threads schedule _ w Hinit) as [[HI _] _].
  exact HI.
Qed.

(** C1.  When [map] returns normally on [N] inputs, whatever the order
    in which the tasks of the pool ran, it returns [N] futures, and the
    [i]-th one is the future of the [i]-th call: its call id is
    ["{:05d}".format(i)], its callset is the one of this [map], and its
    state is [invoked]. *)
Theorem map_preserves_order func iterdata extra_env extra_meta
    invoke_pool_threads data_all_as_one use_cached_runtime overwrite_invoke_args
    exclude_modules module_dependencies_key schedule (w : world) handles w' :
  Executor.map self func iterdata extra_env extra_meta invoke_pool_threads
    data_all_as_one use_cached_runtime overwrite_invoke_args exclude_modules
    module_dependencies_key schedule w = (Returned handles, w') ->
  length handles = length iterdata
  /\ forall i, (i < length iterdata)%nat ->
       exists f, handles !! i = Some f
                 /\ call_id f = format_05d i
                 /\ callset_id f = callset_id_at (callsets w)
                 /\ state f = invoked.
Proof.
  destruct iterdata as [|d ds].
  { intros [= <- <-]. split; [done|]. simpl. lia. }
  intros Hmap.
  destruct (Executor.exceeds (length (d :: ds)) (self_map_item_limit self)) eqn:Hlim.
  { unfold Executor.map in Hmap. by rewrite Hlim in Hmap. }
  pose proof (map_phases func d ds extra_env extra_meta invoke_pool_threads
                data_all_as_one use_cached_runtime overwrite_invoke_args
                exclude_modules module_dependencies_key schedule w Hlim) as Hph.
  pose proof (package_run self func (d :: ds) invoke_pool_threads data_all_as_one
                exclude_modules module_dependencies_key w) as Hp.
  cbn zeta in *. destruct Hp as (setup & _ & _ & _ & Hp).
  rewrite Hmap in Hph.
  destruct (run _ w) as [[j|e|] w1]; cbn [fst snd] in *; [|done|done].
  destruct Hp as (_ & Hcs & _).
  destruct Hph as (cbs & Hsub & [= Hcol _]). symmetry in Hcol.
  destruct (collect_returned _ _ Hcol) as [Hlen Hall].
  pose proof (submit_all_spec _ _ _ _ _ _ _ _ Hsub) as [Hlen' _].
  rewrite length_seq in Hlen'.
  assert (length handles = length (d :: ds)) as Hn.
  { rewrite Hlen.
    destruct (run_pool_inv (fun _ _ (_ : prog ResponseFuture) => True)
                (fun _ => True) ltac:(done) ltac:(done) ltac:(done)
                invoke_pool_threads schedule (queued <$> cbs) w1 ltac:(done))
      as [_ ->].
    by rewrite length_fmap. }
  split; [done|]. intros i Hi.
  destruct (lookup_lt_is_Some_2 handles i ltac:(lia)) as [f Hf].
  exists f. split; [done|].
  destruct (Hall i f Hf) as (t & Ht & Hb).
  pose proof (pool_futures _ _ _ _ _ _ _ _ _ _ Hsub i t Ht) as Hs.
  rewrite Hb in Hs. apply sat_ret_inv in Hs as (? & ? & ?).
  by rewrite <- Hcs.
Qed.

End Map.

(** ** Early exits of [map] *)

Section EarlyExits.
Context `{Collaborators}.
Variable self : executor.

(** C3.  On an empty input, [map] returns the empty list at once: the
    world is left as it was, with no serialization, no storage operation
    and no invocation. *)
Theorem map_empty func extra_env extra_meta invoke_pool_threads data_all_as_one
    use_cached_runtime overwrite_invoke_args exclude_modules
    module_dependencies_key schedule (w : world) :
  Executor.map self func [] extra_env extra_meta invoke_pool_threads
    data_all_as_one use_cached_runtime overwrite_invoke_args exclude_modules
    module_dependencies_key schedule w = (Returned [], w).
Proof. reflexivity. Qed.

(** C4, amended.  With an item limit configured, [map] on a non-empty
    input longer than the limit raises [ValueError] at once: the world is
    left as it was. *)
Theorem map_item_limit_exceeded func iterdata limit extra_env extra_meta
    invoke_pool_threads data_all_as_one use_cached_runtime overwrite_invoke_args
    exclude_modules module_dependencies_key schedule (w : world) :
  iterdata <> [] ->
  self_map_item_limit self = Some limit ->
  Z.of_nat (length iterdata) > limit ->
  Executor.map self func iterdata extra_env extra_meta invoke_pool_threads
    data_all_as_one use_cached_runtime overwrite_invoke_args exclude_modules
    module_dependencies_key schedule w
  = (Raised (ValueError
       "len(data) ={}, exceeding map item limit of {}consider mapping over a smallernumber of items"
       [PInt (Z.of_nat (length iterdata)); PInt limit]), w).
Proof.
  intros Hne Hlim Hgt. destruct iterdata as [|d ds]; [done|].
  unfold Executor.map, Executor.exceeds. rewrite Hlim.
  by rewrite (proj2 (Z.gtb_gt _ _) Hgt).
Qed.

(** C10, amended.  On a non-empty input within the item limit, with a
    pool of at least one thread, a dependency key and a non-empty list of
    excluded modules, [map] raises [UnboundLocalError] for [mod_paths];
    by then it has neither stored a function package nor invoked a
    call. *)
Theorem map_unbound_mod_paths func iterdata extra_env extra_meta
    invoke_pool_threads data_all_as_one use_cached_runtime overwrite_invoke_args
    module modules key schedule (w : world) :
  iterdata <> [] ->
  Executor.exceeds (length iterdata) (self_map_item_limit self) = false ->
  1 <= invoke_pool_threads ->
  exists w' new,
    Executor.map self func iterdata extra_env extra_meta invoke_pool_threads
      data_all_as_one use_cached_runtime overwrite_invoke_args
      (Some (module :: modules)) (Some key) schedule w
    = (Raised (UnboundLocalError "mod_paths"), w')
    /\ trace w' = trace w ++ new
    /\ Forall (fun c => is_put_func c = false /\ is_invoke c = false) new.
Proof.
  intros Hne Hlim Hthreads. destruct iterdata as [|d ds]; [done|].
  pose proof (map_phases self func d ds extra_env extra_meta invoke_pool_threads
                data_all_as_one use_cached_runtime overwrite_invoke_args
                (Some (module :: modules)) (Some key) schedule w Hlim) as Hph.
  pose proof (package_run self func (d :: ds) invoke_pool_threads data_all_as_one
                (Some (module :: modules)) (Some key) w) as Hp.
  cbn zeta in *. destruct Hp as (setup & Htr & Hinv & _ & Hp).
  destruct (run _ w) as [[j|e|] w1]; cbn [fst snd] in *; [| |done].
  - destruct Hp as (_ & _ & _ & _ & _ & _ & [?|[?|?]]); done.
  - destruct Hp as [(Hlt & _)|(_ & -> & _ & Hpf)]; [lia|].
    exists w1, setup. split; [done|]. split; [done|].
    apply Forall_forall. intros c Hc. split.
    + by eapply Forall_forall in Hpf.
    + by eapply Forall_forall in Hinv.
Qed.

(** C9.  [parse_module_dependencies] with both modes requested fails on
    an assertion and leaves the world as it was: nothing was serialized
    or stored.  With at most one mode requested, the assertion on the
    modes does not fail. *)
Theorem parse_module_dependencies_exclusive :
  (forall func hint w,
      exists line,
        run (Executor.parse_module_dependencies self func hint true true) w
        = (Raised (AssertionError line), w))
  /\ (forall func user_key w,
        run (Executor.parse_module_dependencies self func (Some user_key) true true) w
        = (Raised (AssertionError 185), w))
  /\ (forall func hint from_shared_storage sync_to_shared_storage w,
        from_shared_storage && sync_to_shared_storage = false ->
        (run (Executor.parse_module_dependencies self func hint
                from_shared_storage sync_to_shared_storage) w).1
        <> Raised (AssertionError 185))
  /\ (forall func user_key from_shared_storage sync_to_shared_storage w,
        from_shared_storage && sync_to_shared_storage = false ->
        (run (Executor.parse_module_dependencies self func (Some user_key)
                from_shared_storage sync_to_shared_storage) w).1
        = Returned tt).
Proof.
  split; [|split; [|split]].
  - intros func [user_key|] w; [by exists 185%nat | by exists 184%nat].
  - intros func user_key w. reflexivity.
  - intros func [user_key|] [] [] w Hm; try discriminate Hm;
      cbn [Executor.parse_module_dependencies Executor.assert negb andb
           mbind prog_bind bind run time trigger handle serializer fmap list_fmap
           fst snd];
      discriminate.
  - intros func user_key [] [] w Hm; try discriminate Hm;
      cbn [Executor.parse_module_dependencies Executor.assert negb andb
           mbind prog_bind bind run time trigger handle serializer fmap list_fmap
           fst snd];
      reflexivity.
Qed.

Lemma forallb_false_Exists {A} (p : A -> bool) (l : list A) :
  forallb p l = false -> Exists (fun x => p x = false) l.
Proof.
  induction l as [|x l IH]; simpl; [done|].
  destruct (p x) eqn:Hx; simpl.
  - intros Hl. right. by apply IH.
  - intros _. by left.
Qed.

Lemma wait_all_completed_cases (fs : list ResponseFuture) :
  (Exists (fun f => terminal (settled f) = false) fs /\
   wait_all_completed fs = WaitForever)
  \/ (Forall (fun f => terminal (settled f) = true) fs /\
      exists f, f ∈ fs /\ settled f <> success
                /\ wait_all_completed fs
                   = WaitRaised (HandleError (callset_id f) (call_id f)))
  \/ (Forall (fun f => settled f = success) fs /\
      wait_all_completed fs = WaitDone).
Proof.
  unfold wait_all_completed.
  destruct (forallb _ fs) eqn:Hall.
  - right. rewrite forallb_forall in Hall.
    assert (Forall (fun f => terminal (settled f) = true) fs) as Hterm.
    { apply Forall_forall. intros f Hf. apply Hall. by apply list_elem_of_In. }
    destruct (List.find _ fs) as [f|] eqn:Hfind.
    + left. split; [done|]. apply find_some in Hfind as [Hin Hf].
      exists f. split; [by apply list_elem_of_In|]. split; [|done].
      intros Hs. by rewrite Hs in Hf.
    + right. split; [|done]. apply Forall_forall. intros f Hf.
      pose proof (find_none _ _ Hfind f (proj1 (list_elem_of_In _ _) Hf)) as Hn.
      simpl in Hn. by destruct (settled f).
  - left. split; [|done]. by apply forallb_false_Exists in Hall.
Qed.

(** C8.  [reduce] starts with the wait: when a handle never reaches a
    terminal state it blocks, and when all have and one has not succeeded
    it raises that failure; in both cases the wait is all that happened,
    and nothing was packaged or dispatched.  When every handle has
    succeeded it goes on to [call_async] with the reduction closure.  So
    whenever [reduce] returns a future, or anything at all happens after
    the wait, every handle had succeeded. *)
Theorem reduce_waits_first function list_of_futures extra_env extra_meta
    schedule (w : world) :
  let r := Executor.reduce self function list_of_futures extra_env extra_meta
             schedule w in
  let waited := record (CWait list_of_futures) w in
  (Exists (fun f => terminal (settled f) = false) list_of_futures ->
   r = (Blocked, waited))
  /\ (Forall (fun f => terminal (settled f) = true) list_of_futures ->
      Exists (fun f => settled f <> success) list_of_futures ->
      exists f, f ∈ list_of_futures /\ settled f <> success
                /\ r = (Raised (HandleError (callset_id f) (call_id f)), waited))
  /\ (Forall (fun f => settled f = success) list_of_futures ->
      r = Executor.call_async self (OReduceFunc function)
            (OFutures list_of_futures) extra_env extra_meta schedule waited)
  /\ (returned r.1 = true \/ r.2 <> waited ->
      Forall (fun f => settled f = success) list_of_futures).
Proof.
  cbn zeta. unfold Executor.reduce, Executor.wait.
  cbn [mbind prog_bind bind trigger run handle].
  assert (forall f, settled f = success -> terminal (settled f) = true) as Hst
    by (by intros f ->).
  destruct (wait_all_completed_cases list_of_futures)
    as [[Hex ->]|[(Hterm & f & Hin & Hf & ->)|[Hall ->]]]; cbn [run].
  - split; [done|]. split; [|split].
    + intros Hterm _. apply Exists_exists in Hex as (f & Hin & Hf).
      eapply Forall_forall in Hterm; [|done]. congruence.
    + intros Hall. apply Exists_exists in Hex as (f & Hin & Hf).
      eapply Forall_forall in Hall; [|done]. apply Hst in Hall. congruence.
    + intros [Hr|Hw]; [discriminate Hr | by destruct Hw].
  - split; [|split; [|split]].
    + intros Hex. apply Exists_exists in Hex as (f' & Hin' & Hf').
      eapply Forall_forall in Hterm; [|done]. congruence.
    + intros _ _. by exists f.
    + intros Hall. eapply Forall_forall in Hall; [|done]. done.
    + intros [Hr|Hw]; [discriminate Hr | by destruct Hw].
  - split; [|split; [|split]]; try done.
    + intros Hex. apply Exists_exists in Hex as (f & Hin & Hf).
      eapply Forall_forall in Hall; [|done]. apply Hst in Hall. congruence.
    + intros _ Hex. apply Exists_exists in Hex as (f & Hin & Hf).
      eapply Forall_forall in Hall; [|done]. done.
Qed.

End EarlyExits.

(** ** Every call that returns has invoked *)

Section Liveness.
Context `{Collaborators}.
Variable self : executor.

Lemma must_invoke_bind_sat {A B} (P : pydict -> Prop) (E : call -> Prop)
    (R : A -> Prop) (F : exn -> Prop) (p : prog A) (f : A -> prog B) :
  sat E R F p -> (forall a, R a -> must_invoke P (f a)) ->
  must_invoke P (bind p f).
Proof.
  intros Hp Hf. induction Hp as [a Ha|e He|X ev k Hev _ IH]; simpl.
  - by apply Hf.
  - constructor.
  - apply mi_vis. intros x. apply IH.
Qed.

Lemma must_invoke_vis_inv {A X} (P : pydict -> Prop) (ev : event X)
    (k : X -> prog A) :
  must_invoke P (Vis ev k) ->
  (forall x, must_invoke P (k x)) \/ exists a, emitted ev = [CInvoke a] /\ P a.
Proof.
  intros Hm.
  exact (match Hm in must_invoke _ p
               return match p with
                      | Vis ev k =>
                          (forall x, must_invoke P (k x))
                          \/ exists a, emitted ev = [CInvoke a] /\ P a
                      | _ => True
                      end with
         | mi_vis _ _ _ _ Hk => or_introl Hk
         | mi_invoke _ a _ Ha => or_intror (ex_intro _ a (conj eq_refl Ha))
         | _ => I
         end).
Qed.

Lemma must_invoke_not_ret {A} (P : pydict -> Prop) (a : A) :
  ~ must_invoke P (Ret a).
Proof.
  intros Hm.
  exact (match Hm in must_invoke _ p
               return match p with Ret _ => False | _ => True end with
         | mi_throw _ _ => I
         | mi_block _ => I
         | mi_vis _ _ _ _ _ => I
         | mi_invoke _ _ _ _ => I
         end).
Qed.

(** The record that is handed to the backend carries the fields of the
    record that was built, and the values of [overwrite_invoke_args]
    where it rebinds them. *)
Lemma built_carries (base arg_dict : pydict) (t : Z) overwrite_invoke_args
    data_key data_byte_range call_id :
  base !! "data_key" = Some (PStr data_key) ->
  base !! "data_byte_range" = Some data_byte_range ->
  base !! "call_id" = Some (PStr call_id) ->
  base ⊆ arg_dict ->
  carries overwrite_invoke_args data_key data_byte_range call_id
    match overwrite_invoke_args with
    | Some args => dict_update (<["host_submit_time" := PFloat t]> arg_dict) args
    | None => <["host_submit_time" := PFloat t]> arg_dict
    end.
Proof.
  intros Hdk Hbr Hci Hsub.
  assert (forall k v, k <> "host_submit_time" -> base !! k = Some v ->
            match overwrite_invoke_args with
            | Some args =>
                dict_update (<["host_submit_time" := PFloat t]> arg_dict) args
            | None => <["host_submit_time" := PFloat t]> arg_dict
            end !! k = Some (field_value overwrite_invoke_args k v)) as Hkeep.
  { intros k v Hne Hk.
    assert ((<["host_submit_time" := PFloat t]> arg_dict) !! k = Some v) as Hin.
    { rewrite lookup_insert_ne by done. by eapply lookup_weaken. }
    unfold field_value.
    destruct overwrite_invoke_args as [args|]; cbn [override_of default]; [|done].
    unfold dict_update. destruct (args !! k) as [v'|] eqn:Hov; cbn [default].
    - by apply lookup_union_Some_l.
    - by rewrite lookup_union_r. }
  split; [|split].
  - exact (Hkeep "data_key" _ ltac:(done) Hdk).
  - exact (Hkeep "data_byte_range" _ ltac:(done) Hbr).
  - exact (Hkeep "call_id" _ ltac:(done) Hci).
Qed.

Lemma invoke_with_keys_must_invoke func_key data_key output_key status_key
    cancel_key callset_id call_id extra_env extra_meta data_byte_range
    use_cached_runtime host_job_meta job_max_runtime overwrite_invoke_args :
  must_invoke (carries overwrite_invoke_args data_key data_byte_range call_id)
    (Executor.invoke_with_keys self func_key data_key output_key status_key
       cancel_key callset_id call_id extra_env extra_meta data_byte_range
       use_cached_runtime host_job_meta job_max_runtime overwrite_invoke_args).
Proof.
  unfold Executor.invoke_with_keys.
  eapply (must_invoke_bind_sat _ (fun _ => True) (fun _ => True) (fun _ => True)).
  { destruct (self_runtime_urls self) as [[| | | | | | |[|u urls]| |]|];
      repeat constructor. }
  intros runtime_url _.
  match goal with |- context [Executor.merge_extra_meta _ ?d] => set (base := d) end.
  assert (base !! "data_key" = Some (PStr data_key)
          /\ base !! "data_byte_range" = Some data_byte_range
          /\ base !! "call_id" = Some (PStr call_id)) as (Hdk & Hbr & Hci).
  { unfold base. destruct extra_env; repeat split; by simplify_map_eq. }
  eapply (must_invoke_bind_sat _ (fun _ => True) (fun d => base ⊆ d)).
  { destruct extra_meta; [apply merge_extra_meta_sat | by constructor]. }
  intros arg_dict Hsub. clearbody base.
  cbn [mbind prog_bind bind trigger time].
  apply mi_vis. intros t. apply mi_vis. intros t'.
  apply mi_invoke. by eapply built_carries.
Qed.

Lemma invoke_must_invoke extra_env extra_meta use_cached_runtime
    overwrite_invoke_args data_str callset_id call_id func_key host_job_meta
    agg_data_key data_byte_range :
  must_invoke
    (carries overwrite_invoke_args
       (default (data_key_of (self_storage_prefix self) callset_id call_id)
          agg_data_key)
       data_byte_range call_id)
    (Executor.invoke self extra_env extra_meta use_cached_runtime
       overwrite_invoke_args data_str callset_id call_id func_key host_job_meta
       agg_data_key data_byte_range).
Proof.
  unfold Executor.invoke, data_key_of.
  destruct (create_keys _ _ _) as [[[data_key output_key] status_key] cancel_key].
  destruct agg_data_key as [agg_data_key|];
    cbn [fst default mbind prog_bind bind trigger time Executor.put_data];
    repeat (apply mi_vis; intros ?);
    apply invoke_with_keys_must_invoke.
Qed.

(** In the pool, a task that has returned has left its invocation in
    the trace. *)
Lemma pool_must_invoke (P : nat -> pydict -> Prop) call_result_objs
    invoke_pool_threads schedule (w : world) :
  (forall i cb, call_result_objs !! i = Some cb -> must_invoke (P i) cb) ->
  exists calls,
    trace (run_pool invoke_pool_threads schedule (queued <$> call_result_objs) w).2
    = trace w ++ calls
    /\ forall i (t : task ResponseFuture) f,
         (run_pool invoke_pool_threads schedule (queued <$> call_result_objs) w).1
           !! i = Some t ->
         body t = Ret f ->
         exists a, CInvoke a ∈ calls /\ P i a.
Proof.
  intros Hcbs.
  pose (I := fun (i : nat) (tr : list call) (p : prog ResponseFuture) =>
               exists calls,
                 tr = trace w ++ calls
                 /\ (must_invoke (P i) p
                     \/ exists a, CInvoke a ∈ calls /\ P i a)).
  pose (G := fun tr : list call => exists calls, tr = trace w ++ calls).
  assert (forall i tr cs p, I i tr p -> I i (tr ++ cs) p) as Hmono.
  { intros i tr cs p (calls & -> & Hp).
    exists (calls ++ cs). split; [by rewrite app_assoc|].
    destruct Hp as [Hp|(a & Ha & HP)]; [by left|right].
    exists a. split; [|done]. apply elem_of_app. by left. }
  assert (forall i tr X (ev : event X) k x,
            I i tr (Vis ev k) -> I i (tr ++ emitted ev) (k x)) as Hstep.
  { intros i tr X ev k x (calls & -> & Hp).
    exists (calls ++ emitted ev). split; [by rewrite app_assoc|].
    destruct Hp as [Hp|(a & Ha & HP)].
    - apply must_invoke_vis_inv in Hp as [Hk|(a & -> & HP)]; [by left|right].
      exists a. split; [|done]. apply elem_of_app. right.
      by apply list_elem_of_singleton.
    - right. exists a. split; [|done]. apply elem_of_app. by left. }
  assert (forall i tr X (ev : event X) (k : X -> prog ResponseFuture),
            G tr -> I i tr (Vis ev k) -> G (tr ++ emitted ev)) as HG.
  { intros i tr X ev k (calls & ->) _. exists (calls ++ emitted ev).
    by rewrite app_assoc. }
  assert (pool_inv I G (queued <$> call_result_objs) w) as Hinit.
  { split; [|exists []; by rewrite app_nil_r].
    intros i t Hi. rewrite list_lookup_fmap in Hi.
    destruct (call_result_objs !! i) as [cb|] eqn:Hcb; [|done].
    injection Hi as <-. cbn [body queued].
    exists []. split; [by rewrite app_nil_r|]. left. by apply Hcbs. }
  destruct (run_pool_inv I G Hmono Hstep HG invoke_pool_threads schedule _ w Hinit)
    as [[HI (calls & Hcalls)] _].
  exists calls. split; [done|]. intros i t f Hi Hb.
  destruct (HI i t Hi) as (calls' & Heq & Hp).
  rewrite Hcalls in Heq. apply app_inv_head in Heq as <-.
  destruct Hp as [Hp|Hp]; [|done].
  rewrite Hb in Hp. by apply must_invoke_not_ret in Hp.
Qed.

End Liveness.

(** ** Aggregation in [map] *)

Section Aggregation.
Context `{Collaborators}.
Variable self : executor.
Variables (extra_env : option pyval) (extra_meta : option (list (string * pyval)))
  (use_cached_runtime : bool) (overwrite_invoke_args : option pydict).

Lemma emitted_cases {X} (ev : event X) :
  emitted ev = [] \/ exists c, emitted ev = [c].
Proof. destruct ev; simpl; eauto. Qed.

Lemma each_after_nil (Ec : list call -> call -> Prop) : each_after Ec [].
Proof. intros pre c post Heq. by destruct pre. Qed.

Lemma each_after_snoc (Ec : list call -> call -> Prop) (l : list call) (c : call) :
  each_after Ec l -> Ec l c -> each_after Ec (l ++ [c]).
Proof.
  intros Hl Hc pre c' post Heq.
  destruct post as [|c'' post _] using rev_ind.
  - apply app_inj_tail in Heq as [-> ->]. done.
  - rewrite app_comm_cons, app_assoc in Heq.
    apply app_inj_tail in Heq as [-> _]. by eapply Hl.
Qed.

(** With aggregated payloads, the pool uploads nothing, and every
    invocation carries the aggregated key and the range of its call. *)
Lemma pool_aggregated (j : job) (n : nat) call_result_objs agg_data_key ranges
    invoke_pool_threads schedule (w : world) :
  Executor.submit_all self extra_env extra_meta use_cached_runtime
    overwrite_invoke_args j (seq 0 n) = inr call_result_objs ->
  job_agg_data_key j = Some agg_data_key ->
  job_agg_data_ranges j = Some ranges ->
  exists calls,
    trace (run_pool invoke_pool_threads schedule (queued <$> call_result_objs) w).2
    = trace w ++ calls
    /\ Forall (aggregated_call overwrite_invoke_args agg_data_key ranges) calls.
Proof.
  intros Hsub Hkey Hranges.
  pose (I := fun (i : nat) (_ : list call) (p : prog ResponseFuture) =>
               exists lo hi,
                 ranges !! i = Some (lo, hi)
                 /\ sat (invokes_with
                           (carries overwrite_invoke_args agg_data_key
                              (PTuple [PInt lo; PInt hi]) (format_05d i)))
                      (fun _ => True) (fun _ => True) p).
  pose (G := fun tr : list call =>
               exists calls,
                 tr = trace w ++ calls
                 /\ Forall (aggregated_call overwrite_invoke_args agg_data_key ranges)
                      calls).
  assert (forall i tr cs p, I i tr p -> I i (tr ++ cs) p) as Hmono by done.
  assert (forall i tr X (ev : event X) k x,
            I i tr (Vis ev k) -> I i (tr ++ emitted ev) (k x)) as Hstep.
  { intros i tr X ev k x (lo & hi & Hr & Hs).
    apply sat_vis_inv in Hs as [_ Hk]. by exists lo, hi. }
  assert (forall i tr X (ev : event X) (k : X -> prog ResponseFuture),
            G tr -> I i tr (Vis ev k) -> G (tr ++ emitted ev)) as HG.
  { intros i tr X ev k (calls & -> & Hcalls) (lo & hi & Hr & Hs).
    apply sat_vis_inv in Hs as [Hev _].
    exists (calls ++ emitted ev). split; [by rewrite app_assoc|].
    apply Forall_app. split; [done|].
    eapply Forall_impl; [exact Hev|].
    intros [] Hc; simpl in *; try done. by exists i, lo, hi. }
  assert (pool_inv I G (queued <$> call_result_objs) w) as Hinit.
  { split; [|exists []; by rewrite app_nil_r].
    intros i t Hi. rewrite list_lookup_fmap in Hi.
    destruct (call_result_objs !! i) as [cb|] eqn:Hcb; [|done].
    injection Hi as <-. cbn [body queued].
    destruct (submit_all_spec _ _ _ _ _ _ _ _ Hsub) as [_ Hall].
    destruct (Hall i cb Hcb) as (i' & Hi' & Hs).
    apply lookup_seq in Hi' as [-> _]. simpl in Hs.
    apply submit_spec in Hs as (data_str & range & _ & -> & Hrange).
    rewrite Hkey in Hrange. destruct Hrange as (ranges' & lo & hi & Hr' & Hlo & ->).
    rewrite Hranges in Hr'. injection Hr' as <-.
    exists lo, hi. split; [done|]. rewrite Hkey.
    eapply sat_weaken; [| | |apply invoke_agg_sat]; done. }
  destruct (run_pool_inv I G Hmono Hstep HG invoke_pool_threads schedule _ w Hinit)
    as [[_ HGend] _].
  exact HGend.
Qed.

(** Without aggregation, every call uploads its own payload under its
    own data key before it invokes, and invokes with that key and no
    range. *)
Lemma pool_own_data (j : job) (n : nat) call_result_objs
    invoke_pool_threads schedule (w : world) :
  Executor.submit_all self extra_env extra_meta use_cached_runtime
    overwrite_invoke_args j (seq 0 n) = inr call_result_objs ->
  job_agg_data_key j = None ->
  exists calls,
    trace (run_pool invoke_pool_threads schedule (queued <$> call_result_objs) w).2
    = trace w ++ calls
    /\ each_after (own_data_call overwrite_invoke_args (self_storage_prefix self)
                     (job_callset_id j) (job_data_strs j)) calls.
Proof.
  intros Hsub Hkey.
  set (dk := fun i => data_key_of (self_storage_prefix self) (job_callset_id j)
                        (format_05d i)).
  set (E := fun i => invokes_with (carries overwrite_invoke_args (dk i) PNone
                                     (format_05d i))).
  set (Ec := own_data_call overwrite_invoke_args (self_storage_prefix self)
               (job_callset_id j) (job_data_strs j)).
  pose (I := fun (i : nat) (tr : list call) (p : prog ResponseFuture) =>
               exists d calls,
                 job_data_strs j !! i = Some d /\ tr = trace w ++ calls
                 /\ (uploads_first (dk i) d (E i) p
                     \/ (sat (E i) (fun _ => True) (fun _ => True) p
                         /\ CPutData (dk i) d ∈ calls))).
  pose (G := fun tr : list call =>
               exists calls, tr = trace w ++ calls /\ each_after Ec calls).
  assert (forall i tr cs p, I i tr p -> I i (tr ++ cs) p) as Hmono.
  { intros i tr cs p (d & calls & Hd & -> & Hp).
    exists d, (calls ++ cs). split; [done|]. split; [by rewrite app_assoc|].
    destruct Hp as [Hp|[Hp Hin]]; [by left|right].
    split; [done|]. apply elem_of_app. by left. }
  assert (forall i tr X (ev : event X) k x,
            I i tr (Vis ev k) -> I i (tr ++ emitted ev) (k x)) as Hstep.
  { intros i tr X ev k x (d & calls & Hd & -> & Hp).
    exists d, (calls ++ emitted ev). split; [done|]. split; [by rewrite app_assoc|].
    destruct Hp as [Hp|[Hp Hin]].
    - apply uploads_first_vis_inv in Hp as [[Hq Hk]|[Hu Hk]]; [by left|right].
      split; [done|]. rewrite Hu. apply elem_of_app. right. by apply list_elem_of_singleton.
    - right. apply sat_vis_inv in Hp as [_ Hk]. split; [done|].
      apply elem_of_app. by left. }
  assert (forall i tr X (ev : event X) (k : X -> prog ResponseFuture),
            G tr -> I i tr (Vis ev k) -> G (tr ++ emitted ev)) as HG.
  { intros i tr X ev k (calls & -> & Hcalls) (d & calls' & Hd & Heq & Hp).
    apply app_inv_head in Heq as <-.
    exists (calls ++ emitted ev). split; [by rewrite app_assoc|].
    destruct Hp as [Hp|[Hp Hin]].
    - apply uploads_first_vis_inv in Hp as [[-> _]|[-> _]].
      + by rewrite app_nil_r.
      + apply each_after_snoc; [done|]. unfold Ec. simpl. by exists i.
    - apply sat_vis_inv in Hp as [Hev _].
      destruct (emitted_cases ev) as [->|[c Hc]]; [by rewrite app_nil_r|].
      rewrite Hc in *. apply each_after_snoc; [done|].
      rewrite Forall_singleton in Hev. unfold Ec, E in *.
      destruct c; simpl in *; try done. by exists i, d. }
  assert (pool_inv I G (queued <$> call_result_objs) w) as Hinit.
  { split; [|exists []; split; [by rewrite app_nil_r | apply each_after_nil]].
    intros i t Hi. rewrite list_lookup_fmap in Hi.
    destruct (call_result_objs !! i) as [cb|] eqn:Hcb; [|done].
    injection Hi as <-. cbn [body queued].
    destruct (submit_all_spec _ _ _ _ _ _ _ _ Hsub) as [_ Hall].
    destruct (Hall i cb Hcb) as (i' & Hi' & Hs).
    apply lookup_seq in Hi' as [-> _]. simpl in Hs.
    apply submit_spec in Hs as (data_str & range & Hd & -> & Hrange).
    rewrite Hkey in Hrange. subst range.
    exists data_str, []. split; [done|]. split; [by rewrite app_nil_r|].
    left. rewrite Hkey. apply invoke_own_uploads_first. }
  destruct (run_pool_inv I G Hmono Hstep HG invoke_pool_threads schedule _ w Hinit)
    as [[_ HGend] _].
  exact HGend.
Qed.

Lemma must_invoke_weaken {A} (P Q : pydict -> Prop) (p : prog A) :
  (forall a, P a -> Q a) -> must_invoke P p -> must_invoke Q p.
Proof.
  intros HPQ Hp. induction Hp as [e| |X ev k _ IH|a k Ha].
  - constructor.
  - constructor.
  - apply mi_vis. exact IH.
  - apply mi_invoke. by apply HPQ.
Qed.

(** When the results are collected, every call has invoked the backend
    with the data key and the byte range that [map] gave it. *)
Lemma pool_collected_invoked (j : job) (n : nat) call_result_objs
    invoke_pool_threads schedule (w : world) handles :
  Executor.submit_all self extra_env extra_meta use_cached_runtime
    overwrite_invoke_args j (seq 0 n) = inr call_result_objs ->
  collect (run_pool invoke_pool_threads schedule (queued <$> call_result_objs) w).1
  = Returned handles ->
  exists calls,
    trace (run_pool invoke_pool_threads schedule (queued <$> call_result_objs) w).2
    = trace w ++ calls
    /\ forall i, (i < n)%nat ->
         exists a data_byte_range,
           CInvoke a ∈ calls
           /\ match job_agg_data_key j with
              | None => data_byte_range = PNone
              | Some _ =>
                  exists ranges lo hi,
                    job_agg_data_ranges j = Some ranges
                    /\ ranges !! i = Some (lo, hi)
                    /\ data_byte_range = PTuple [PInt lo; PInt hi]
              end
           /\ carries overwrite_invoke_args
                (default (data_key_of (self_storage_prefix self) (job_callset_id j)
                            (format_05d i))
                   (job_agg_data_key j))
                data_byte_range (format_05d i) a.
Proof.
  intros Hsub Hcol.
  pose (P := fun (i : nat) (a : pydict) =>
               exists data_byte_range,
                 match job_agg_data_key j with
                 | None => data_byte_range = PNone
                 | Some _ =>
                     exists ranges lo hi,
                       job_agg_data_ranges j = Some ranges
                       /\ ranges !! i = Some (lo, hi)
                       /\ data_byte_range = PTuple [PInt lo; PInt hi]
                 end
                 /\ carries overwrite_invoke_args
                      (default (data_key_of (self_storage_prefix self)
                                  (job_callset_id j) (format_05d i))
                         (job_agg_data_key j))
                      data_byte_range (format_05d i) a).
  destruct (submit_all_spec _ _ _ _ _ _ _ _ Hsub) as [Hlen Hall].
  rewrite length_seq in Hlen.
  destruct (pool_must_invoke P call_result_objs invoke_pool_threads schedule w)
    as (calls & Hcalls & Hinv).
  { intros i cb Hcb. destruct (Hall i cb Hcb) as (i' & Hi' & Hs).
    apply lookup_seq in Hi' as [-> _]. simpl in Hs.
    apply submit_spec in Hs as (data_str & range & _ & -> & Hrange).
    eapply must_invoke_weaken; [|apply invoke_must_invoke].
    intros a Ha. by exists range. }
  exists calls. split; [done|]. intros i Hi.
  destruct (collect_returned _ _ Hcol) as [Hlen' Hret].
  destruct (run_pool_inv (fun _ _ (_ : prog ResponseFuture) => True)
              (fun _ => True) ltac:(done) ltac:(done) ltac:(done)
              invoke_pool_threads schedule (queued <$> call_result_objs) w
              ltac:(done)) as [_ Hlen''].
  rewrite length_fmap in Hlen''.
  destruct (lookup_lt_is_Some_2 handles i ltac:(lia)) as [f Hf].
  destruct (Hret i f Hf) as (t & Ht & Hb).
  destruct (Hinv i t f Ht Hb) as (a & Ha & range & Hrange & Hcar).
  by exists a, range.
Qed.

(** C7, amended.  The trace of a call of [map] is made of the calls of
    the packaging, none of which is an invocation, followed by the calls
    of the pool.  When the total payload size is below
    [MAX_AGG_DATA_SIZE] and [data_all_as_one] is set, the only data
    upload is that of the aggregated blob under the aggregated key, it
    comes before the pool starts, the pool uploads nothing, and every
    invocation carries the aggregated key and the byte range of its call.
    Otherwise the packaging uploads no data, every upload of the pool
    puts the payload of a call under the data key of that call, and every
    invocation carries the data key of its call and no byte range, after
    the upload of that call.  In both cases, when [map] returns normally
    every call has been invoked so.  A field that [overwrite_invoke_args]
    rebinds holds the value of [overwrite_invoke_args] instead of the
    computed one, in every invocation ([carries], [field_value]). *)
Theorem map_aggregation func iterdata invoke_pool_threads data_all_as_one
    exclude_modules module_dependencies_key schedule (w : world) :
  let r := Executor.map self func iterdata extra_env extra_meta
             invoke_pool_threads data_all_as_one use_cached_runtime
             overwrite_invoke_args exclude_modules module_dependencies_key
             schedule w in
  let data_strs := dumps <$> iterdata in
  let cs := callset_id_at (callsets w) in
  let agg_key := create_agg_data_key (self_storage_prefix self) cs in
  exists setup calls,
    trace r.2 = trace w ++ setup ++ calls
    /\ Forall (fun c => is_invoke c = false) setup
    /\ if aggregates iterdata data_all_as_one then
         (forall c, c ∈ setup -> is_put_data c = true ->
            c = CPutData agg_key (agg_data data_strs).1)
         /\ (calls <> [] -> CPutData agg_key (agg_data data_strs).1 ∈ setup)
         /\ Forall (aggregated_call overwrite_invoke_args agg_key
                      (agg_data data_strs).2) calls
         /\ (returned r.1 = true ->
             forall i lo hi, (agg_data data_strs).2 !! i = Some (lo, hi) ->
               exists a, CInvoke a ∈ calls
                         /\ carries overwrite_invoke_args agg_key
                              (PTuple [PInt lo; PInt hi]) (format_05d i) a)
       else
         Forall (fun c => is_put_data c = false) setup
         /\ each_after (own_data_call overwrite_invoke_args
                          (self_storage_prefix self) cs data_strs) calls
         /\ (returned r.1 = true ->
             forall i d, data_strs !! i = Some d ->
               exists a, CInvoke a ∈ calls
                         /\ carries overwrite_invoke_args
                              (data_key_of (self_storage_prefix self) cs
                                 (format_05d i))
                              PNone (format_05d i) a).
Proof.
  cbn zeta. rewrite agg_data_eq. cbn [fst snd].
  destruct iterdata as [|d ds].
  { exists [], []. rewrite app_nil_r. split; [done|]. split; [done|].
    destruct (aggregates _ _).
    - split; [|split; [|split]]; [|done|done|].
      + intros c Hc. by apply elem_of_nil in Hc.
      + intros _ i lo hi Hi. simpl in Hi. discriminate Hi.
    - split; [done|]. split; [apply each_after_nil|].
      intros _ i d' Hi. simpl in Hi. discriminate Hi. }
  destruct (Executor.exceeds (length (d :: ds)) (self_map_item_limit self)) eqn:Hlim.
  { unfold Executor.map. rewrite Hlim.
    exists [], []. rewrite app_nil_r. split; [done|]. split; [done|].
    destruct (aggregates _ _).
    - split; [|split; [|split]]; [|done|done|done].
      intros c Hc. by apply elem_of_nil in Hc.
    - split; [done|]. split; [apply each_after_nil|done]. }
  pose proof (map_phases self func d ds extra_env extra_meta invoke_pool_threads
                data_all_as_one use_cached_runtime overwrite_invoke_args
                exclude_modules module_dependencies_key schedule w Hlim) as Hph.
  pose proof (package_run self func (d :: ds) invoke_pool_threads data_all_as_one
                exclude_modules module_dependencies_key w) as Hp.
  cbn zeta in *. destruct Hp as (setup & Htr & Hinv & Hput & Hp).
  destruct (run _ w) as [[j|e|] w1]; cbn [fst snd] in *; [| |done].
  - destruct Hp as (_ & Hcs & Hd & Hk & Hr & Hup & _).
    destruct Hph as (cbs & Hsub & ->). cbn [fst snd].
    destruct (aggregates (d :: ds) data_all_as_one) eqn:Hagg.
    + destruct (pool_aggregated j _ cbs _ _ invoke_pool_threads schedule w1
                  Hsub Hk Hr) as (calls & Hcalls & Hall).
      exists setup, calls. rewrite Hcalls, Htr, <- app_assoc.
      split; [done|]. split; [done|]. split; [|split; [|split]].
      * intros c Hc Hpd. by destruct (Hput c Hc Hpd).
      * intros _. by apply Hup.
      * rewrite agg_data_eq in Hall. exact Hall.
      * intros Hret i lo hi Hi.
        destruct (collect _) as [handles| |] eqn:Hcol; try discriminate Hret.
        destruct (pool_collected_invoked j _ cbs invoke_pool_threads schedule w1
                    handles Hsub Hcol) as (calls' & Hcalls' & Hinvoked).
        rewrite Hcalls in Hcalls'. apply app_inv_head in Hcalls' as <-.
        destruct (Hinvoked i) as (a & range & Ha & Hrange & Hcar).
        { apply lookup_lt_Some in Hi.
          by rewrite ranges_from_length, length_fmap in Hi. }
        rewrite Hk in Hrange, Hcar.
        destruct Hrange as (ranges & lo' & hi' & Hranges & Hlo & ->).
        rewrite Hr in Hranges. injection Hranges as <-.
        rewrite agg_data_eq in Hlo.
        change (ranges_from 0 (dumps <$> d :: ds) !! i = Some (lo', hi')) in Hlo.
        rewrite Hi in Hlo. injection Hlo as <- <-.
        by exists a.
    + destruct (pool_own_data j _ cbs invoke_pool_threads schedule w1 Hsub Hk)
        as (calls & Hcalls & Hall).
      exists setup, calls. rewrite Hcalls, Htr, <- app_assoc.
      split; [done|]. split; [done|]. split; [|split].
      * apply Forall_forall. intros c Hc.
        destruct (is_put_data c) eqn:Hpd; [|done].
        by destruct (Hput c Hc Hpd).
      * by rewrite Hcs, Hd in Hall.
      * intros Hret i d' Hi.
        destruct (collect _) as [handles| |] eqn:Hcol; try discriminate Hret.
        destruct (pool_collected_invoked j _ cbs invoke_pool_threads schedule w1
                    handles Hsub Hcol) as (calls' & Hcalls' & Hinvoked).
        rewrite Hcalls in Hcalls'. apply app_inv_head in Hcalls' as <-.
        destruct (Hinvoked i) as (a & range & Ha & Hrange & Hcar).
        { apply lookup_lt_Some in Hi. by rewrite length_fmap in Hi. }
        rewrite Hk in Hrange, Hcar. subst range. rewrite Hcs in Hcar.
        by exists a.
  - rewrite Hph. cbn [fst snd]. exists setup, []. rewrite app_nil_r.
    split; [done|]. split; [done|].
    destruct (aggregates (d :: ds) data_all_as_one) eqn:Hagg.
    + split; [|split; [|split]]; [|done|done|done].
      intros c Hc Hpd. by destruct (Hput c Hc Hpd).
    + split; [|split; [apply each_after_nil|done]].
      apply Forall_forall. intros c Hc.
      destruct (is_put_data c) eqn:Hpd; [|done].
      by destruct (Hput c Hc Hpd).
Qed.

End Aggregation.

(** ** Call ids and caller metadata *)

Section Metadata.
Context `{Collaborators}.
Variable self : executor.

(** C5, amended.  Call [i] is submitted with the call id
    ["{:05d}".format(i)]: the decimal digits of [i], padded with zeros on
    the left to at least five characters.  A call id reads back as its
    index, so the ids of a callset are pairwise distinct; below 10^5
    inputs they all have five characters and follow each other in string
    order as the indices do; three inputs get 00000, 00001, 00002. *)
Theorem call_ids_sequential :
  (forall extra_env extra_meta use_cached_runtime overwrite_invoke_args j i cb,
      Executor.submit self extra_env extra_meta use_cached_runtime
        overwrite_invoke_args j i = inr cb ->
      exists data_str data_byte_range,
        cb = Executor.invoke self extra_env extra_meta use_cached_runtime
               overwrite_invoke_args data_str (job_callset_id j) (format_05d i)
               (job_func_key j) (job_host_job_meta j) (job_agg_data_key j)
               data_byte_range)
  /\ (forall i, all_digits (format_05d i) /\ dec_value (format_05d i) = i
                /\ (5 <= String.length (format_05d i))%nat)
  /\ (forall i j, format_05d i = format_05d j -> i = j)
  /\ (forall i, (i < 10 ^ 5)%nat -> String.length (format_05d i) = 5%nat)
  /\ (forall i j, (i < j)%nat -> (j < 10 ^ 5)%nat ->
        String.ltb (format_05d i) (format_05d j) = true)
  /\ format_05d <$> [0; 1; 2]%nat = ["00000"; "00001"; "00002"].
Proof.
  split; [|split; [|split; [|split; [|split]]]].
  - intros extra_env extra_meta ucr ov j i cb Hs.
    apply submit_spec in Hs as (data_str & range & _ & -> & _).
    by exists data_str, range.
  - intros i. split; [apply format_05d_digits|]. split; [apply format_05d_value|].
    rewrite format_05d_length. lia.
  - intros i j Heq. by rewrite <- (format_05d_value i), Heq, format_05d_value.
  - intros i Hi. rewrite format_05d_length.
    pose proof (str_of_nat_short i Hi). lia.
  - intros i j Hij Hj. unfold String.ltb.
    rewrite digits_compare.
    + rewrite !format_05d_value.
      by rewrite (proj2 (Nat.compare_lt_iff i j) Hij).
    + apply format_05d_digits.
    + apply format_05d_digits.
    + rewrite !format_05d_length.
      pose proof (str_of_nat_short i ltac:(lia)).
      pose proof (str_of_nat_short j Hj). lia.
  - reflexivity.
Qed.

(** C6, the failing case.  A metadata entry under the key
    [host_submit_time] is not rejected, although the record has a field
    of that name: the merge accepts it, the submission time then replaces
    it, and the backend is invoked with the submission time. *)
Theorem extra_meta_host_submit_time_accepted func_key data_key output_key
    status_key cancel_key callset_id call_id extra_env v data_byte_range
    use_cached_runtime host_job_meta job_max_runtime (w : world) :
  let r := run (Executor.invoke_with_keys self func_key data_key output_key
                  status_key cancel_key callset_id call_id extra_env
                  (Some [("host_submit_time", v)]) data_byte_range
                  use_cached_runtime host_job_meta job_max_runtime None) w in
  returned r.1 = true
  /\ exists a, trace r.2 = trace w ++ [CInvoke a; CInvokerConfig]
               /\ a !! "host_submit_time" = Some (PFloat (clock_at (clock_reads w))).
Proof.
  cbn zeta. unfold Executor.invoke_with_keys, mbind, prog_bind.
  rewrite run_bind.
  assert (exists url w1,
            run match self_runtime_urls self with
                | Some (PList (u :: urls)) => trigger (RandomChoice (u :: urls))
                | _ => Ret (PStr "")
                end w = (Returned url, w1)
            /\ trace w1 = trace w /\ clock_reads w1 = clock_reads w)
    as (url & w1 & -> & Htr & Hclock).
  { destruct (self_runtime_urls self) as [[| | | | | | |[|u urls]| |]|];
      cbn; by eexists _, _. }
  cbn [dict_items fold_left dict_set fst snd Executor.merge_extra_meta].
  destruct extra_env as [env|];
    (rewrite !lookup_insert_ne by done; rewrite lookup_empty);
    cbn [mbind prog_bind bind run trigger time handle fst snd returned
         trace record tick clock_reads];
    (split; [done|]); eexists;
    (split; [by rewrite Htr, <- app_assoc|]);
    by rewrite lookup_insert_eq, Hclock.
Qed.

End Metadata.

(** ** The sanity check on [extra_meta] *)

Section SanityCheck.
Context `{Collaborators}.
Variable self : executor.

Lemma dict_set_keys (items : list (string * pyval)) (k : string) (v : pyval) :
  (dict_set items k v).*1
  = if decide (k ∈ items.*1) then items.*1 else items.*1 ++ [k].
Proof.
  induction items as [|[k' v'] rest IH]; [done|].
  cbn [dict_set]. destruct (String.eqb_spec k' k) as [->|Hne];
    rewrite !fmap_cons; cbn [fst].
  - rewrite decide_True; [done | by left].
  - rewrite IH. destruct (decide (k ∈ rest.*1)) as [Hin|Hnin].
    + rewrite decide_True; [done | by right].
    + rewrite decide_False; [done|]. intros Hin.
      apply elem_of_cons in Hin as [->|Hin]; done.
Qed.

Lemma dict_items_keys (literal : list (string * pyval)) :
  forall acc, NoDup acc.*1 ->
    NoDup (fold_left (fun d kv => dict_set d kv.1 kv.2) literal acc).*1
    /\ forall k,
         k ∈ (fold_left (fun d kv => dict_set d kv.1 kv.2) literal acc).*1
         <-> k ∈ acc.*1 \/ k ∈ literal.*1.
Proof.
  induction literal as [|[k v] rest IH]; intros acc Hnd; simpl.
  - split; [done|]. intros k. split; [by left|]. intros [?|Hin]; [done|].
    by apply elem_of_nil in Hin.
  - assert (NoDup (dict_set acc k v).*1) as Hnd'.
    { rewrite dict_set_keys. destruct (decide _) as [|Hnin]; [done|].
      apply NoDup_app. split; [done|]. split; [|apply NoDup_singleton].
      intros x Hx Hx'. apply list_elem_of_singleton in Hx' as ->. done. }
    destruct (IH _ Hnd') as [Hnd'' Hkeys]. split; [done|].
    intros k'. rewrite Hkeys, dict_set_keys, elem_of_cons.
    destruct (decide (k ∈ acc.*1)) as [Hin|Hnin].
    + split; [tauto|]. intros [?|[->|?]]; tauto.
    + rewrite elem_of_app, list_elem_of_singleton. tauto.
Qed.

Lemma merge_extra_meta_collides (items : list (string * pyval)) :
  forall arg_dict,
    Exists (fun kv => is_Some (arg_dict !! kv.1)) items ->
    exists k, Executor.merge_extra_meta items arg_dict
              = Throw (ValueError "Key {} already in dict" [PStr k]).
Proof.
  induction items as [|[k v] rest IH]; intros arg_dict Hex.
  - by apply Exists_nil in Hex.
  - simpl. destruct (arg_dict !! k) eqn:Hk; [by exists k|].
    apply Exists_cons in Hex as [[? Hs]|Hex]; [simpl in Hs; congruence|].
    apply IH. eapply Exists_impl; [exact Hex|].
    intros [k' v'] [x Hx]. simpl in *.
    destruct (decide (k = k')) as [->|Hne]; [congruence|].
    rewrite lookup_insert_ne by done. by exists x.
Qed.

Lemma merge_extra_meta_adds (items : list (string * pyval)) :
  forall arg_dict,
    NoDup items.*1 ->
    Forall (fun kv => arg_dict !! kv.1 = None) items ->
    exists d, Executor.merge_extra_meta items arg_dict = Ret d
              /\ arg_dict ⊆ d
              /\ forall k v, (k, v) ∈ items -> d !! k = Some v.
Proof.
  induction items as [|[k v] rest IH]; intros arg_dict Hnd Hfresh.
  - exists arg_dict. split; [done|]. split; [done|].
    intros k v Hin. by apply elem_of_nil in Hin.
  - simpl in *. apply NoDup_cons in Hnd as [Hk Hnd].
    apply Forall_cons in Hfresh as [Hfk Hfresh]. simpl in Hfk. rewrite Hfk.
    destruct (IH (<[k := v]> arg_dict) Hnd) as (d & Hd & Hsub & Hall).
    { apply Forall_forall. intros [k' v'] Hin. simpl.
      rewrite lookup_insert_ne.
      - eapply Forall_forall in Hfresh; [|exact Hin]. done.
      - intros ->. apply Hk. apply list_elem_of_fmap. by exists (k', v'). }
    exists d. split; [done|]. split.
    + etrans; [|exact Hsub]. by apply insert_subseteq.
    + intros k' v' Hin. apply elem_of_cons in Hin as [[= -> ->]|Hin].
      * eapply lookup_weaken; [|exact Hsub]. apply lookup_insert_eq.
      * by apply Hall.
Qed.

(** The record when [extra_meta] is merged has exactly the fields of
    [fields_at_merge]. *)
Lemma base_fields func_key data_key output_key status_key cancel_key callset_id
    call_id extra_env data_byte_range use_cached_runtime job_max_runtime
    runtime_url (k : string) :
  let literal : pydict :=
    <["runtime_url" := runtime_url]> (
    <["pywren_version" := PStr pywren_version]> (
    <["runtime" := self_config_runtime self]> (
    <["use_cached_runtime" := PBool use_cached_runtime]> (
    <["call_id" := PStr call_id]> (
    <["data_byte_range" := data_byte_range]> (
    <["job_max_runtime" := job_max_runtime]> (
    <["callset_id" := PStr callset_id]> (
    <["cancel_key" := PStr cancel_key]> (
    <["status_key" := PStr status_key]> (
    <["output_key" := PStr output_key]> (
    <["data_key" := PStr data_key]> (
    <["func_key" := PStr func_key]> (
    <["storage_config" := self_storage_config self]> ∅))))))))))))) in
  is_Some (match extra_env with
           | Some env => <["extra_env" := env]> literal
           | None => literal
           end !! k)
  <-> k ∈ fields_at_merge extra_env.
Proof.
  cbn zeta. unfold fields_at_merge, arg_dict_fields.
  destruct extra_env; rewrite ?lookup_insert_is_Some, lookup_empty, is_Some_alt;
    set_unfold; intuition (subst; auto); done.
Qed.

Lemma run_runtime_url (w : world) :
  exists url w1,
    run match self_runtime_urls self with
        | Some (PList (u :: urls)) => trigger (RandomChoice (u :: urls))
        | _ => Ret (PStr "")
        end w = (Returned url, w1)
    /\ trace w1 = trace w /\ clock_reads w1 = clock_reads w.
Proof.
  destruct (self_runtime_urls self) as [[| | | | | | |[|u urls]| |]|];
    cbn; by eexists _, _.
Qed.

(** A metadata key that is already a key of the record makes
    [invoke_with_keys] raise [ValueError] before any collaborator is
    called; in particular the backend is not invoked. *)
Lemma extra_meta_collision_rejected func_key data_key output_key status_key
    cancel_key callset_id call_id extra_env meta data_byte_range
    use_cached_runtime host_job_meta job_max_runtime overwrite_invoke_args
    (k : string) (w : world) :
  k ∈ meta.*1 ->
  k ∈ fields_at_merge extra_env ->
  exists k' w',
    run (Executor.invoke_with_keys self func_key data_key output_key status_key
           cancel_key callset_id call_id extra_env (Some meta) data_byte_range
           use_cached_runtime host_job_meta job_max_runtime overwrite_invoke_args) w
    = (Raised (ValueError "Key {} already in dict" [PStr k']), w')
    /\ trace w' = trace w.
Proof.
  intros Hk Hfield. unfold Executor.invoke_with_keys, mbind, prog_bind.
  rewrite run_bind.
  destruct (run_runtime_url w) as (url & w1 & -> & Htr & _).
  rewrite run_bind.
  pose proof (base_fields func_key data_key output_key status_key cancel_key
                callset_id call_id extra_env data_byte_range use_cached_runtime
                job_max_runtime url k) as Hbase.
  cbn zeta in Hbase. apply Hbase in Hfield. clear Hbase.
  destruct (dict_items_keys meta [] (NoDup_nil_2)) as [_ Hkeys].
  assert (k ∈ (dict_items meta).*1) as Hin by (apply Hkeys; by right).
  apply list_elem_of_fmap in Hin as ([k0 v] & -> & Hin).
  match goal with
  | |- context [Executor.merge_extra_meta ?items ?d] =>
      destruct (merge_extra_meta_collides items d) as [k' ->]
  end.
  { apply Exists_exists. by exists (k0, v). }
  by exists k', w1.
Qed.

(** X23.  The caller's metadata reaches the backend.  When no key of
    [extra_meta] is a key of the record, [invoke_with_keys] returns after
    one invocation, and every entry of the metadata is in the record that
    the backend receives, unless the submission time or
    [overwrite_invoke_args] replaces it. *)
Lemma extra_meta_added func_key data_key output_key status_key cancel_key
    callset_id call_id extra_env meta data_byte_range use_cached_runtime
    host_job_meta job_max_runtime overwrite_invoke_args (w : world) :
  (forall k, k ∈ meta.*1 -> k ∉ fields_at_merge extra_env) ->
  let r := run (Executor.invoke_with_keys self func_key data_key output_key
                  status_key cancel_key callset_id call_id extra_env (Some meta)
                  data_byte_range use_cached_runtime host_job_meta
                  job_max_runtime overwrite_invoke_args) w in
  returned r.1 = true
  /\ exists a,
       trace r.2 = trace w ++ [CInvoke a; CInvokerConfig]
       /\ forall k v, (k, v) ∈ dict_items meta ->
            k <> "host_submit_time" ->
            override_of overwrite_invoke_args k = None ->
            a !! k = Some v.
Proof.
  intros Hfresh. cbn zeta.
  unfold Executor.invoke_with_keys, mbind, prog_bind.
  rewrite run_bind.
  destruct (run_runtime_url w) as (url & w1 & -> & Htr & _).
  rewrite run_bind.
  destruct (dict_items_keys meta [] (NoDup_nil_2)) as [Hnd Hkeys].
  match goal with
  | |- context [Executor.merge_extra_meta ?items ?d] =>
      destruct (merge_extra_meta_adds items d Hnd) as (d' & -> & Hsub & Hall)
  end.
  { apply Forall_forall. intros [k v] Hin. simpl.
    apply eq_None_not_Some. intros Hsome.
    pose proof (base_fields func_key data_key output_key status_key cancel_key
                  callset_id call_id extra_env data_byte_range use_cached_runtime
                  job_max_runtime url k) as Hbase.
    cbn zeta in Hbase. apply (proj1 Hbase) in Hsome.
    apply (Hfresh k); [|done].
    assert (k ∈ (dict_items meta).*1) as Hk
      by (apply list_elem_of_fmap; by exists (k, v)).
    apply Hkeys in Hk as [Hnil|Hm]; [by apply elem_of_nil in Hnil | done]. }
  cbn [run bind trigger time handle fst snd returned trace record tick].
  split; [done|]. eexists. split; [by rewrite Htr, <- app_assoc|].
  intros k v Hin Hne Hov.
  assert ((<["host_submit_time" := PFloat (clock_at (clock_reads w1))]> d') !! k
          = Some v) as Hk.
  { rewrite lookup_insert_ne by done. by apply Hall. }
  destruct overwrite_invoke_args as [args|]; [|done].
  unfold dict_update. simpl in Hov. by rewrite lookup_union_r.
Qed.

End SanityCheck.

(** ** Calls served in turn *)

Section Progress.
Context `{Collaborators}.
Variable self : executor.

Lemma finishes_within_mono {A} (n : nat) :
  forall (m : nat) (p : prog A),
    (n <= m)%nat -> finishes_within n p -> finishes_within m p.
Proof.
  induction n as [|n IH]; intros m p Hle Hp.
  - destruct p, m; done.
  - destruct m as [|m]; [lia|]. destruct p; try done.
    simpl in *. intros x. apply (IH m); [lia | apply Hp].
Qed.

Lemma finishes_within_bind {A B} (n m : nat) :
  forall (p : prog A) (f : A -> prog B),
    finishes_within n p -> (forall a, finishes_within m (f a)) ->
    finishes_within (n + m) (bind p f).
Proof.
  induction n as [|n IH]; intros p f Hp Hf.
  - destruct p; try done; simpl; [apply Hf | by destruct m..].
  - destruct p as [a|e| |X ev k].
    + cbn [bind]. apply (finishes_within_mono m); [lia | apply Hf].
    + done.
    + done.
    + cbn [bind]. change (S n + m)%nat with (S (n + m)).
      cbn [finishes_within] in *. intros x. by apply IH.
Qed.

Lemma merge_extra_meta_finishes (items : list (string * pyval)) :
  forall arg_dict, finishes_within 0 (Executor.merge_extra_meta items arg_dict).
Proof.
  induction items as [|[k v] rest IH]; intros arg_dict; simpl; [done|].
  destruct (arg_dict !! k); [done | apply IH].
Qed.

Lemma invoke_with_keys_finishes func_key data_key output_key status_key
    cancel_key callset_id call_id extra_env extra_meta data_byte_range
    use_cached_runtime host_job_meta job_max_runtime overwrite_invoke_args :
  finishes_within 6
    (Executor.invoke_with_keys self func_key data_key output_key status_key
       cancel_key callset_id call_id extra_env extra_meta data_byte_range
       use_cached_runtime host_job_meta job_max_runtime overwrite_invoke_args).
Proof.
  unfold Executor.invoke_with_keys, mbind, prog_bind.
  apply (finishes_within_bind 1 5).
  { destruct (self_runtime_urls self) as [[| | | | | | |[|u urls]| |]|]; done. }
  intros runtime_url. apply (finishes_within_bind 0 5).
  { destruct extra_meta; [apply merge_extra_meta_finishes | done]. }
  intros arg_dict. simpl. done.
Qed.

Lemma invoke_finishes extra_env extra_meta use_cached_runtime
    overwrite_invoke_args data_str callset_id call_id func_key host_job_meta
    agg_data_key data_byte_range :
  finishes_within 11
    (Executor.invoke self extra_env extra_meta use_cached_runtime
       overwrite_invoke_args data_str callset_id call_id func_key host_job_meta
       agg_data_key data_byte_range).
Proof.
  unfold Executor.invoke.
  destruct (create_keys _ _ _) as [[[data_key output_key] status_key] cancel_key].
  unfold mbind, prog_bind.
  apply (finishes_within_bind 1 10); [done|]. intros now.
  apply (finishes_within_bind 4 6).
  { destruct agg_data_key; [done|]. simpl. done. }
  intros [data_key' host_job_meta']. apply invoke_with_keys_finishes.
Qed.

(** Without caller metadata a call raises nothing. *)
Lemma invoke_no_meta_sat extra_env use_cached_runtime overwrite_invoke_args
    data_str callset_id call_id func_key host_job_meta agg_data_key
    data_byte_range :
  sat (fun _ => True) (fun _ => True) (fun _ => False)
    (Executor.invoke self extra_env None use_cached_runtime
       overwrite_invoke_args data_str callset_id call_id func_key host_job_meta
       agg_data_key data_byte_range).
Proof.
  unfold Executor.invoke, Executor.invoke_with_keys.
  destruct (create_keys _ _ _) as [[[data_key output_key] status_key] cancel_key].
  destruct agg_data_key as [agg_data_key|],
    (self_runtime_urls self) as [[| | | | | | |[|u urls]| |]|];
    cbn [mbind prog_bind bind trigger time Executor.put_data];
    repeat first [ apply sat_ret; done
                 | apply sat_vis; [cbn [emitted]; repeat constructor | intros ?] ].
Qed.

Lemma run_pool_app {A} (threads : Z) (s1 s2 : list nat) :
  forall (pool : list (task A)) (w : world),
    run_pool threads (s1 ++ s2) pool w
    = run_pool threads s2 (run_pool threads s1 pool w).1
        (run_pool threads s1 pool w).2.
Proof.
  induction s1 as [|i s1 IH]; intros pool w; simpl; [done|].
  destruct (step_pool threads pool i w) as [pool' w']. apply IH.
Qed.

Lemma filter_none {A} (P : A -> Prop) `{forall x, Decision (P x)} (l : list A) :
  (forall x, x ∈ l -> ~ P x) -> filter P l = [].
Proof.
  induction l as [|x l IH]; intros Hall; [done|].
  rewrite filter_cons_False by (apply Hall; by left).
  apply IH. intros y Hy. apply Hall. by right.
Qed.

Lemma step_task_started {A} (t : task A) (w : world) :
  started (step_task t w).1 = true.
Proof.
  unfold step_task. destruct (body t); try done. by destruct (handle ev w).
Qed.

Lemma step_task_finishes {A} (t : task A) (w : world) (k : nat) :
  finishes_within k (body t) ->
  finishes_within (Nat.pred k) (body (step_task t w).1).
Proof.
  unfold step_task. intros Hk.
  destruct (body t) as [a|e| |X ev kont] eqn:Hb.
  - cbn [fst body]. by destruct (Nat.pred k).
  - cbn [fst body]. by destruct (Nat.pred k).
  - cbn [fst body]. by destruct (Nat.pred k).
  - destruct (handle ev w) as [x w']. cbn [fst body].
    destruct k as [|k]; [done|]. apply Hk.
Qed.

(** The next call of the queue may move when the calls before it are
    over and the calls after it have not started. *)
Lemma may_step_next {A} (threads : Z) (pool : list (task A)) (i : nat) (t : task A) :
  1 <= threads ->
  (forall j t', pool !! j = Some t' -> (j < i)%nat ->
     started t' = true /\ finishes_within 0 (body t')) ->
  (forall j t', pool !! j = Some t' -> (i < j)%nat -> started t' = false) ->
  pool !! i = Some t ->
  may_step threads pool i = true.
Proof.
  intros Hth Hbefore Hafter Hi. unfold may_step. rewrite Hi.
  destruct (started t) eqn:Hst; [done|]. cbn [orb].
  apply andb_true_iff. split.
  - apply forallb_forall. intros t' Hin.
    apply list_elem_of_In, list_elem_of_lookup in Hin as [j Hj].
    pose proof (lookup_lt_Some _ _ _ Hj) as Hlt.
    rewrite length_take in Hlt.
    rewrite lookup_take_lt in Hj by lia.
    by apply (Hbefore j t' Hj ltac:(lia)).
  - assert (filter (fun t' : task A => running t' = true) pool = []) as ->.
    { apply filter_none. intros t' Hin.
      apply list_elem_of_lookup in Hin as [j Hj]. unfold running.
      destruct (Nat.lt_trichotomy j i) as [Hlt|[->|Hgt]].
      - destruct (Hbefore j t' Hj Hlt) as [_ Hdone].
        destruct (body t'); try done; by rewrite andb_false_r.
      - rewrite Hi in Hj. injection Hj as <-. by rewrite Hst.
      - by rewrite (Hafter j t' Hj Hgt). }
    apply Z.ltb_lt. simpl. lia.
Qed.

(** Serving the next call of the queue for one more step than it has
    requests to make brings it to its end. *)
Lemma serve_next {A} (threads : Z) (i k : nat) :
  forall (pool : list (task A)) (w : world) (t : task A),
    1 <= threads ->
    (forall j t', pool !! j = Some t' -> (j < i)%nat ->
       started t' = true /\ finishes_within 0 (body t')) ->
    (forall j t', pool !! j = Some t' -> (i < j)%nat -> started t' = false) ->
    pool !! i = Some t ->
    finishes_within k (body t) ->
    exists t', (run_pool threads (repeat i (S k)) pool w).1 = <[i := t']> pool
               /\ started t' = true /\ finishes_within 0 (body t').
Proof.
  induction k as [|k IH]; intros pool w t Hth Hbefore Hafter Hi Hk.
  - cbn [repeat run_pool]. unfold step_pool.
    rewrite (may_step_next threads pool i t Hth Hbefore Hafter Hi), Hi.
    pose proof (step_task_started t w) as Hst.
    pose proof (step_task_finishes t w 0 Hk) as Hfin.
    destruct (step_task t w) as [t' w']. by exists t'.
  - change (repeat i (S (S k))) with (i :: repeat i (S k)).
    cbn [run_pool]. unfold step_pool.
    rewrite (may_step_next threads pool i t Hth Hbefore Hafter Hi), Hi.
    pose proof (step_task_started t w) as Hst.
    pose proof (step_task_finishes t w (S k) Hk) as Hfin.
    destruct (step_task t w) as [t1 w1]. cbn [fst Nat.pred] in *.
    pose proof (lookup_lt_Some _ _ _ Hi) as Hlt.
    destruct (IH (<[i := t1]> pool) w1 t1 Hth) as (t' & Hrun & Hst' & Hfin').
    + intros j t' Hj Hji. rewrite list_lookup_insert_ne in Hj by lia.
      by apply (Hbefore j).
    + intros j t' Hj Hji. rewrite list_lookup_insert_ne in Hj by lia.
      by apply (Hafter j).
    + by apply list_lookup_insert_eq.
    + done.
    + exists t'. rewrite Hrun, list_insert_insert_eq. done.
Qed.

(** Serving the calls one after the other brings them all to their
    end. *)
Lemma serve_all {A} (threads : Z) (k n : nat) :
  forall (s : nat) (pool : list (task A)) (w : world),
    1 <= threads ->
    (s + n = length pool)%nat ->
    (forall j t, pool !! j = Some t -> (j < s)%nat ->
       started t = true /\ finishes_within 0 (body t)) ->
    (forall j t, pool !! j = Some t -> (s <= j)%nat ->
       started t = false /\ finishes_within k (body t)) ->
    forall j t,
      (run_pool threads (flat_map (fun i => repeat i (S k)) (seq s n)) pool w).1 !! j
      = Some t ->
      finishes_within 0 (body t).
Proof.
  induction n as [|n IH]; intros s pool w Hth Hlen Hbefore Hafter j t Hj.
  - simpl in Hj. apply (Hbefore j t Hj).
    apply lookup_lt_Some in Hj. lia.
  - cbn [seq flat_map] in Hj. rewrite run_pool_app in Hj.
    destruct (lookup_lt_is_Some_2 pool s ltac:(lia)) as [ts Hts].
    destruct (serve_next threads s k pool w ts Hth) as (t' & Hrun & Hst & Hfin);
      try done.
    + intros j' t'' Hj' Hlt. by apply (Hafter j' t'' Hj' ltac:(lia)).
    + by apply (Hafter s ts Hts).
    + rewrite Hrun in Hj.
      eapply (IH (S s) (<[s := t']> pool)); [done| | | |exact Hj].
      * rewrite length_insert. lia.
      * intros j' t'' Hj' Hlt. destruct (decide (j' = s)) as [->|Hne].
        -- rewrite list_lookup_insert_eq in Hj' by lia. by injection Hj' as <-.
        -- rewrite list_lookup_insert_ne in Hj' by done.
           apply (Hbefore j' t'' Hj'). lia.
      * intros j' t'' Hj' Hle. rewrite list_lookup_insert_ne in Hj' by lia.
        apply (Hafter j' t'' Hj'). lia.
Qed.

(** Calls that are over and raise nothing give their results. *)
Lemma collect_over {A} (pool : list (task A)) :
  (forall j t, pool !! j = Some t ->
     finishes_within 0 (body t)
     /\ sat (fun _ => True) (fun _ => True) (fun _ => False) (body t)) ->
  returned (collect pool) = true.
Proof.
  induction pool as [|t rest IH]; intros Hall; [done|].
  destruct (Hall 0%nat t eq_refl) as [Hfin Hsat]. simpl.
  destruct (body t) as [a|e| |X ev k].
  - assert (returned (collect rest) = true) as Hrest.
    { apply IH. intros j t' Hj. by apply (Hall (S j)). }
    by destruct (collect rest).
  - by apply sat_throw_inv in Hsat.
  - by apply sat_not_block in Hsat.
  - done.
Qed.

(** X22.  [map] completes.  Without caller metadata, on an input
    within the item limit, with a pool of at least one thread and no
    excluded module on the cached path, [map] returns normally when the
    calls are served one after the other. *)
Lemma map_served_in_turn func iterdata extra_env invoke_pool_threads
    data_all_as_one use_cached_runtime overwrite_invoke_args exclude_modules
    module_dependencies_key (w : world) :
  1 <= invoke_pool_threads ->
  Executor.exceeds (length iterdata) (self_map_item_limit self) = false ->
  module_dependencies_key = None \/ exclude_modules = None
  \/ exclude_modules = Some [] ->
  returned (Executor.map self func iterdata extra_env None invoke_pool_threads
              data_all_as_one use_cached_runtime overwrite_invoke_args
              exclude_modules module_dependencies_key
              (sequential (length iterdata) 12) w).1 = true.
Proof.
  intros Hth Hlim Hexcl. destruct iterdata as [|d ds]; [done|].
  pose proof (map_phases self func d ds extra_env None invoke_pool_threads
                data_all_as_one use_cached_runtime overwrite_invoke_args
                exclude_modules module_dependencies_key
                (sequential (length (d :: ds)) 12) w Hlim) as Hph.
  pose proof (package_run self func (d :: ds) invoke_pool_threads data_all_as_one
                exclude_modules module_dependencies_key w) as Hp.
  cbn zeta in *. destruct Hp as (setup & _ & _ & _ & Hp).
  destruct (run _ w) as [[j|e|] w1]; cbn [fst snd] in *; [| |done].
  - destruct Hph as (cbs & Hsub & ->). cbn [fst].
    destruct (submit_all_spec _ _ _ _ _ _ _ _ Hsub) as [Hlen Hall].
    rewrite length_seq in Hlen.
    apply collect_over. intros i t Hi. split.
    + eapply (serve_all invoke_pool_threads 11 (length (d :: ds)) 0
                (queued <$> cbs) w1); [done| | | |exact Hi].
      * by rewrite length_fmap.
      * intros i' t' _ Hlt. lia.
      * intros i' t' Hi' _. rewrite list_lookup_fmap in Hi'.
        destruct (cbs !! i') as [cb|] eqn:Hcb; [|done].
        injection Hi' as <-. split; [done|]. cbn [body queued].
        destruct (Hall i' cb Hcb) as (i'' & _ & Hs).
        apply submit_spec in Hs as (data_str & range & _ & -> & _).
        apply invoke_finishes.
    + pose (I := fun (_ : nat) (_ : list call) (p : prog ResponseFuture) =>
                   sat (fun _ => True) (fun _ => True) (fun _ => False) p).
      assert (pool_inv I (fun _ => True) (queued <$> cbs) w1) as Hinit.
      { split; [|done]. intros i' t' Hi'. rewrite list_lookup_fmap in Hi'.
        destruct (cbs !! i') as [cb|] eqn:Hcb; [|done].
        injection Hi' as <-. cbn [body queued].
        destruct (Hall i' cb Hcb) as (i'' & _ & Hs).
        apply submit_spec in Hs as (data_str & range & _ & -> & _).
        apply invoke_no_meta_sat. }
      assert (forall i tr cs p, I i tr p -> I i (tr ++ cs) p) as Hmono by done.
      assert (forall i tr X (ev : event X) k x,
                I i tr (Vis ev k) -> I i (tr ++ emitted ev) (k x)) as Hstep.
      { intros i' tr X ev k x Hs. apply sat_vis_inv in Hs as [_ Hk]. apply Hk. }
      destruct (run_pool_inv I (fun _ => True) Hmono Hstep ltac:(done)
                  invoke_pool_threads (sequential (length (d :: ds)) 12) _ w1
                  Hinit) as [[HI _] _].
      by apply (HI i).
  - destruct Hp as [(Hlt & _)|(_ & _ & (k & m & ms & -> & ->) & _)]; [lia|].
    destruct Hexcl as [?|[?|?]]; done.
Qed.

End Progress.

(** ** The log reader *)

Section LogReader.
Context `{Setup} `{Logs}.

Lemma get_logs_step_eq verbose (request : pyval) printed logs (b : bool)
    (e : log_event) :
  let aws_request_id := format_value request in
  Instance.get_logs_step verbose request (printed, logs, b) e
  = (printed ++ (if verbose then [[PInt (timestamp e); PStr (strip (message e))]]
                 else []),
     logs ++ (if is_marker aws_request_id e || b then [entry e] else []),
     if is_start aws_request_id e then true
     else if is_report aws_request_id e then false else b).
Proof.
  cbn zeta. unfold Instance.get_logs_step, is_marker, is_report, is_start, entry.
  destruct verbose, (contains ("START RequestId: " ++ format_value request) _),
    (contains ("REPORT RequestId: " ++ format_value request) _), b;
    cbn [negb andb orb]; rewrite ?app_nil_r; reflexivity.
Qed.

Lemma get_logs_loop verbose (request : pyval) (events : list log_event) :
  let aws_request_id := format_value request in
  forall printed logs (b : bool),
    fold_left (Instance.get_logs_step verbose request) events (printed, logs, b)
    = (printed ++ (if verbose
                   then (fun e => [PInt (timestamp e); PStr (strip (message e))])
                          <$> events
                   else []),
       logs ++ (entry <$> kept aws_request_id b events),
       fold_left (fun b e => if is_start aws_request_id e then true
                             else if is_report aws_request_id e then false else b)
         events b).
Proof.
  cbn zeta. induction events as [|e rest IH]; intros printed logs b.
  - cbn [fold_left kept fmap list_fmap]. destruct verbose; by rewrite !app_nil_r.
  - cbn [fold_left kept]. rewrite get_logs_step_eq, IH.
    destruct verbose, (is_marker (format_value request) e || b);
      cbn [fmap list_fmap app]; rewrite <- ?app_assoc, ?app_nil_r; reflexivity.
Qed.

(** What [get_logs] returns when its lookups succeed. *)
Lemma get_logs_run (self : attributes) run_status verbose aws_region log_group_name
    log_stream_name aws_request_id :
  log_stream_of self run_status aws_region log_group_name log_stream_name
    aws_request_id ->
  let events := get_log_events aws_region log_group_name log_stream_name in
  Instance.get_logs self run_status verbose
  = inr (if verbose
         then [PStr "log events returned"]
              :: ((fun e => [PInt (timestamp e); PStr (strip (message e))]) <$> events)
         else [],
         entry <$> kept aws_request_id false events).
Proof.
  intros ((account & Hacc & Hreg) & Hg & Hs & request & Hid & Htext). cbn zeta.
  unfold Instance.get_logs. rewrite Hacc, Hreg. cbn [try_]. rewrite Hg, Hs, Hid.
  cbn [try_]. rewrite get_logs_loop, Htext. by destruct verbose.
Qed.

Lemma kept_sublist aws_request_id (events : list log_event) :
  forall b, sublist (kept aws_request_id b events) events.
Proof.
  induction events as [|e rest IH]; intros b; cbn [kept]; [done|].
  destruct (is_marker aws_request_id e || b); cbn [app].
  - apply sublist_skip, IH.
  - apply sublist_cons, IH.
Qed.

Lemma kept_quiet aws_request_id (events : list log_event) (b : bool) :
  Forall (fun e => is_marker aws_request_id e = false) events ->
  kept aws_request_id b events = (if b then events else [])
  /\ fold_left (fun b e => if is_start aws_request_id e then true
                           else if is_report aws_request_id e then false else b)
       events b = b.
Proof.
  induction 1 as [|e rest He _ IH]; [by destruct b|].
  unfold is_marker in He. apply orb_false_iff in He as [Hs Hr].
  cbn [kept fold_left]. unfold is_marker. rewrite Hs, Hr. cbn [orb].
  destruct IH as [-> ->]. by destruct b.
Qed.

Lemma kept_app aws_request_id (pre post : list log_event) :
  forall b,
    kept aws_request_id b (pre ++ post)
    = kept aws_request_id b pre
      ++ kept aws_request_id
           (fold_left (fun b e => if is_start aws_request_id e then true
                                  else if is_report aws_request_id e then false else b)
              pre b)
           post.
Proof.
  induction pre as [|e pre IH]; intros b; [done|].
  cbn [app kept fold_left]. by rewrite IH, app_assoc.
Qed.

(** X1.  When its lookups succeed, [get_logs] returns pairs of the log
    stream and nothing else: the list returned is a sublist of the
    events of the stream, each as its timestamp and its stripped message,
    in the order of the stream. *)
Theorem get_logs_sublist (self : attributes) run_status verbose aws_region
    log_group_name log_stream_name aws_request_id :
  log_stream_of self run_status aws_region log_group_name log_stream_name
    aws_request_id ->
  exists printed this_events_logs,
    Instance.get_logs self run_status verbose = inr (printed, this_events_logs)
    /\ sublist this_events_logs
         (entry <$> get_log_events aws_region log_group_name log_stream_name)
    /\ (length this_events_logs
        <= length (get_log_events aws_region log_group_name log_stream_name))%nat.
Proof.
  intros Hl. rewrite (get_logs_run _ _ _ _ _ _ _ Hl). eexists _, _.
  split; [reflexivity|].
  assert (sublist (entry <$> kept aws_request_id false
                     (get_log_events aws_region log_group_name log_stream_name))
            (entry <$> get_log_events aws_region log_group_name log_stream_name))
    as Hsub by apply fmap_sublist, kept_sublist.
  split; [done|]. apply sublist_length in Hsub. by rewrite !length_fmap in *.
Qed.

(** X2.  [verbose] only controls what is printed: the list returned
    is the same with and without it; without it nothing is printed, and
    with it a header and then one line per event of the stream, kept or
    not, in the order of the stream. *)
Theorem get_logs_verbose (self : attributes) run_status aws_region
    log_group_name log_stream_name aws_request_id :
  log_stream_of self run_status aws_region log_group_name log_stream_name
    aws_request_id ->
  exists printed this_events_logs,
    Instance.get_logs self run_status true = inr (printed, this_events_logs)
    /\ Instance.get_logs self run_status false = inr ([], this_events_logs)
    /\ printed
       = [PStr "log events returned"]
         :: ((fun e => [PInt (timestamp e); PStr (strip (message e))])
               <$> get_log_events aws_region log_group_name log_stream_name).
Proof.
  intros Hl. rewrite !(get_logs_run _ _ _ _ _ _ _ Hl). by eexists _, _.
Qed.

(** X3.  The log of a request.  When the stream holds one line that
    opens the request and a later one that reports it, and no other line
    with a marker of the request, [get_logs] returns the opening line,
    the lines between the two and the report, and none of the lines
    before or after. *)
Theorem get_logs_request_window (self : attributes) run_status verbose aws_region
    log_group_name log_stream_name aws_request_id pre s mid r post :
  log_stream_of self run_status aws_region log_group_name log_stream_name
    aws_request_id ->
  get_log_events aws_region log_group_name log_stream_name
  = pre ++ s :: mid ++ r :: post ->
  Forall (fun e => is_marker aws_request_id e = false) (pre ++ mid ++ post) ->
  is_start aws_request_id s = true ->
  is_report aws_request_id r = true ->
  exists printed,
    Instance.get_logs self run_status verbose
    = inr (printed, entry <$> s :: mid ++ [r]).
Proof.
  intros Hl Hev Hq Hs Hr. rewrite (get_logs_run _ _ _ _ _ _ _ Hl). cbn zeta.
  eexists. do 2 f_equal. rewrite Hev.
  apply Forall_app in Hq as [Hpre Hq]. apply Forall_app in Hq as [Hmid Hpost].
  rewrite kept_app. destruct (kept_quiet _ _ false Hpre) as [-> ->].
  cbn [app kept]. unfold is_marker at 1. rewrite Hs. cbn [orb app].
  f_equal. rewrite kept_app. destruct (kept_quiet _ _ true Hmid) as [-> ->].
  f_equal. cbn [kept]. unfold is_marker at 1. rewrite Hr.
  assert (is_start aws_request_id r = false) as ->.
  { unfold is_report in Hr. by destruct (is_start aws_request_id r). }
  cbn [orb app]. by destruct (kept_quiet _ _ false Hpost) as [-> _].
Qed.

(** X4.  A report without an opening line is still returned: when no
    line of the stream opens the request, [get_logs] returns exactly the
    lines that report it. *)
Theorem get_logs_report_without_start (self : attributes) run_status verbose
    aws_region log_group_name log_stream_name aws_request_id :
  log_stream_of self run_status aws_region log_group_name log_stream_name
    aws_request_id ->
  Forall (fun e => is_start aws_request_id e = false)
    (get_log_events aws_region log_group_name log_stream_name) ->
  exists printed,
    Instance.get_logs self run_status verbose
    = inr (printed,
           entry <$> filter (fun e => is_report aws_request_id e = true)
                       (get_log_events aws_region log_group_name log_stream_name)).
Proof.
  intros Hl Hq. rewrite (get_logs_run _ _ _ _ _ _ _ Hl). cbn zeta.
  eexists. do 2 f_equal.
  induction Hq as [|e rest He _ IH]; [done|].
  cbn [kept]. unfold is_marker. rewrite He. cbn [orb].
  destruct (is_report aws_request_id e) eqn:Hr.
  - rewrite filter_cons_True by done. cbn [orb app]. by rewrite !fmap_cons, IH.
  - rewrite filter_cons_False by (by rewrite Hr). cbn [orb app]. exact IH.
Qed.

(** X5.  A request that is not reported stays open: when a line opens
    the request and no later line reports it, [get_logs] returns every
    line from the opening line to the end of the stream, whatever request
    wrote it. *)
Theorem get_logs_unclosed (self : attributes) run_status verbose aws_region
    log_group_name log_stream_name aws_request_id pre s rest :
  log_stream_of self run_status aws_region log_group_name log_stream_name
    aws_request_id ->
  get_log_events aws_region log_group_name log_stream_name = pre ++ s :: rest ->
  Forall (fun e => is_marker aws_request_id e = false) pre ->
  is_start aws_request_id s = true ->
  Forall (fun e => is_report aws_request_id e = false) rest ->
  exists printed,
    Instance.get_logs self run_status verbose = inr (printed, entry <$> s :: rest).
Proof.
  intros Hl Hev Hpre Hs Hrest. rewrite (get_logs_run _ _ _ _ _ _ _ Hl). cbn zeta.
  assert (kept aws_request_id true rest = rest) as Hopen.
  { clear Hev. induction Hrest as [|e rest He _ IH]; [done|].
    cbn [kept]. rewrite orb_true_r, He. cbn [app].
    destruct (is_start aws_request_id e); by rewrite IH. }
  eexists. rewrite Hev, kept_app.
  destruct (kept_quiet _ _ false Hpre) as [-> ->].
  cbn [app kept]. unfold is_marker at 1. rewrite Hs. cbn [orb app].
  by rewrite Hopen.
Qed.

End LogReader.

(** ** The constructor *)

Section Constructor.
Context `{Collaborators} `{Setup}.

Lemma append_preinstall_inv (info info' : pydict) (entry : pyval) :
  Instance.append_preinstall info entry = inr info' ->
  exists items, info !! "preinstalls" = Some (PList items)
                /\ info' = <["preinstalls" := PList (items ++ [entry])]> info.
Proof.
  unfold Instance.append_preinstall.
  destruct (info !! "preinstalls") as [[| | | | | | |items| |]|]; try done.
  intros [= <-]. by exists items.
Qed.

Lemma init_inv invoker config job_max_runtime (self : attributes) :
  Instance.__init__ invoker config job_max_runtime = inr self ->
  exists runtime items map_item_limit,
    config !! "runtime" = Some runtime
    /\ get_runtime_info runtime !! "preinstalls" = Some (PList items)
    /\ match config !! "scheduler" with
       | Some scheduler =>
           try_ (py_in "map_item_limit" scheduler) (fun present =>
             if present then py_getitem scheduler "map_item_limit" else inr PNone)
       | None => inr PNone
       end = inr map_item_limit
    /\ self = {| attr_invoker := invoker;
                 attr_job_max_runtime := job_max_runtime;
                 attr_config := config;
                 attr_storage_config := extract_storage_config config;
                 attr_storage_prefix := storage_prefix (extract_storage_config config);
                 attr_runtime_meta_info :=
                   <["preinstalls" := PList (items ++ added_preinstalls)]>
                     (get_runtime_info runtime);
                 attr_serializer := Some (PList (items ++ added_preinstalls));
                 attr_map_item_limit := map_item_limit |}.
Proof.
  unfold Instance.__init__. destruct (config !! "runtime") as [runtime|]; [|done].
  destruct (Instance.append_preinstall (get_runtime_info runtime) _) as [e|i1] eqn:H1;
    [done|].
  apply append_preinstall_inv in H1 as (items & Hp & ->). cbn [try_].
  destruct (Instance.append_preinstall _ (PList [PStr "thrift"; _])) as [e|i2] eqn:H2;
    [done|].
  apply append_preinstall_inv in H2 as (items2 & Hp2 & ->). cbn [try_].
  rewrite lookup_insert_eq in Hp2. injection Hp2 as <-.
  destruct (Instance.append_preinstall _ (PList [PStr "Thrift"; _])) as [e|i3] eqn:H3;
    [done|].
  apply append_preinstall_inv in H3 as (items3 & Hp3 & ->). cbn [try_].
  rewrite lookup_insert_eq in Hp3. injection Hp3 as <-.
  rewrite !insert_insert_eq, lookup_insert_eq, <- !app_assoc.
  destruct (match config !! "scheduler" with Some _ => _ | None => _ end)
    as [e|limit] eqn:Hl; [done|].
  cbn [try_]. intros [= <-]. by exists runtime, items, limit.
Qed.

(** X6.  An executor is never built with the default serializer.
    When [__init__] returns, the runtime description had a list of
    preinstalled modules; pandas, thrift and Thrift have been added at
    its end, in this order; and the serializer was built with that list.
    Without preinstalled modules in the runtime description, [__init__]
    raises [KeyError] on the first addition, so the branch that builds
    the default serializer is never taken. *)
Theorem init_preinstalls invoker config job_max_runtime :
  (forall self : attributes,
      Instance.__init__ invoker config job_max_runtime = inr self ->
      exists runtime items,
        config !! "runtime" = Some runtime
        /\ get_runtime_info runtime !! "preinstalls" = Some (PList items)
        /\ attr_runtime_meta_info self !! "preinstalls"
           = Some (PList (items ++ added_preinstalls))
        /\ attr_serializer self = Some (PList (items ++ added_preinstalls))
        /\ forall k, k <> "preinstalls" ->
             attr_runtime_meta_info self !! k = get_runtime_info runtime !! k)
  /\ (forall runtime,
        config !! "runtime" = Some runtime ->
        get_runtime_info runtime !! "preinstalls" = None ->
        Instance.__init__ invoker config job_max_runtime
        = inl (KeyError "preinstalls"))
  /\ (forall runtime items,
        config !! "runtime" = Some runtime ->
        get_runtime_info runtime !! "preinstalls" = Some (PList items) ->
        config !! "scheduler" = None ->
        exists self : attributes,
          Instance.__init__ invoker config job_max_runtime = inr self
          /\ attr_serializer self = Some (PList (items ++ added_preinstalls))).
Proof.
  split; [|split].
  - intros self Hinit.
    apply init_inv in Hinit as (runtime & items & limit & Hr & Hp & _ & ->).
    exists runtime, items. cbn. split; [done|]. split; [done|].
    split; [by rewrite lookup_insert_eq|]. split; [done|].
    intros k Hk. by rewrite lookup_insert_ne.
  - intros runtime Hr Hp. unfold Instance.__init__, Instance.append_preinstall.
    by rewrite Hr, Hp.
  - intros runtime items Hr Hp Hs.
    unfold Instance.__init__, Instance.append_preinstall.
    rewrite Hr, Hp. cbn [try_]. rewrite lookup_insert_eq. cbn [try_].
    rewrite lookup_insert_eq. cbn [try_]. rewrite Hs. cbn [try_].
    eexists. split; [reflexivity|]. cbn. rewrite lookup_insert_eq.
    by rewrite <- !app_assoc.
Qed.

End Constructor.

(** ** One invocation, from the record to the future *)

Section OneCall.
Context `{Collaborators}.
Variable self : executor.

Lemma merge_extra_meta_run (fields : list string) (items : list (string * pyval)) :
  forall (d : pydict) (seen : list string),
    NoDup items.*1 ->
    (forall k, k ∈ seen -> k ∉ items.*1) ->
    (forall k, is_Some (d !! k) <-> k ∈ fields \/ k ∈ seen) ->
    match List.find (fun kv => bool_decide (kv.1 ∈ fields)) items with
    | Some (k, _) =>
        Executor.merge_extra_meta items d
        = Throw (ValueError "Key {} already in dict" [PStr k])
    | None => Executor.merge_extra_meta items d = Ret (list_to_map items ∪ d)
    end.
Proof.
  induction items as [|[k v] rest IH]; intros d seen Hnd Hseen Hd.
  - cbn. by rewrite (left_id ∅ (∪)).
  - cbn [List.find Executor.merge_extra_meta fst]. rewrite fmap_cons in Hnd, Hseen.
    cbn [fst] in Hnd, Hseen. apply NoDup_cons in Hnd as [Hk Hnd].
    destruct (bool_decide_reflect (k ∈ fields)) as [Hin|Hnin].
    + destruct (proj2 (Hd k) (or_introl Hin)) as [x ->]. done.
    + assert (d !! k = None) as ->.
      { apply eq_None_not_Some. intros Hs. apply Hd in Hs as [?|Hs]; [done|].
        apply (Hseen k Hs). by left. }
      specialize (IH (<[k := v]> d) (k :: seen) Hnd).
      assert (list_to_map rest ∪ <[k := v]> d
              = list_to_map ((k, v) :: rest) ∪ d :> pydict) as Heq.
      { cbn [list_to_map foldr uncurry fst snd]. rewrite <- insert_union_l.
        symmetry. apply insert_union_r. by apply not_elem_of_list_to_map_1. }
      rewrite <- Heq. apply IH.
      * intros k' Hk'. apply elem_of_cons in Hk' as [->|Hk']; [done|].
        intros Hr. apply (Hseen k' Hk'). by right.
      * intros k'. rewrite lookup_insert_is_Some, elem_of_cons, Hd.
        destruct (decide (k = k')) as [->|Hne]; [tauto|].
        split; [intros [?|[_ [?|?]]]; [done|tauto..] | intros [?|[?|?]]; [|done|]; tauto].
Qed.

Lemma literal_fields func_key data_key output_key status_key cancel_key callset_id
    call_id extra_env data_byte_range use_cached_runtime job_max_runtime runtime_url
    (k : string) :
  is_Some (arg_dict_literal self func_key data_key output_key status_key cancel_key
             callset_id call_id extra_env data_byte_range use_cached_runtime
             job_max_runtime runtime_url !! k)
  <-> k ∈ fields_at_merge extra_env.
Proof. apply base_fields. Qed.

Lemma run_chosen_url (w : world) :
  run match self_runtime_urls self with
      | Some (PList (u :: urls)) => trigger (RandomChoice (u :: urls))
      | _ => Ret (PStr "")
      end w
  = (Returned (chosen_url self w).1, (chosen_url self w).2).
Proof.
  unfold chosen_url.
  by destruct (self_runtime_urls self) as [[| | | | | | |[|u urls]| |]|].
Qed.

Lemma chosen_url_world (w : world) :
  trace (chosen_url self w).2 = trace w
  /\ clock_reads (chosen_url self w).2 = clock_reads w
  /\ callsets (chosen_url self w).2 = callsets w.
Proof.
  unfold chosen_url.
  by destruct (self_runtime_urls self) as [[| | | | | | |[|u urls]| |]|].
Qed.

(** Everything [invoke_with_keys] does, by cases on the sanity check. *)
Lemma invoke_with_keys_run func_key data_key output_key status_key cancel_key
    callset_id call_id extra_env extra_meta data_byte_range use_cached_runtime
    host_job_meta job_max_runtime overwrite_invoke_args (w : world) :
  let r := run (Executor.invoke_with_keys self func_key data_key output_key
                  status_key cancel_key callset_id call_id extra_env extra_meta
                  data_byte_range use_cached_runtime host_job_meta job_max_runtime
                  overwrite_invoke_args) w in
  let w1 := (chosen_url self w).2 in
  let base := arg_dict_literal self func_key data_key output_key status_key
                cancel_key callset_id call_id extra_env data_byte_range
                use_cached_runtime job_max_runtime (chosen_url self w).1 in
  let t := clock_reads w1 in
  match first_collision extra_env extra_meta with
  | Some (k, _) => r = (Raised (ValueError "Key {} already in dict" [PStr k]), w1)
  | None =>
      let merged : pydict :=
        <["host_submit_time" := PFloat (clock_at t)]>
          (list_to_map (meta_items extra_meta) ∪ base) in
      let a := match overwrite_invoke_args with
               | Some args => dict_update merged args
               | None => merged
               end in
      r = (Returned
             {| call_id := call_id; callset_id := callset_id;
                invoke_metadata :=
                  dict_update
                    (dict_update
                       (<["lambda_invoke_time" :=
                            PFloat (clock_at (S (S t)) - clock_at (S t))]>
                          (<["lambda_invoke_timestamp" := PFloat (clock_at (S t))]>
                             host_job_meta))
                       invoker_config)
                    a;
                storage_path := get_storage_path (self_storage_config self);
                state := invoked |},
           record CInvokerConfig (tick (record (CInvoke a) (tick (tick w1)))))
  end.
Proof.
  cbn zeta. unfold Executor.invoke_with_keys, mbind, prog_bind.
  rewrite run_bind, run_chosen_url.
  fold (arg_dict_literal self func_key data_key output_key status_key cancel_key
          callset_id call_id extra_env data_byte_range use_cached_runtime
          job_max_runtime (chosen_url self w).1).
  set (base := arg_dict_literal _ _ _ _ _ _ _ _ _ _ _ _ _).
  set (w1 := (chosen_url self w).2).
  rewrite run_bind.
  assert (match first_collision extra_env extra_meta with
          | Some (k, _) =>
              match extra_meta with
              | Some meta => Executor.merge_extra_meta (dict_items meta) base
              | None => Ret base
              end = Throw (ValueError "Key {} already in dict" [PStr k])
          | None =>
              match extra_meta with
              | Some meta => Executor.merge_extra_meta (dict_items meta) base
              | None => Ret base
              end = Ret (list_to_map (meta_items extra_meta) ∪ base)
          end) as Hmerge.
  { unfold first_collision, meta_items. destruct extra_meta as [meta|].
    - apply (merge_extra_meta_run _ _ base []).
      + by destruct (dict_items_keys meta [] (NoDup_nil_2)).
      + intros k Hk. by apply elem_of_nil in Hk.
      + intros k. unfold base. rewrite literal_fields. split; [by left|].
        intros [?|Hk]; [done|]. by apply elem_of_nil in Hk.
    - cbn. by rewrite (left_id ∅ (∪)). }
  destruct (first_collision extra_env extra_meta) as [[k v]|]; rewrite Hmerge.
  - reflexivity.
  - cbn [run bind trigger time handle]. destruct overwrite_invoke_args; reflexivity.
Qed.


Lemma first_collision_none extra_env extra_meta :
  first_collision extra_env extra_meta = None
  <-> forall k, k ∈ (meta_items extra_meta).*1 -> k ∉ fields_at_merge extra_env.
Proof.
  unfold first_collision. split.
  - intros Hnone k Hk Hf. apply list_elem_of_fmap in Hk as ([k' v] & -> & Hin).
    apply list_elem_of_In in Hin.
    pose proof (find_none _ _ Hnone _ Hin) as Hb. cbn [fst] in Hb.
    by apply bool_decide_eq_false in Hb.
  - intros Hall. destruct (List.find _ _) as [[k v]|] eqn:Hfind; [|done].
    apply find_some in Hfind as [Hin Hb]. cbn [fst] in Hb.
    apply bool_decide_eq_true in Hb. exfalso. apply (Hall k); [|done].
    apply list_elem_of_fmap. exists (k, v). split; [done|].
    by apply list_elem_of_In.
Qed.

Lemma meta_items_NoDup extra_meta : NoDup (meta_items extra_meta).*1.
Proof.
  destruct extra_meta as [meta|]; cbn; [|constructor].
  by destruct (dict_items_keys meta [] (NoDup_nil_2)).
Qed.

(** The record that the backend receives, field by field. *)
Lemma merged_lookup extra_env extra_meta (base : pydict) (t : Z)
    overwrite_invoke_args (k : string) :
  first_collision extra_env extra_meta = None ->
  (forall k, is_Some (base !! k) <-> k ∈ fields_at_merge extra_env) ->
  let merged : pydict :=
    <["host_submit_time" := PFloat t]> (list_to_map (meta_items extra_meta) ∪ base) in
  match overwrite_invoke_args with
  | Some args => dict_update merged args
  | None => merged
  end !! k
  = match override_of overwrite_invoke_args k with
    | Some v => Some v
    | None =>
        if decide (k = "host_submit_time") then Some (PFloat t)
        else if decide (k ∈ fields_at_merge extra_env) then base !! k
             else (list_to_map (meta_items extra_meta) : pydict) !! k
    end.
Proof.
  intros Hnone Hbase. cbn zeta.
  assert ((<["host_submit_time" := PFloat t]>
             (list_to_map (meta_items extra_meta) ∪ base) : pydict) !! k
          = if decide (k = "host_submit_time") then Some (PFloat t)
            else if decide (k ∈ fields_at_merge extra_env) then base !! k
                 else (list_to_map (meta_items extra_meta) : pydict) !! k) as Hm.
  { destruct (decide (k = "host_submit_time")) as [->|Hne].
    - by rewrite lookup_insert_eq.
    - rewrite lookup_insert_ne by done.
      destruct (decide (k ∈ fields_at_merge extra_env)) as [Hin|Hnin].
      + rewrite lookup_union_r; [done|]. apply not_elem_of_list_to_map_1.
        intros Hk. by apply (proj1 (first_collision_none _ _) Hnone k).
      + rewrite lookup_union_l; [done|]. apply eq_None_not_Some.
        by rewrite Hbase. }
  destruct overwrite_invoke_args as [args|]; cbn [override_of]; [|done].
  unfold dict_update. destruct (args !! k) as [v|] eqn:Hk.
  - by apply lookup_union_Some_l.
  - by rewrite lookup_union_r.
Qed.

(** X8.  The runtime url.  When the runtime description has a
    non-empty list of urls, [invoke_with_keys] draws once from the random
    generator and the record carries one of the urls of the list;
    otherwise (no urls, an empty list, or something that is not a list)
    the generator is left alone and the record carries the empty string.
    The caller's metadata cannot change that; only
    [overwrite_invoke_args] can. *)
Theorem runtime_url_choice func_key data_key output_key status_key cancel_key
    callset_id call_id extra_env extra_meta data_byte_range use_cached_runtime
    host_job_meta job_max_runtime overwrite_invoke_args (w : world) :
  let r := run (Executor.invoke_with_keys self func_key data_key output_key
                  status_key cancel_key callset_id call_id extra_env extra_meta
                  data_byte_range use_cached_runtime host_job_meta job_max_runtime
                  overwrite_invoke_args) w in
  exists new,
    trace r.2 = trace w ++ new
    /\ match self_runtime_urls self with
       | Some (PList (u :: urls)) =>
           random_draws r.2 = S (random_draws w)
           /\ forall a, CInvoke a ∈ new ->
                override_of overwrite_invoke_args "runtime_url" = None ->
                exists url, url ∈ u :: urls /\ a !! "runtime_url" = Some url
       | _ =>
           random_draws r.2 = random_draws w
           /\ forall a, CInvoke a ∈ new ->
                override_of overwrite_invoke_args "runtime_url" = None ->
                a !! "runtime_url" = Some (PStr "")
       end.
Proof.
  pose proof (invoke_with_keys_run func_key data_key output_key status_key
                cancel_key callset_id call_id extra_env extra_meta data_byte_range
                use_cached_runtime host_job_meta job_max_runtime
                overwrite_invoke_args w) as Hrun.
  cbn zeta in *.
  assert (forall url : pyval,
            arg_dict_literal self func_key data_key output_key status_key
              cancel_key callset_id call_id extra_env data_byte_range
              use_cached_runtime job_max_runtime url !! "runtime_url" = Some url)
    as Hurl.
  { intros url. unfold arg_dict_literal. destruct extra_env; by simplify_map_eq. }
  assert ("runtime_url" ∈ fields_at_merge extra_env) as Hfield.
  { unfold fields_at_merge, arg_dict_fields.
    destruct extra_env; apply list_elem_of_In; cbn; tauto. }
  destruct (first_collision extra_env extra_meta) as [[k v]|] eqn:Hcol.
  - rewrite Hrun. cbn [fst snd]. exists [].
    destruct (chosen_url_world w) as (-> & _). rewrite app_nil_r.
    split; [done|]. unfold chosen_url.
    destruct (self_runtime_urls self) as [[| | | | | | |[|u urls]| |]|];
      (split; [done|]); intros a Ha; by apply elem_of_nil in Ha.
  - rewrite Hrun. cbn [fst snd trace record tick].
    destruct (chosen_url_world w) as (-> & _). rewrite <- app_assoc.
    eexists. split; [reflexivity|].
    assert (forall a : pydict,
              CInvoke a ∈ [CInvoke
                  match overwrite_invoke_args with
                  | Some args =>
                      dict_update
                        (<["host_submit_time" :=
                             PFloat (clock_at (clock_reads (chosen_url self w).2))]>
                           (list_to_map (meta_items extra_meta)
                            ∪ arg_dict_literal self func_key data_key output_key
                                status_key cancel_key callset_id call_id extra_env
                                data_byte_range use_cached_runtime job_max_runtime
                                (chosen_url self w).1)) args
                  | None =>
                      <["host_submit_time" :=
                          PFloat (clock_at (clock_reads (chosen_url self w).2))]>
                        (list_to_map (meta_items extra_meta)
                         ∪ arg_dict_literal self func_key data_key output_key
                             status_key cancel_key callset_id call_id extra_env
                             data_byte_range use_cached_runtime job_max_runtime
                             (chosen_url self w).1)
                  end; CInvokerConfig] ->
              override_of overwrite_invoke_args "runtime_url" = None ->
              a !! "runtime_url" = Some (chosen_url self w).1) as Ha.
    { intros a Ha Hov. apply elem_of_cons in Ha as [[= ->]|Ha].
      - pose proof (merged_lookup extra_env extra_meta _
                      (clock_at (clock_reads (chosen_url self w).2))
                      overwrite_invoke_args "runtime_url" Hcol
                      (literal_fields func_key data_key output_key status_key
                         cancel_key callset_id call_id extra_env data_byte_range
                         use_cached_runtime job_max_runtime (chosen_url self w).1))
          as Hl.
        cbn zeta in Hl. rewrite Hl, Hov.
        rewrite decide_False by done. rewrite decide_True by done. apply Hurl.
      - apply list_elem_of_singleton in Ha. discriminate Ha. }
    revert Ha. unfold chosen_url.
    destruct (self_runtime_urls self) as [[| | | | | | |[|u urls]| |]|];
      cbn [fst snd random_draws draw]; intros Ha; (split; [done|]); try exact Ha.
    intros a Hin Hov. eexists. split; [|by apply Ha].
    apply list_elem_of_In, nth_In. apply Nat.mod_upper_bound. done.
Qed.

(** X9.  The sanity check decides.  [invoke_with_keys] looks for the
    first entry of [extra_meta], in the order of [extra_meta.items()],
    whose key is one of the fourteen fields of the literal record, or
    [extra_env] when an environment is given.  With such an entry it
    raises [ValueError] for that key, and by then has neither read the
    clock nor called a collaborator.  Without one (no metadata, or only
    other keys) it returns a future, after exactly one invocation of the
    backend followed by one read of the backend configuration, and three
    readings of the clock. *)
Theorem extra_meta_check func_key data_key output_key status_key cancel_key
    callset_id call_id extra_env extra_meta data_byte_range use_cached_runtime
    host_job_meta job_max_runtime overwrite_invoke_args (w : world) :
  let r := run (Executor.invoke_with_keys self func_key data_key output_key
                  status_key cancel_key callset_id call_id extra_env extra_meta
                  data_byte_range use_cached_runtime host_job_meta job_max_runtime
                  overwrite_invoke_args) w in
  (first_collision extra_env extra_meta = None
   <-> forall k, k ∈ (meta_items extra_meta).*1 -> k ∉ fields_at_merge extra_env)
  /\ match first_collision extra_env extra_meta with
     | Some (k, _) =>
         r.1 = Raised (ValueError "Key {} already in dict" [PStr k])
         /\ trace r.2 = trace w /\ clock_reads r.2 = clock_reads w
     | None =>
         exists fut a,
           r.1 = Returned fut
           /\ trace r.2 = trace w ++ [CInvoke a; CInvokerConfig]
           /\ clock_reads r.2 = (3 + clock_reads w)%nat
     end.
Proof.
  pose proof (invoke_with_keys_run func_key data_key output_key status_key
                cancel_key callset_id call_id extra_env extra_meta data_byte_range
                use_cached_runtime host_job_meta job_max_runtime
                overwrite_invoke_args w) as Hrun.
  cbn zeta in *. split; [apply first_collision_none|].
  destruct (chosen_url_world w) as (Htr & Hclock & _).
  destruct (first_collision extra_env extra_meta) as [[k v]|]; rewrite Hrun.
  - by repeat split.
  - eexists _, _. split; [reflexivity|].
    cbn [snd trace record tick clock_reads]. rewrite Htr, Hclock, <- app_assoc.
    by split.
Qed.

(** X10.  What a future remembers.  The future that
    [invoke_with_keys] returns has the call id and the callset id that
    were passed in, even when [overwrite_invoke_args] sent other ones to
    the backend, and is in state [invoked].  Its metadata holds every
    entry of the record that the backend received; for the other keys the
    backend configuration; then the time of the invocation and its
    duration, as the second reading of the clock and the difference of
    the third and the second; and for the rest the host job metadata that
    was passed in. *)
Theorem future_metadata func_key data_key output_key status_key cancel_key
    callset call extra_env extra_meta data_byte_range use_cached_runtime
    host_job_meta job_max_runtime overwrite_invoke_args (w : world) fut w' :
  run (Executor.invoke_with_keys self func_key data_key output_key status_key
         cancel_key callset call extra_env extra_meta data_byte_range
         use_cached_runtime host_job_meta job_max_runtime overwrite_invoke_args) w
  = (Returned fut, w') ->
  call_id fut = call /\ callset_id fut = callset
  /\ state fut = invoked
  /\ storage_path fut = get_storage_path (self_storage_config self)
  /\ exists a,
       trace w' = trace w ++ [CInvoke a; CInvokerConfig]
       /\ a ⊆ invoke_metadata fut
       /\ (forall k, a !! k = None -> is_Some (invoker_config !! k) ->
             invoke_metadata fut !! k = invoker_config !! k)
       /\ (forall k, a !! k = None -> invoker_config !! k = None ->
             invoke_metadata fut !! k
             = if decide (k = "lambda_invoke_time")
               then Some (PFloat (clock_at (2 + clock_reads w)%nat
                                  - clock_at (1 + clock_reads w)%nat))
               else if decide (k = "lambda_invoke_timestamp")
                    then Some (PFloat (clock_at (1 + clock_reads w)%nat))
                    else host_job_meta !! k).
Proof.
  pose proof (invoke_with_keys_run func_key data_key output_key status_key
                cancel_key callset call extra_env extra_meta data_byte_range
                use_cached_runtime host_job_meta job_max_runtime
                overwrite_invoke_args w) as Hrun.
  cbn zeta in Hrun. destruct (chosen_url_world w) as (Htr & Hclock & _).
  destruct (first_collision extra_env extra_meta) as [[k v]|]; rewrite Hrun;
    [done|].
  intros [= <- <-]. cbn [call_id callset_id state storage_path invoke_metadata
                         trace record tick].
  repeat (split; [done|]).
  match goal with |- context [CInvoke ?x] => set (a := x) end.
  exists a. rewrite Htr, <- app_assoc. split; [reflexivity|].
  unfold dict_update. rewrite Hclock. split; [|split].
  - apply map_union_subseteq_l.
  - intros k0 Hnone [v Hv]. rewrite lookup_union_r by done.
    rewrite Hv. by apply lookup_union_Some_l.
  - intros k0 Hnone Hcfg. rewrite !lookup_union_r by done.
    destruct (decide (k0 = "lambda_invoke_time")) as [->|Hne1].
    { by rewrite lookup_insert_eq. }
    rewrite lookup_insert_ne by done.
    destruct (decide (k0 = "lambda_invoke_timestamp")) as [->|Hne2].
    { by rewrite lookup_insert_eq. }
    by rewrite lookup_insert_ne.
Qed.

(** X11.  The record that the backend receives has exactly these
    keys: the fourteen fields of the literal record, [extra_env] when an
    environment is given, the keys of [extra_meta], [host_submit_time],
    and the keys of [overwrite_invoke_args].  A field of the literal
    record carries the value it was built with unless
    [overwrite_invoke_args] rebinds it; in particular nothing of the host
    job metadata reaches the backend. *)
Theorem invocation_record func_key data_key output_key status_key cancel_key
    callset_id call_id extra_env extra_meta data_byte_range use_cached_runtime
    host_job_meta job_max_runtime overwrite_invoke_args (w : world) fut w' :
  run (Executor.invoke_with_keys self func_key data_key output_key status_key
         cancel_key callset_id call_id extra_env extra_meta data_byte_range
         use_cached_runtime host_job_meta job_max_runtime overwrite_invoke_args) w
  = (Returned fut, w') ->
  exists a url,
    trace w' = trace w ++ [CInvoke a; CInvokerConfig]
    /\ dom a = list_to_set (fields_at_merge extra_env)
               ∪ list_to_set (meta_items extra_meta).*1
               ∪ {["host_submit_time"]} ∪ override_keys overwrite_invoke_args
    /\ (forall k v,
          arg_dict_literal self func_key data_key output_key status_key cancel_key
            callset_id call_id extra_env data_byte_range use_cached_runtime
            job_max_runtime url !! k = Some v ->
          override_of overwrite_invoke_args k = None ->
          a !! k = Some v)
    /\ (override_of overwrite_invoke_args "host_submit_time" = None ->
        a !! "host_submit_time" = Some (PFloat (clock_at (clock_reads w)))).
Proof.
  pose proof (invoke_with_keys_run func_key data_key output_key status_key
                cancel_key callset_id call_id extra_env extra_meta data_byte_range
                use_cached_runtime host_job_meta job_max_runtime
                overwrite_invoke_args w) as Hrun.
  cbn zeta in Hrun. destruct (chosen_url_world w) as (Htr & Hclock & _).
  destruct (first_collision extra_env extra_meta) as [[k v]|] eqn:Hcol;
    rewrite Hrun; [done|].
  intros [= <- <-]. cbn [trace record tick].
  eexists _, (chosen_url self w).1. rewrite Htr, <- app_assoc.
  split; [reflexivity|].
  pose proof (fun k => merged_lookup extra_env extra_meta _
                (clock_at (clock_reads (chosen_url self w).2))
                overwrite_invoke_args k Hcol
                (literal_fields func_key data_key output_key status_key
                   cancel_key callset_id call_id extra_env data_byte_range
                   use_cached_runtime job_max_runtime (chosen_url self w).1))
    as Hl.
  cbn zeta in Hl. split; [|split].
  - apply set_eq. intros k. rewrite elem_of_dom, Hl.
    rewrite !elem_of_union, !elem_of_list_to_set, elem_of_singleton.
    assert (k ∈ override_keys overwrite_invoke_args
            <-> is_Some (override_of overwrite_invoke_args k)) as ->.
    { destruct overwrite_invoke_args as [args|]; cbn.
      - by rewrite elem_of_dom.
      - rewrite is_Some_alt. set_solver. }
    destruct (override_of overwrite_invoke_args k) as [v|].
    { split; [intros _; right; by eexists | by eexists]. }
    destruct (decide (k = "host_submit_time")) as [->|Hne].
    { split; [tauto | by eexists]. }
    destruct (decide (k ∈ fields_at_merge extra_env)) as [Hin|Hnin].
    { rewrite literal_fields. split; [tauto | done]. }
    split.
    + intros [v Hv]. left. left. right.
      apply list_elem_of_fmap. exists (k, v). split; [done|].
      apply elem_of_list_to_map in Hv; [done | apply meta_items_NoDup].
    + intros [[[?|Hk]|?]|Hk]; try done; try (by destruct Hk).
      apply list_elem_of_fmap in Hk as ([k' v] & -> & Hin). exists v.
      apply elem_of_list_to_map; [apply meta_items_NoDup | done].
  - intros k v Hk Hov. rewrite Hl, Hov.
    assert (k ∈ fields_at_merge extra_env) as Hin.
    { eapply (proj1 (literal_fields _ _ _ _ _ _ _ _ _ _ _ _ _)). by eexists. }
    rewrite decide_False.
    + by rewrite decide_True.
    + intros ->. revert Hin. unfold fields_at_merge, arg_dict_fields.
      destruct extra_env; intros Hin; apply list_elem_of_In in Hin; cbn in Hin;
        intuition discriminate.
  - intros Hov. rewrite Hl, Hov. rewrite decide_True by done. by rewrite Hclock.
Qed.

End OneCall.

(** ** Packaging, and the records of a callset *)

Section Callset.
Context `{Collaborators}.
Variable self : executor.

Ltac run_go :=
  cbn [run bind mbind prog_bind trigger time handle serializer fst snd
       Executor.local Executor.ThreadPool trace record tick fresh draw callsets].

(** What [package] does and returns when it does not raise. *)
Lemma package_trace func data invoke_pool_threads data_all_as_one exclude_modules
    module_dependencies_key (w : world) :
  1 <= invoke_pool_threads ->
  module_dependencies_key = None \/ exclude_modules = None
  \/ exclude_modules = Some [] ->
  let cs := callset_id_at (callsets w) in
  let data_strs := dumps <$> data in
  let agg := aggregates data data_all_as_one in
  exists j w',
    run (Executor.package self func data invoke_pool_threads data_all_as_one
           exclude_modules module_dependencies_key) w = (Returned j, w')
    /\ trace w'
       = trace w ++ packaging_calls self func data data_all_as_one exclude_modules
                      module_dependencies_key cs
    /\ job_callset_id j = cs
    /\ job_data_strs j = data_strs
    /\ job_agg_data_key j
       = (if agg then Some (create_agg_data_key (self_storage_prefix self) cs)
          else None)
    /\ job_agg_data_ranges j = (if agg then Some (agg_data data_strs).2 else None)
    /\ job_func_key j = func_key_of self cs module_dependencies_key
    /\ job_host_job_meta j !! "agg_data" = Some (PBool agg)
    /\ job_host_job_meta j !! "data_size_bytes"
       = Some (PInt (Executor.total_size data_strs))
    /\ job_host_job_meta j !! "func_module_str_len"
       = Some (PInt match module_dependencies_key with
                    | None =>
                        Z.of_nat (length (func_module_str_of func
                                            (packaged_paths func data exclude_modules)))
                    | Some _ => 0
                    end).
Proof.
  intros Hth Hexcl. cbn zeta.
  unfold Executor.package, aggregates, packaging_calls, aggregates, func_key_of,
    packaged_paths, func_module_str_of.
  unfold Executor.ThreadPool. rewrite (proj2 (Z.ltb_ge _ _) Hth).
  destruct module_dependencies_key as [key|], exclude_modules as [[|m ms]|];
    try (by destruct Hexcl as [?|[?|?]]);
    run_go; cbn [fmap list_fmap default];
    (destruct (_ && _) eqn:Hagg; [rewrite agg_data_eq|]);
    run_go; rewrite <- ?app_assoc;
    eexists _, _; (split; [reflexivity|]);
    cbn [job_callset_id job_data_strs job_agg_data_key job_agg_data_ranges
         job_func_key job_host_job_meta app Executor.remove_excluded foldl
         trace record tick fresh];
    rewrite <- ?app_assoc;
    repeat split; by simplify_map_eq.
Qed.


Lemma literal_no_submit_time func_key data_key output_key status_key cancel_key
    callset_id call_id extra_env data_byte_range use_cached_runtime job_max_runtime
    runtime_url :
  arg_dict_literal self func_key data_key output_key status_key cancel_key
    callset_id call_id extra_env data_byte_range use_cached_runtime job_max_runtime
    runtime_url !! "host_submit_time" = None.
Proof. unfold arg_dict_literal. destruct extra_env; by simplify_map_eq. Qed.

(** Every invocation of [invoke_with_keys] carries the literal record,
    except under the keys that [overwrite_invoke_args] rebinds. *)
Lemma invoke_with_keys_keeps_sat func_key data_key output_key status_key cancel_key
    callset_id call_id extra_env extra_meta data_byte_range use_cached_runtime
    host_job_meta job_max_runtime overwrite_invoke_args :
  sat (invokes_with (fun a => exists runtime_url,
         keeps overwrite_invoke_args
           (arg_dict_literal self func_key data_key output_key status_key cancel_key
              callset_id call_id extra_env data_byte_range use_cached_runtime
              job_max_runtime runtime_url) a))
      (fun _ => True) key_collision
      (Executor.invoke_with_keys self func_key data_key output_key status_key
         cancel_key callset_id call_id extra_env extra_meta data_byte_range
         use_cached_runtime host_job_meta job_max_runtime overwrite_invoke_args).
Proof.
  unfold Executor.invoke_with_keys.
  eapply (sat_bind _ (fun _ => True)).
  { destruct (self_runtime_urls self) as [[| | | | | | |[|u urls]| |]|];
      repeat first [ by apply sat_ret | apply sat_vis; [by constructor | intros ?] ]. }
  intros runtime_url _.
  fold (arg_dict_literal self func_key data_key output_key status_key cancel_key
          callset_id call_id extra_env data_byte_range use_cached_runtime
          job_max_runtime runtime_url).
  set (base := arg_dict_literal _ _ _ _ _ _ _ _ _ _ _ _ _).
  eapply (sat_bind _ (fun d => base ⊆ d)).
  { destruct extra_meta; [apply merge_extra_meta_sat | by constructor]. }
  intros arg_dict Hsub. cbn [mbind prog_bind bind trigger time].
  apply sat_vis; [constructor|]. intros t.
  apply sat_vis; [constructor|]. intros t'.
  apply sat_vis.
  { cbn [emitted]. apply Forall_singleton. cbn [invokes_with].
    exists runtime_url. intros k v Hk Hov.
    assert (k <> "host_submit_time") as Hne.
    { intros ->. unfold base in Hk. by rewrite literal_no_submit_time in Hk. }
    assert ((<["host_submit_time" := PFloat t]> arg_dict) !! k = Some v) as Hin.
    { rewrite lookup_insert_ne by done. by eapply lookup_weaken. }
    destruct overwrite_invoke_args as [args|]; [|done].
    unfold dict_update. cbn in Hov. by rewrite lookup_union_r. }
  intros []. apply sat_vis; [constructor|]. intros now.
  apply sat_vis; [cbn [emitted]; by apply Forall_singleton|]. intros config.
  by apply sat_ret.
Qed.

(** The same for a call of the pool, with the fields of the call. *)
Lemma invoke_keeps_sat extra_env extra_meta use_cached_runtime overwrite_invoke_args
    data_str callset_id (i : nat) func_key host_job_meta agg_data_key data_byte_range :
  sat (pool_call (keeps overwrite_invoke_args
                    (call_fields self callset_id func_key use_cached_runtime i)))
      (fun _ => True) key_collision
      (Executor.invoke self extra_env extra_meta use_cached_runtime
         overwrite_invoke_args data_str callset_id (format_05d i) func_key
         host_job_meta agg_data_key data_byte_range).
Proof.
  unfold Executor.invoke, call_fields.
  destruct (create_keys _ _ _) as [[[data_key output_key] status_key] cancel_key].
  destruct agg_data_key as [agg_data_key|];
    cbn [mbind prog_bind bind trigger time Executor.put_data];
    repeat (apply sat_vis; [cbn [emitted]; repeat constructor | intros ?]);
    (eapply sat_weaken; [| | |apply invoke_with_keys_keeps_sat]; [|done|done]);
    (intros [] HP; try done; cbn [pool_call invokes_with] in *;
     destruct HP as [url HP]; intros k v Hk Hov; apply HP; [|done];
     unfold arg_dict_literal;
     repeat (apply lookup_insert_Some in Hk as [[<- <-]|[? Hk]];
             [destruct extra_env; vm_compute; reflexivity|]);
     by rewrite lookup_empty in Hk).
Qed.

(** What the tasks promise, the pool keeps, whatever the schedule. *)
Lemma pool_sat {A} (E : call -> Prop) (R : nat -> A -> Prop) (F : exn -> Prop)
    (call_result_objs : list (prog A)) invoke_pool_threads schedule (w : world) :
  (forall i cb, call_result_objs !! i = Some cb -> sat E (R i) F cb) ->
  exists calls,
    trace (run_pool invoke_pool_threads schedule (queued <$> call_result_objs) w).2
    = trace w ++ calls
    /\ Forall E calls
    /\ length (run_pool invoke_pool_threads schedule (queued <$> call_result_objs) w).1
       = length call_result_objs
    /\ forall i (t : task A),
         (run_pool invoke_pool_threads schedule (queued <$> call_result_objs) w).1 !! i
         = Some t ->
         sat E (R i) F (body t).
Proof.
  intros Hcbs.
  pose (I := fun (i : nat) (_ : list call) (p : prog A) => sat E (R i) F p).
  pose (G := fun tr : list call => exists calls, tr = trace w ++ calls /\ Forall E calls).
  assert (forall i tr cs p, I i tr p -> I i (tr ++ cs) p) as Hmono by done.
  assert (forall i tr X (ev : event X) k x,
            I i tr (Vis ev k) -> I i (tr ++ emitted ev) (k x)) as Hstep.
  { intros i tr X ev k x Hs. apply sat_vis_inv in Hs as [_ Hk]. apply Hk. }
  assert (forall i tr X (ev : event X) (k : X -> prog A),
            G tr -> I i tr (Vis ev k) -> G (tr ++ emitted ev)) as HG.
  { intros i tr X ev k (calls & -> & Hc) Hs. apply sat_vis_inv in Hs as [Hev _].
    exists (calls ++ emitted ev). split; [by rewrite app_assoc|].
    by apply Forall_app. }
  assert (pool_inv I G (queued <$> call_result_objs) w) as Hinit.
  { split; [|exists []; by rewrite app_nil_r].
    intros i t Hi. rewrite list_lookup_fmap in Hi.
    destruct (call_result_objs !! i) as [cb|] eqn:Hcb; [|done].
    injection Hi as <-. by apply Hcbs. }
  destruct (run_pool_inv I G Hmono Hstep HG invoke_pool_threads schedule _ w Hinit)
    as [[HI (calls & Hcalls & HE)] Hlen].
  exists calls. rewrite length_fmap in Hlen. done.
Qed.

(** The calls of the pool of [map], for the job that [package]
    returned. *)
Lemma pool_calls extra_env extra_meta use_cached_runtime overwrite_invoke_args
    (j : job) (n : nat) call_result_objs invoke_pool_threads schedule (w : world) :
  Executor.submit_all self extra_env extra_meta use_cached_runtime
    overwrite_invoke_args j (seq 0 n) = inr call_result_objs ->
  exists calls,
    trace (run_pool invoke_pool_threads schedule (queued <$> call_result_objs) w).2
    = trace w ++ calls
    /\ Forall (pool_call (fun a => exists i, (i < n)%nat /\
                 keeps overwrite_invoke_args
                   (call_fields self (job_callset_id j) (job_func_key j)
                      use_cached_runtime i) a)) calls.
Proof.
  intros Hsub.
  destruct (submit_all_spec _ _ _ _ _ _ _ _ Hsub) as [Hlen Hall].
  destruct (pool_sat
              (pool_call (fun a => exists i, (i < n)%nat /\
                 keeps overwrite_invoke_args
                   (call_fields self (job_callset_id j) (job_func_key j)
                      use_cached_runtime i) a))
              (fun _ (_ : ResponseFuture) => True) key_collision call_result_objs
              invoke_pool_threads schedule w) as (calls & Htr & HE & _).
  { intros i cb Hcb. destruct (Hall i cb Hcb) as (i' & Hi' & Hs).
    apply lookup_seq in Hi' as [-> Hlt]. cbn in Hs.
    apply submit_spec in Hs as (data_str & range & _ & -> & _).
    eapply sat_weaken; [| | |apply invoke_keeps_sat]; [|done|done].
    intros [] Hc; try done. cbn [pool_call] in *. by exists i. }
  by exists calls.
Qed.

End Callset.

(** ** [map], from the packaging to the records *)

Section MapCalls.
Context `{Collaborators}.
Variable self : executor.

Lemma total_size_concat (data_strs : list bytes) :
  Executor.total_size data_strs = Z.of_nat (length (concat data_strs)).
Proof.
  unfold Executor.total_size. induction data_strs as [|d rest IH]; [done|].
  cbn [fmap list_fmap foldr concat]. rewrite length_app, IH. lia.
Qed.

(** The trace of [map] on a non-empty input within the limit: what
    [package] did, and then the calls of the pool. *)
Lemma map_trace func d ds extra_env extra_meta invoke_pool_threads data_all_as_one
    use_cached_runtime overwrite_invoke_args exclude_modules module_dependencies_key
    schedule (w : world) :
  Executor.exceeds (length (d :: ds)) (self_map_item_limit self) = false ->
  let r := Executor.map self func (d :: ds) extra_env extra_meta
             invoke_pool_threads data_all_as_one use_cached_runtime
             overwrite_invoke_args exclude_modules module_dependencies_key
             schedule w in
  let p := run (Executor.package self func (d :: ds) invoke_pool_threads
                  data_all_as_one exclude_modules module_dependencies_key) w in
  let cs := callset_id_at (callsets w) in
  exists calls,
    trace r.2 = trace p.2 ++ calls
    /\ Forall (pool_call (fun a => exists i, (i < length (d :: ds))%nat /\
                 keeps overwrite_invoke_args
                   (call_fields self cs (func_key_of self cs module_dependencies_key)
                      use_cached_runtime i) a)) calls.
Proof.
  intros Hlim. cbn zeta.
  pose proof (map_phases self func d ds extra_env extra_meta invoke_pool_threads
                data_all_as_one use_cached_runtime overwrite_invoke_args
                exclude_modules module_dependencies_key schedule w Hlim) as Hph.
  pose proof (package_run self func (d :: ds) invoke_pool_threads data_all_as_one
                exclude_modules module_dependencies_key w) as Hp.
  cbn zeta in *. destruct Hp as (setup & _ & _ & _ & Hp).
  destruct (run (Executor.package _ _ _ _ _ _ _) w) as [[j|e|] w1] eqn:Hrun;
    cbn [fst snd] in *.
  - destruct Hp as (Hth & _ & _ & _ & _ & _ & Hexcl).
    destruct (package_trace self func (d :: ds) invoke_pool_threads data_all_as_one
                exclude_modules module_dependencies_key w Hth Hexcl)
      as (j' & w' & Hrun' & _ & Hcs & _ & _ & _ & Hfk & _).
    rewrite Hrun in Hrun'. injection Hrun' as <- <-.
    destruct Hph as (cbs & Hsub & ->). cbn [snd].
    destruct (pool_calls self extra_env extra_meta use_cached_runtime
                overwrite_invoke_args j _ cbs invoke_pool_threads schedule w1 Hsub)
      as (calls & Htr & Hall).
    exists calls. split; [done|]. by rewrite <- Hfk, <- Hcs.
  - exists []. rewrite Hph. cbn [snd]. by rewrite app_nil_r.
  - exists []. rewrite Hph. cbn [snd]. by rewrite app_nil_r.
Qed.

(** X12.  What [map] stores, and in which order.  On a non-empty
    input within the item limit, with a pool of at least one thread and
    no module excluded on the cached path, [map] first serializes the
    function and the data in one call, ignoring module dependencies
    exactly when a dependency key is given; then uploads the aggregated
    blob, when it aggregates; then, only without a dependency key,
    gathers the data of the module paths that are left after the
    exclusions and uploads the function package under the function key
    of the callset.  After that the pool only uploads data, invokes the
    backend and reads its configuration.  An aggregated blob has fewer
    than [MAX_AGG_DATA_SIZE] bytes. *)
Theorem map_packaging func iterdata extra_env extra_meta invoke_pool_threads
    data_all_as_one use_cached_runtime overwrite_invoke_args exclude_modules
    module_dependencies_key schedule (w : world) :
  iterdata <> [] ->
  Executor.exceeds (length iterdata) (self_map_item_limit self) = false ->
  1 <= invoke_pool_threads ->
  module_dependencies_key = None \/ exclude_modules = None
  \/ exclude_modules = Some [] ->
  let r := Executor.map self func iterdata extra_env extra_meta
             invoke_pool_threads data_all_as_one use_cached_runtime
             overwrite_invoke_args exclude_modules module_dependencies_key
             schedule w in
  exists calls,
    trace r.2
    = trace w ++ packaging_calls self func iterdata data_all_as_one exclude_modules
                   module_dependencies_key (callset_id_at (callsets w))
              ++ calls
    /\ Forall (pool_call (fun _ => True)) calls
    /\ (aggregates iterdata data_all_as_one = true ->
        Z.of_nat (length (concat (dumps <$> iterdata))) < MAX_AGG_DATA_SIZE).
Proof.
  intros Hne Hlim Hth Hexcl. destruct iterdata as [|d ds]; [done|]. cbn zeta.
  destruct (map_trace func d ds extra_env extra_meta invoke_pool_threads
              data_all_as_one use_cached_runtime overwrite_invoke_args
              exclude_modules module_dependencies_key schedule w Hlim)
    as (calls & Htr & Hall).
  destruct (package_trace self func (d :: ds) invoke_pool_threads data_all_as_one
              exclude_modules module_dependencies_key w Hth Hexcl)
    as (j & w' & Hrun & Hsetup & _).
  rewrite Hrun in Htr. cbn [snd] in Htr. rewrite Hsetup, <- app_assoc in Htr.
  exists calls. split; [done|]. split.
  - eapply Forall_impl; [exact Hall|]. by intros [].
  - unfold aggregates. rewrite total_size_concat. intros Hagg.
    apply andb_true_iff in Hagg as [Hlt _]. by apply Z.ltb_lt in Hlt.
Qed.

(** X13.  The records of a callset.  Whatever the input, the options
    and the schedule, every record that [map] hands to the backend is the
    record of one call [i] of the input: unless [overwrite_invoke_args]
    rebinds them, its call id is ["{:05d}".format(i)], its output, status
    and cancellation keys are those of that call in the callset of this
    [map], its function key is the key of the function package of the
    callset, or the key of the module dependencies when a dependency key
    is given, and it carries the maximum runtime, the runtime, the
    storage configuration and the version of the executor, and the
    caller's choice on the cached runtime. *)
Theorem map_invocation_fields func iterdata extra_env extra_meta invoke_pool_threads
    data_all_as_one use_cached_runtime overwrite_invoke_args exclude_modules
    module_dependencies_key schedule (w : world) :
  let r := Executor.map self func iterdata extra_env extra_meta
             invoke_pool_threads data_all_as_one use_cached_runtime
             overwrite_invoke_args exclude_modules module_dependencies_key
             schedule w in
  let cs := callset_id_at (callsets w) in
  exists new,
    trace r.2 = trace w ++ new
    /\ forall a, CInvoke a ∈ new ->
         exists i, (i < length iterdata)%nat
                   /\ keeps overwrite_invoke_args
                        (call_fields self cs
                           (func_key_of self cs module_dependencies_key)
                           use_cached_runtime i) a.
Proof.
  cbn zeta. destruct iterdata as [|d ds].
  { exists []. rewrite app_nil_r. split; [done|]. intros a Ha.
    by apply elem_of_nil in Ha. }
  destruct (Executor.exceeds (length (d :: ds)) (self_map_item_limit self)) eqn:Hlim.
  { unfold Executor.map. rewrite Hlim. exists []. rewrite app_nil_r.
    split; [done|]. intros a Ha. by apply elem_of_nil in Ha. }
  destruct (map_trace func d ds extra_env extra_meta invoke_pool_threads
              data_all_as_one use_cached_runtime overwrite_invoke_args
              exclude_modules module_dependencies_key schedule w Hlim)
    as (calls & Htr & Hall).
  pose proof (package_run self func (d :: ds) invoke_pool_threads data_all_as_one
                exclude_modules module_dependencies_key w) as Hp.
  cbn zeta in Hp. destruct Hp as (setup & Hsetup & Hinv & _).
  exists (setup ++ calls). rewrite Htr, Hsetup, <- app_assoc. split; [done|].
  intros a Ha. apply elem_of_app in Ha as [Ha|Ha].
  - eapply Forall_forall in Hinv; [|exact Ha]. discriminate Hinv.
  - eapply Forall_forall in Hall; [|exact Ha]. exact Hall.
Qed.


(** A call whose metadata collides with the record raises, and invokes
    nothing. *)
Lemma invoke_collision_sat extra_env extra_meta use_cached_runtime
    overwrite_invoke_args data_str callset_id call_id func_key host_job_meta
    agg_data_key data_byte_range (k : string) (v : pyval) :
  first_collision extra_env extra_meta = Some (k, v) ->
  sat (fun c => is_invoke c = false) (fun _ : ResponseFuture => False)
      (fun e => e = ValueError "Key {} already in dict" [PStr k])
      (Executor.invoke self extra_env extra_meta use_cached_runtime
         overwrite_invoke_args data_str callset_id call_id func_key host_job_meta
         agg_data_key data_byte_range).
Proof.
  intros Hcol. unfold Executor.invoke.
  destruct (create_keys _ _ _) as [[[data_key output_key] status_key] cancel_key].
  assert (forall data_key host_job_meta,
            sat (fun c => is_invoke c = false) (fun _ : ResponseFuture => False)
              (fun e => e = ValueError "Key {} already in dict" [PStr k])
              (Executor.invoke_with_keys self func_key data_key output_key
                 status_key cancel_key callset_id call_id extra_env extra_meta
                 data_byte_range use_cached_runtime host_job_meta
                 (self_job_max_runtime self) overwrite_invoke_args)) as Hkeys.
  { intros dk hjm. unfold Executor.invoke_with_keys.
    eapply (sat_bind _ (fun _ => True)).
    { destruct (self_runtime_urls self) as [[| | | | | | |[|u urls]| |]|];
        repeat first [ by apply sat_ret | apply sat_vis; [by constructor | intros ?] ]. }
    intros runtime_url _.
    fold (arg_dict_literal self func_key dk output_key status_key cancel_key
            callset_id call_id extra_env data_byte_range use_cached_runtime
            (self_job_max_runtime self) runtime_url).
    unfold first_collision, meta_items in Hcol.
    destruct extra_meta as [meta|]; [|done].
    pose proof (merge_extra_meta_run (fields_at_merge extra_env)
                  (dict_items meta)
                  (arg_dict_literal self func_key dk output_key status_key
                     cancel_key callset_id call_id extra_env data_byte_range
                     use_cached_runtime (self_job_max_runtime self) runtime_url) [])
      as Hm.
    rewrite Hcol in Hm. cbn [mbind prog_bind]. rewrite Hm; [by constructor|..].
    - by destruct (dict_items_keys meta [] (NoDup_nil_2)).
    - intros k' Hk'. by apply elem_of_nil in Hk'.
    - intros k'. rewrite literal_fields. split; [by left|].
      intros [?|Hk']; [done|]. by apply elem_of_nil in Hk'. }
  destruct agg_data_key as [agg_data_key|];
    cbn [mbind prog_bind bind trigger time Executor.put_data];
    repeat (apply sat_vis; [cbn [emitted]; repeat constructor | intros ?]);
    apply Hkeys.
Qed.

Lemma collect_first {A} (t : task A) (rest : list (task A)) (e : exn) :
  body t = Throw e -> collect (t :: rest) = Raised e.
Proof. intros Hb. cbn. by rewrite Hb. Qed.

(** X14.  A metadata key that collides with the record stops the
    whole [map].  When an entry of [extra_meta] has the key of a field of
    the record, [map] on a non-empty input never returns normally and the
    backend is not invoked once, whatever the schedule; past the item
    limit and the packaging, the only exception that [map] raises is the
    [ValueError] of the sanity check for the first such key, and it does
    raise it when the calls are served one after the other. *)
Theorem map_extra_meta_collision func iterdata extra_env extra_meta
    invoke_pool_threads data_all_as_one use_cached_runtime overwrite_invoke_args
    exclude_modules module_dependencies_key schedule (w : world) (k : string)
    (v : pyval) :
  first_collision extra_env extra_meta = Some (k, v) ->
  iterdata <> [] ->
  let map_with := Executor.map self func iterdata extra_env extra_meta
                    invoke_pool_threads data_all_as_one use_cached_runtime
                    overwrite_invoke_args exclude_modules module_dependencies_key in
  (exists new, trace (map_with schedule w).2 = trace w ++ new
               /\ Forall (fun c => is_invoke c = false) new)
  /\ returned (map_with schedule w).1 = false
  /\ (Executor.exceeds (length iterdata) (self_map_item_limit self) = false ->
      1 <= invoke_pool_threads ->
      module_dependencies_key = None \/ exclude_modules = None
      \/ exclude_modules = Some [] ->
      (forall e, (map_with schedule w).1 = Raised e ->
         e = ValueError "Key {} already in dict" [PStr k])
      /\ (map_with (sequential (length iterdata) 12) w).1
         = Raised (ValueError "Key {} already in dict" [PStr k])).
Proof.
  intros Hcol Hne. destruct iterdata as [|d ds]; [done|]. cbn zeta.
  destruct (Executor.exceeds (length (d :: ds)) (self_map_item_limit self)) eqn:Hlim.
  { unfold Executor.map. rewrite Hlim. cbn [fst snd returned].
    split; [exists []; by rewrite app_nil_r|]. by split. }
  assert (forall schedule,
            let r := Executor.map self func (d :: ds) extra_env extra_meta
                       invoke_pool_threads data_all_as_one use_cached_runtime
                       overwrite_invoke_args exclude_modules module_dependencies_key
                       schedule w in
            let p := run (Executor.package self func (d :: ds) invoke_pool_threads
                            data_all_as_one exclude_modules module_dependencies_key)
                       w in
            match p.1 with
            | Returned j =>
                exists cbs calls,
                  r.1 = collect (run_pool invoke_pool_threads schedule
                                   (queued <$> cbs) p.2).1
                  /\ trace r.2 = trace p.2 ++ calls
                  /\ Forall (fun c => is_invoke c = false) calls
                  /\ length cbs = length (d :: ds)
                  /\ length (run_pool invoke_pool_threads schedule
                               (queued <$> cbs) p.2).1 = length cbs
                  /\ (forall i cb, cbs !! i = Some cb -> finishes_within 11 cb)
                  /\ forall i (t : task ResponseFuture),
                       (run_pool invoke_pool_threads schedule
                          (queued <$> cbs) p.2).1 !! i = Some t ->
                       sat (fun c => is_invoke c = false)
                         (fun _ : ResponseFuture => False)
                         (fun e => e = ValueError "Key {} already in dict" [PStr k])
                         (body t)
            | Raised e => r = (Raised e, p.2)
            | Blocked => r = (Blocked, p.2)
            end) as Hcases.
  { intros sch. cbn zeta.
    pose proof (map_phases self func d ds extra_env extra_meta invoke_pool_threads
                  data_all_as_one use_cached_runtime overwrite_invoke_args
                  exclude_modules module_dependencies_key sch w Hlim) as Hph.
    cbn zeta in Hph.
    destruct (run (Executor.package _ _ _ _ _ _ _) w) as [[j|e|] w1];
      cbn [fst snd] in *; [|done|done].
    destruct Hph as (cbs & Hsub & ->). cbn [fst snd].
    destruct (submit_all_spec _ _ _ _ _ _ _ _ Hsub) as [Hlen Hall].
    rewrite length_seq in Hlen.
    destruct (pool_sat (fun c => is_invoke c = false)
                (fun _ (_ : ResponseFuture) => False)
                (fun e => e = ValueError "Key {} already in dict" [PStr k])
                cbs invoke_pool_threads sch w1) as (calls & Htr & HE & Hl & Hbody).
    { intros i cb Hcb. destruct (Hall i cb Hcb) as (i' & _ & Hs).
      apply submit_spec in Hs as (data_str & range & _ & -> & _).
      by eapply invoke_collision_sat. }
    exists cbs, calls. repeat (split; [done|]). split; [|done].
    intros i cb Hcb. destruct (Hall i cb Hcb) as (i' & _ & Hs).
    apply submit_spec in Hs as (data_str & range & _ & -> & _).
    apply invoke_finishes. }
  pose proof (package_run self func (d :: ds) invoke_pool_threads data_all_as_one
                exclude_modules module_dependencies_key w) as Hp.
  cbn zeta in Hp. destruct Hp as (setup & Hsetup & Hinv & _ & Hp).
  pose proof (Hcases schedule) as Hsch. pose proof (Hcases (sequential (length (d :: ds)) 12)) as Hseq.
  cbn zeta in Hsch, Hseq.
  destruct (run (Executor.package _ _ _ _ _ _ _) w) as [[j|e|] w1];
    cbn [fst snd] in *.
  - destruct Hsch as (cbs & calls & Hr & Htr & HE & Hlen & Hl & _ & Hbody).
    assert (forall l, collect (run_pool invoke_pool_threads schedule
                                 (queued <$> cbs) w1).1 <> Returned l) as Hnot.
    { intros l Hc. destruct (collect_returned _ _ Hc) as [Hll Hall].
      destruct (lookup_lt_is_Some_2 l 0%nat) as [f Hf].
      { rewrite Hll, Hl, Hlen. cbn. lia. }
      destruct (Hall 0%nat f Hf) as (t & Ht & Hb).
      pose proof (Hbody 0%nat t Ht) as Hs. rewrite Hb in Hs.
      by apply sat_ret_inv in Hs. }
    split; [|split].
    + exists (setup ++ calls). rewrite Htr, Hsetup, <- app_assoc.
      split; [done|]. by apply Forall_app.
    + rewrite Hr. destruct (collect _) as [l| |] eqn:Hc; [|done|done].
      by destruct (Hnot l).
    + intros _ Hth Hexcl. split.
      * intros e. rewrite Hr. intros Hc.
        apply collect_raised in Hc as (i & t & Ht & Hb).
        pose proof (Hbody i t Ht) as Hs. rewrite Hb in Hs.
        by apply sat_throw_inv in Hs.
      * destruct Hseq as (cbs' & calls' & -> & _ & _ & Hlen' & Hl' & Hfin & Hbody').
        destruct (run_pool invoke_pool_threads (sequential (length (d :: ds)) 12)
                    (queued <$> cbs') w1).1 as [|t rest] eqn:Hpool.
        { cbn in Hl'. rewrite Hlen' in Hl'. cbn in Hl'. lia. }
        assert (finishes_within 0 (body t)) as Hdone.
        { eapply (serve_all invoke_pool_threads 11 (length (d :: ds)) 0
                    (queued <$> cbs') w1 Hth) with (j := 0%nat);
            [by rewrite length_fmap| | |].
          - intros i' t' _ Hlt. lia.
          - intros i' t' Hi' _. rewrite list_lookup_fmap in Hi'.
            destruct (cbs' !! i') as [cb|] eqn:Hcb; [|done].
            injection Hi' as <-. split; [done|]. by apply (Hfin i').
          - unfold sequential in Hpool. rewrite Hpool. reflexivity. }
        pose proof (Hbody' 0%nat t eq_refl) as Hs.
        destruct (body t) as [a|e| |X ev kont] eqn:Hb.
        -- by apply sat_ret_inv in Hs.
        -- apply sat_throw_inv in Hs as ->. by apply collect_first.
        -- by apply sat_not_block in Hs.
        -- done.
  - rewrite Hsch. cbn [fst snd returned]. split; [|split; [done|]].
    + exists setup. by split.
    + intros _ Hth Hexcl.
      destruct Hp as [(Hlt & _)|(_ & _ & (k' & m & ms & -> & ->) & _)]; [lia|].
      destruct Hexcl as [?|[?|?]]; done.
  - done.
Qed.

(** X15.  A single call.  [call_async] is [map] on a list of one, with
    the defaults of [map]: when it returns, the future is that of call
    00000 of a new callset, in state [invoked]; the only exceptions it
    raises are [ValueError]s, never an [IndexError] on the empty list;
    and with an item limit below one it always raises, with the world
    left as it was. *)
Theorem call_async_single func data extra_env extra_meta schedule (w : world) :
  let r := Executor.call_async self func data extra_env extra_meta schedule w in
  (forall fut, r.1 = Returned fut ->
     call_id fut = "00000" /\ callset_id fut = callset_id_at (callsets w)
     /\ state fut = invoked)
  /\ (forall e, r.1 = Raised e -> exists msg args, e = ValueError msg args)
  /\ (forall limit, self_map_item_limit self = Some limit -> limit < 1 ->
        exists msg, r = (Raised (ValueError msg [PInt 1; PInt limit]), w)).
Proof.
  cbn zeta. unfold Executor.call_async.
  destruct (Executor.exceeds (length [data]) (self_map_item_limit self)) eqn:Hlim.
  { unfold Executor.map. rewrite Hlim. cbn [fst snd].
    split; [done|]. split; [intros e [= <-]; by eexists _, _|].
    intros limit Hl _. rewrite Hl. by eexists. }
  assert (forall limit, self_map_item_limit self = Some limit -> limit < 1 -> False)
    as Hnolimit.
  { intros limit Hlimit Hlt. unfold Executor.exceeds in Hlim.
    rewrite Hlimit, Z.gtb_ltb in Hlim. apply Z.ltb_ge in Hlim. cbn in Hlim. lia. }
  pose proof (map_phases self func data [] extra_env extra_meta 64 true true None
                None None schedule w Hlim) as Hph.
  pose proof (package_run self func [data] 64 true None None w) as Hp.
  cbn zeta in Hph, Hp. destruct Hp as (setup & _ & _ & _ & Hp).
  destruct (run (Executor.package _ _ _ _ _ _ _) w) as [[j|e|] w1];
    cbn [fst snd] in *.
  - destruct Hp as (_ & Hcs & _).
    destruct Hph as (cbs & Hsub & ->).
    destruct (submit_all_spec _ _ _ _ _ _ _ _ Hsub) as [Hlen Hall].
    destruct (pool_sat (fun _ => True)
                (fun i => future_of (job_callset_id j) (format_05d i)) key_collision
                cbs 64 schedule w1) as (calls & _ & _ & Hl & Hbody).
    { intros i cb Hcb. destruct (Hall i cb Hcb) as (i' & Hi' & Hs).
      apply lookup_seq in Hi' as [-> _]. cbn in Hs.
      apply submit_spec in Hs as (data_str & range & _ & -> & _).
      apply invoke_future_sat. }
    destruct (collect _) as [l|e|] eqn:Hc.
    + destruct (collect_returned _ _ Hc) as [Hll Hfut].
      rewrite Hl, Hlen in Hll. destruct l as [|fut [|]]; try discriminate Hll.
      cbn [fst]. split; [|split; [done|]].
      * intros ? [= <-]. destruct (Hfut 0%nat fut eq_refl) as (t & Ht & Hb).
        pose proof (Hbody 0%nat t Ht) as Hs. rewrite Hb in Hs.
        apply sat_ret_inv in Hs as (? & ? & ?). by rewrite <- Hcs.
      * intros limit Hlimit Hlt. by destruct (Hnolimit limit).
    + cbn [fst]. split; [done|]. split.
      * intros ? [= <-]. apply collect_raised in Hc as (i & t & Ht & Hb).
        pose proof (Hbody i t Ht) as Hs. rewrite Hb in Hs.
        apply sat_throw_inv in Hs as [k ->]. by eexists _, _.
      * intros limit Hlimit Hlt. by destruct (Hnolimit limit).
    + cbn [fst]. split; [done|]. split; [done|].
      intros limit Hlimit Hlt. by destruct (Hnolimit limit).
  - destruct Hp as [(Hlt & _)|(_ & _ & (k' & m & ms & ? & ?) & _)]; [lia | done].
  - done.
Qed.

End MapCalls.

(** ** More on [agg_data] *)

Section AggData.

Lemma ranges_from_app (xs ys : list bytes) :
  forall pos,
    ranges_from pos (xs ++ ys)
    = ranges_from pos xs ++ ranges_from (pos + Z.of_nat (length (concat xs))) ys.
Proof.
  induction xs as [|x xs IH]; intros pos; cbn [app ranges_from concat].
  - by rewrite Z.add_0_r.
  - rewrite IH, length_app. do 3 f_equal. lia.
Qed.

Lemma ranges_from_shift (l : list bytes) (d : Z) :
  forall pos,
    ranges_from (pos + d) l = (fun r : Z * Z => (r.1 + d, r.2 + d)) <$> ranges_from pos l.
Proof.
  induction l as [|x l IH]; intros pos; cbn [ranges_from fmap list_fmap]; [done|].
  cbn [fst snd]. f_equal; [f_equal; lia|].
  rewrite <- IH. f_equal. lia.
Qed.

(** X16.  Aggregating in two parts.  The blob of a list of payloads
    that comes in two parts is the blob of the first part followed by
    that of the second, and its ranges are the ranges of the first part
    followed by those of the second, moved by the length of the first
    blob. *)
Theorem agg_data_app (xs ys : list bytes) :
  let n := Z.of_nat (length (agg_data xs).1) in
  agg_data (xs ++ ys)
  = ((agg_data xs).1 ++ (agg_data ys).1,
     (agg_data xs).2 ++ ((fun r : Z * Z => (r.1 + n, r.2 + n)) <$> (agg_data ys).2)).
Proof.
  cbn zeta. rewrite !agg_data_eq. cbn [fst snd].
  rewrite concat_app, ranges_from_app. do 2 f_equal.
  rewrite <- ranges_from_shift. f_equal.
Qed.

(** X17.  The sizes of [agg_data].  The blob has as many bytes as the
    payloads together: the number that [map] compares with
    [MAX_AGG_DATA_SIZE].  The range of a payload starts at the total size
    of the payloads before it and spans the length of the payload; so an
    empty payload gets a range that ends right before it starts, [(0, -1)]
    when it comes first.  No payloads give an empty blob and no range. *)
Theorem agg_data_sizes (payloads : list bytes) :
  Z.of_nat (length (agg_data payloads).1) = Executor.total_size payloads
  /\ (forall i lo hi, (agg_data payloads).2 !! i = Some (lo, hi) ->
        exists p, payloads !! i = Some p
                  /\ lo = Executor.total_size (take i payloads)
                  /\ hi - lo + 1 = Z.of_nat (length p)
                  /\ (p = [] <-> hi < lo))
  /\ agg_data [] = ([], [])
  /\ (forall rest, (agg_data ([] :: rest)).2 !! 0%nat = Some (0, -1)).
Proof.
  rewrite agg_data_eq. cbn [fst snd]. split; [by rewrite total_size_concat|].
  split; [|split; [done|]].
  - intros i lo hi. rewrite ranges_from_lookup.
    destruct (payloads !! i) as [p|]; [|done]. cbn. intros [= <- <-].
    exists p. split; [done|]. rewrite total_size_concat. unfold offset.
    split; [lia|]. split; [lia|]. split.
    + intros ->. cbn. lia.
    + intros Hlt. destruct p; [done|]. cbn in Hlt. lia.
  - intros rest. by rewrite agg_data_eq.
Qed.

End AggData.

(** ** Module dependencies *)

Section Modules.
Context `{Collaborators}.
Variable self : executor.

(** X18.  The modes of [parse_module_dependencies].  Without a hint it
    fails on its first assertion, whatever the modes, and leaves the
    world as it was.  With a hint and [from_shared_storage] alone it
    returns at once: nothing is read, serialized or stored.  Otherwise it
    serializes the function alone, with its module dependencies, and
    gathers the data of all its module paths, between two readings of the
    clock; it stores the package only with [sync_to_shared_storage], under
    the module key of the hint.  It returns no key. *)
Theorem parse_module_dependencies_modes func (w : world) :
  (forall from_shared_storage sync_to_shared_storage,
      run (Executor.parse_module_dependencies self func None from_shared_storage
             sync_to_shared_storage) w
      = (Raised (AssertionError 184), w))
  /\ (forall user_key,
        run (Executor.parse_module_dependencies self func (Some user_key) true false) w
        = (Returned tt, w))
  /\ (forall user_key sync_to_shared_storage,
        let r := run (Executor.parse_module_dependencies self func (Some user_key)
                        false sync_to_shared_storage) w in
        r.1 = Returned tt
        /\ clock_reads r.2 = (2 + clock_reads w)%nat
        /\ trace r.2
           = trace w
             ++ [CSerialize [func] false; CCreateModData (module_paths [func])]
             ++ (if sync_to_shared_storage
                 then [CPutModuleDependencies
                         (create_mod_key (self_storage_prefix self) user_key)
                         (func_module_str_of func (module_paths [func]))]
                 else [])).
Proof.
  split; [|split].
  - by intros [] [].
  - done.
  - intros user_key []; cbn; rewrite <- ?app_assoc; done.
Qed.

Lemma prefix_spec (sub s : string) :
  String.prefix sub s = true <-> exists post, s = (sub ++ post)%string.
Proof.
  revert s. induction sub as [|c sub IH]; intros s.
  - split; [intros _; exists s; by rewrite append_nil_l | by destruct s].
  - destruct s as [|c' s]; cbn [String.prefix].
    { split; [done|]. intros [post Hp]. by rewrite append_cons in Hp. }
    destruct (Ascii.ascii_dec c c') as [->|Hne].
    + rewrite IH. split; intros [post Hp]; exists post.
      * by rewrite append_cons, Hp.
      * rewrite append_cons in Hp. congruence.
    + split; [done|]. intros [post Hp]. rewrite append_cons in Hp. congruence.
Qed.

Lemma contains_spec (sub s : string) :
  contains sub s = true <-> exists pre post, s = (pre ++ sub ++ post)%string.
Proof.
  induction s as [|c s IH].
  - cbn [contains]. rewrite orb_false_r, prefix_spec. split.
    + intros [post Hp]. exists "", post. by rewrite append_nil_l.
    + intros (pre & post & Hp). destruct pre as [|c pre].
      * rewrite append_nil_l in Hp. by exists post.
      * by rewrite append_cons in Hp.
  - cbn [contains]. rewrite orb_true_iff, prefix_spec, IH. split.
    + intros [[post Hp]|(pre & post & Hp)].
      * exists "", post. by rewrite append_nil_l.
      * exists (String c pre), post. by rewrite append_cons, Hp.
    + intros (pre & post & Hp). destruct pre as [|c' pre].
      * left. rewrite append_nil_l in Hp. by exists post.
      * right. exists pre, post. rewrite append_cons in Hp. congruence.
Qed.

Lemma remove_excluded_spec (exclude_modules : list string) :
  forall (mod_paths : gset string) (p : string),
    p ∈ Executor.remove_excluded exclude_modules mod_paths
    <-> p ∈ mod_paths
        /\ forall module, module ∈ exclude_modules ->
             ~ exists pre post, p = (pre ++ module ++ post)%string.
Proof.
  unfold Executor.remove_excluded.
  induction exclude_modules as [|m ms IH]; intros paths p; cbn [foldl].
  - split; [intros Hp; split; [done|] | by intros [? _]].
    intros m Hm. by apply elem_of_nil in Hm.
  - rewrite IH, elem_of_filter. split.
    + intros [[Hc Hp] Hms]. split; [done|]. intros m' Hm'.
      apply elem_of_cons in Hm' as [->|Hm']; [|by apply Hms].
      intros Hsub. apply contains_spec in Hsub. congruence.
    + intros [Hp Hall]. split; [split; [|done]|].
      * destruct (contains m p) eqn:Hc; [|done].
        exfalso. apply (Hall m); [by left|]. by apply contains_spec.
      * intros m' Hm'. apply Hall. by right.
Qed.


(** X19.  Excluded modules.  Without a dependency key, on a non-empty
    input within the item limit and with a pool of at least one thread,
    [map] gathers the module data of, and packages the function with,
    exactly the module paths of the serializer in which no excluded
    module occurs as a substring; the package is uploaded right after the
    module data was gathered.  Excluding the empty string excludes every
    path. *)
Theorem map_excluded_modules func iterdata extra_env extra_meta invoke_pool_threads
    data_all_as_one use_cached_runtime overwrite_invoke_args exclude_modules
    schedule (w : world) :
  iterdata <> [] ->
  Executor.exceeds (length iterdata) (self_map_item_limit self) = false ->
  1 <= invoke_pool_threads ->
  let r := Executor.map self func iterdata extra_env extra_meta
             invoke_pool_threads data_all_as_one use_cached_runtime
             overwrite_invoke_args exclude_modules None schedule w in
  exists paths before after,
    trace r.2
    = trace w ++ before
      ++ CCreateModData paths
         :: CPutFunc (create_func_key (self_storage_prefix self)
                        (callset_id_at (callsets w)))
              (func_module_str_of func paths)
         :: after
    /\ Forall (fun c => is_package_call c = false) (before ++ after)
    /\ (forall p, p ∈ paths
          <-> p ∈ module_paths (func :: iterdata)
              /\ forall module, module ∈ default [] exclude_modules ->
                   ~ exists pre post, p = (pre ++ module ++ post)%string)
    /\ ("" ∈ default [] exclude_modules -> paths = ∅).
Proof.
  intros Hne Hlim Hth. cbn zeta.
  destruct iterdata as [|d ds]; [done|].
  destruct (map_trace self func d ds extra_env extra_meta invoke_pool_threads
              data_all_as_one use_cached_runtime overwrite_invoke_args
              exclude_modules None schedule w Hlim) as (calls & Htr & Hcalls).
  destruct (package_trace self func (d :: ds) invoke_pool_threads data_all_as_one
              exclude_modules None w Hth ltac:(by left))
    as (j & w' & Hrun & Hsetup & _).
  rewrite Hrun in Htr. cbn [snd] in Htr. rewrite Hsetup, <- app_assoc in Htr.
  unfold packaging_calls in Htr. set (iterdata := d :: ds) in *.
  exists (packaged_paths func iterdata exclude_modules),
    (CSerialize (func :: iterdata) false
     :: (if aggregates iterdata data_all_as_one
         then [CPutData (create_agg_data_key (self_storage_prefix self)
                           (callset_id_at (callsets w)))
                 (concat (dumps <$> iterdata))]
         else [])),
    calls.
  split; [|split; [|split]].
  - rewrite Htr. cbn [app]. rewrite <- !app_assoc. cbn [app]. reflexivity.
  - apply Forall_app. split.
    + destruct (aggregates iterdata data_all_as_one); repeat constructor.
    + eapply Forall_impl; [exact Hcalls|]. by intros [].
  - intros p. apply remove_excluded_spec.
  - intros Hempty. apply set_eq. intros p. split; [|set_solver].
    intros Hp. apply remove_excluded_spec in Hp as [_ Hall].
    destruct (Hall "" Hempty). exists "", p. by rewrite !append_nil_l.
Qed.

(** X20.  The key of the module dependencies.  With
    [sync_to_shared_storage], [parse_module_dependencies] stores the
    package of the function under the module key of the hint.  A [map]
    that is given the hint as its dependency key, and no module to
    exclude, neither gathers module data nor stores a package, and every
    record it hands to the backend has that same key as its function key,
    unless [overwrite_invoke_args] rebinds it. *)
Theorem module_dependencies_round_trip func (hint : string) (w0 : world) :
  let key := create_mod_key (self_storage_prefix self) hint in
  trace (run (Executor.parse_module_dependencies self func (Some hint) false true)
           w0).2
  = trace w0 ++ [CSerialize [func] false; CCreateModData (module_paths [func]);
                 CPutModuleDependencies key
                   (func_module_str_of func (module_paths [func]))]
  /\ forall func' iterdata extra_env extra_meta invoke_pool_threads data_all_as_one
       use_cached_runtime overwrite_invoke_args exclude_modules schedule (w : world),
       exclude_modules = None \/ exclude_modules = Some [] ->
       let r := Executor.map self func' iterdata extra_env extra_meta
                  invoke_pool_threads data_all_as_one use_cached_runtime
                  overwrite_invoke_args exclude_modules (Some hint) schedule w in
       exists new,
         trace r.2 = trace w ++ new
         /\ Forall (fun c => is_package_call c = false) new
         /\ forall a, CInvoke a ∈ new ->
              override_of overwrite_invoke_args "func_key" = None ->
              a !! "func_key" = Some (PStr key).
Proof.
  cbn zeta. split; [cbn; by rewrite <- !app_assoc|].
  intros func' iterdata extra_env extra_meta invoke_pool_threads data_all_as_one
    use_cached_runtime overwrite_invoke_args exclude_modules schedule w Hexcl.
  destruct iterdata as [|d ds].
  { exists []. rewrite app_nil_r. split; [done|]. split; [done|].
    intros a Ha. by apply elem_of_nil in Ha. }
  destruct (Executor.exceeds (length (d :: ds)) (self_map_item_limit self)) eqn:Hlim.
  { unfold Executor.map. rewrite Hlim. exists []. rewrite app_nil_r.
    split; [done|]. split; [done|]. intros a Ha. by apply elem_of_nil in Ha. }
  destruct (map_trace self func' d ds extra_env extra_meta invoke_pool_threads
              data_all_as_one use_cached_runtime overwrite_invoke_args
              exclude_modules (Some hint) schedule w Hlim)
    as (calls & Htr & Hall).
  assert (exists setup,
            trace (run (Executor.package self func' (d :: ds) invoke_pool_threads
                          data_all_as_one exclude_modules (Some hint)) w).2
            = trace w ++ setup
            /\ Forall (fun c => is_package_call c = false) setup
            /\ Forall (fun c => is_invoke c = false) setup)
    as (setup & Hsetup & Hpk & Hinv).
  { destruct (Z.ltb_spec invoke_pool_threads 1) as [Hlt|Hge].
    - exists []. unfold Executor.package, Executor.ThreadPool.
      rewrite (proj2 (Z.ltb_lt _ _) Hlt). cbn. by rewrite app_nil_r.
    - destruct (package_trace self func' (d :: ds) invoke_pool_threads
                  data_all_as_one exclude_modules (Some hint) w Hge
                  ltac:(by right)) as (j & w' & Hrun & Htr' & _).
      rewrite Hrun. cbn [snd]. rewrite Htr'.
      eexists. split; [reflexivity|]. unfold packaging_calls.
      destruct (aggregates (d :: ds) data_all_as_one); by repeat constructor. }
  exists (setup ++ calls). rewrite Htr, Hsetup, <- app_assoc.
  split; [done|]. split.
  - apply Forall_app. split; [done|].
    eapply Forall_impl; [exact Hall|]. by intros [].
  - intros a Ha Hov. apply elem_of_app in Ha as [Ha|Ha].
    + eapply Forall_forall in Hinv; [|exact Ha]. discriminate Hinv.
    + eapply Forall_forall in Hall; [|exact Ha]. cbn [pool_call] in Hall.
      destruct Hall as (i & _ & Hkeeps). apply Hkeeps; [|done].
      unfold call_fields, func_key_of.
      destruct (create_keys _ _ _) as [[[? ?] ?] ?]. by simplify_map_eq.
Qed.

End Modules.

(** ** From the configuration to the item limit *)

Section Limit.
Context `{Collaborators} `{Setup}.

(** X7.  The item limit of the configuration is the one that [map]
    enforces.  An executor built from a configuration whose scheduler
    section sets [map_item_limit] to an integer raises [ValueError] on
    every non-empty input longer than that limit, and leaves the world as
    it was; an executor built from a configuration without a scheduler
    section, or whose scheduler section has no [map_item_limit], has no
    limit. *)
Theorem init_map_item_limit invoker config job_max_runtime (self : attributes) :
  Instance.__init__ invoker config job_max_runtime = inr self ->
  (forall items limit,
      config !! "scheduler" = Some (PDict items) ->
      dict_get items "map_item_limit" = Some (PInt limit) ->
      exists pwex : executor,
        Instance.as_executor self = Some pwex
        /\ self_map_item_limit pwex = Some limit
        /\ forall func iterdata extra_env extra_meta invoke_pool_threads
             data_all_as_one use_cached_runtime overwrite_invoke_args
             exclude_modules module_dependencies_key schedule (w : world),
             iterdata <> [] ->
             Z.of_nat (length iterdata) > limit ->
             exists msg,
               Executor.map pwex func iterdata extra_env extra_meta
                 invoke_pool_threads data_all_as_one use_cached_runtime
                 overwrite_invoke_args exclude_modules module_dependencies_key
                 schedule w
               = (Raised (ValueError msg [PInt (Z.of_nat (length iterdata));
                                          PInt limit]), w))
  /\ (config !! "scheduler" = None
      \/ (exists items, config !! "scheduler" = Some (PDict items)
                        /\ dict_get items "map_item_limit" = None) ->
      exists pwex : executor,
        Instance.as_executor self = Some pwex
        /\ self_map_item_limit pwex = None
        /\ forall n, Executor.exceeds n (self_map_item_limit pwex) = false).
Proof.
  intros Hinit.
  apply init_inv in Hinit as (runtime & items0 & limit0 & Hr & _ & Hlimit & ->).
  split.
  - intros items limit Hs Hl. rewrite Hs in Hlimit. cbn in Hlimit.
    rewrite Hl in Hlimit. cbn in Hlimit. injection Hlimit as <-.
    unfold Instance.as_executor. cbn [attr_config attr_map_item_limit]. rewrite Hr.
    eexists. split; [reflexivity|]. cbn [self_map_item_limit]. split; [done|].
    intros func iterdata extra_env extra_meta invoke_pool_threads data_all_as_one
      use_cached_runtime overwrite_invoke_args exclude_modules
      module_dependencies_key schedule w Hne Hgt.
    destruct iterdata as [|d ds]; [done|].
    unfold Executor.map, Executor.exceeds. cbn [self_map_item_limit].
    rewrite (proj2 (Z.gtb_gt _ _) Hgt). by eexists.
  - intros Hs.
    assert (limit0 = PNone) as ->.
    { destruct Hs as [Hs|(items & Hs & Hl)]; rewrite Hs in Hlimit; cbn in Hlimit.
      - by injection Hlimit as <-.
      - rewrite Hl in Hlimit. cbn in Hlimit. by injection Hlimit as <-. }
    unfold Instance.as_executor. cbn [attr_config attr_map_item_limit]. rewrite Hr.
    eexists. split; [reflexivity|]. by cbn.
Qed.

End Limit.

(** ** The host job metadata, from [map] to the futures *)

Section HostJobMeta.
Context `{Collaborators}.
Variable self : executor.

Lemma results_bind {A B} (R1 : A -> Prop) (R : B -> Prop) (p : prog A)
    (f : A -> prog B) :
  results R1 p -> (forall a, R1 a -> results R (f a)) -> results R (bind p f).
Proof.
  intros Hp Hf. induction p as [a|e| |X ev k IH]; cbn [bind results] in *; auto.
Qed.

Lemma results_impl {A} (R R' : A -> Prop) (p : prog A) :
  (forall a, R a -> R' a) -> results R p -> results R' p.
Proof.
  intros HR. induction p as [a|e| |X ev k IH]; cbn [results]; auto.
Qed.

(** What the tasks return, they return in the pool, whatever the
    schedule. *)
Lemma pool_results {A} (R : nat -> A -> Prop) invoke_pool_threads schedule :
  forall (pool : list (task A)) (w : world),
    (forall i (t : task A), pool !! i = Some t -> results (R i) (body t)) ->
    forall i (t : task A),
      (run_pool invoke_pool_threads schedule pool w).1 !! i = Some t ->
      results (R i) (body t).
Proof.
  induction schedule as [|n rest IH]; intros pool w Hpool; cbn [run_pool]; [done|].
  destruct (step_pool invoke_pool_threads pool n w) as [pool' w'] eqn:Hstep.
  apply IH. intros i t Hi. unfold step_pool in Hstep.
  destruct (may_step invoke_pool_threads pool n);
    [|injection Hstep as <- <-; by apply Hpool].
  destruct (pool !! n) as [tn|] eqn:Hn;
    [|injection Hstep as <- <-; by apply Hpool].
  pose proof (Hpool n tn Hn) as Htn. unfold step_task in Hstep.
  destruct (decide (n = i)) as [->|Hne].
  - assert (exists t', pool' = <[i := t']> pool /\ results (R i) (body t'))
      as (t' & -> & Ht').
    { destruct (body tn) as [a|e| |X ev k] eqn:Hb.
      1-3: injection Hstep as <- <-; eexists; (split; [reflexivity|]);
           exact Htn.
      destruct (handle ev w) as [x w1] eqn:Hh. injection Hstep as <- <-.
      eexists. split; [reflexivity|]. cbn [body]. apply Htn.
      exists w. by rewrite Hh. }
    rewrite list_lookup_insert_eq in Hi by (by eapply lookup_lt_Some).
    by injection Hi as <-.
  - assert (pool' !! i = pool !! i) as Heq.
    { destruct (body tn) as [a|e| |X ev k];
        try (injection Hstep as <- <-; by apply list_lookup_insert_ne).
      destruct (handle ev w) as [x w1]. injection Hstep as <- <-.
      by apply list_lookup_insert_ne. }
    rewrite Heq in Hi. by apply Hpool.
Qed.

Lemma merge_extra_meta_results extra_env extra_meta (base : pydict) :
  (forall k, is_Some (base !! k) <-> k ∈ fields_at_merge extra_env) ->
  results (fun d => d = list_to_map (meta_items extra_meta) ∪ base)
    match extra_meta with
    | Some meta => Executor.merge_extra_meta (dict_items meta) base
    | None => Ret base
    end.
Proof.
  intros Hbase. destruct extra_meta as [meta|]; cbn [meta_items].
  - pose proof (merge_extra_meta_run (fields_at_merge extra_env) (dict_items meta)
                  base []) as Hm.
    specialize (Hm (proj1 (dict_items_keys meta [] (NoDup_nil_2)))).
    specialize (Hm ltac:(by intros k' Hk'; apply elem_of_nil in Hk')).
    specialize (Hm ltac:(intros k'; rewrite Hbase; split;
                         [by left | intros [?|Hk']; [done|];
                          by apply elem_of_nil in Hk'])).
    destruct (List.find _ _) as [[k v]|]; by rewrite Hm.
  - cbn. by rewrite (left_id ∅ (∪)).
Qed.

(** The future of [invoke_with_keys] keeps the entries of the host job
    metadata that nothing writes over. *)
Lemma invoke_with_keys_results func_key data_key output_key status_key
    cancel_key callset_id call_id extra_env extra_meta data_byte_range
    use_cached_runtime host_job_meta job_max_runtime overwrite_invoke_args :
  results
    (fun fut => forall k v,
       host_job_meta !! k = Some v ->
       untouched extra_env extra_meta overwrite_invoke_args k ->
       invoke_metadata fut !! k = Some v)
    (Executor.invoke_with_keys self func_key data_key output_key status_key
       cancel_key callset_id call_id extra_env extra_meta data_byte_range
       use_cached_runtime host_job_meta job_max_runtime overwrite_invoke_args).
Proof.
  unfold Executor.invoke_with_keys.
  eapply (results_bind (fun _ => True)).
  { by destruct (self_runtime_urls self) as [[| | | | | | |[|u urls]| |]|]. }
  intros runtime_url _.
  fold (arg_dict_literal self func_key data_key output_key status_key cancel_key
          callset_id call_id extra_env data_byte_range use_cached_runtime
          job_max_runtime runtime_url).
  set (base := arg_dict_literal _ _ _ _ _ _ _ _ _ _ _ _ _).
  eapply (results_bind (fun d => d = list_to_map (meta_items extra_meta) ∪ base)).
  { apply (merge_extra_meta_results extra_env). intros k. apply literal_fields. }
  intros arg_dict ->. cbn [mbind prog_bind bind trigger time results].
  intros t _ t' _ [] _ now _ config [w' ->]. cbn [handle fst _set_state invoke_metadata].
  intros k v Hk (Htime & Hfield & Hmeta & Hov & Hcfg).
  unfold dict_update.
  assert (k <> "host_submit_time" /\ k <> "lambda_invoke_time"
          /\ k <> "lambda_invoke_timestamp") as (Hn1 & Hn2 & Hn3).
  { repeat split; intros ->; apply Htime; apply list_elem_of_In; cbn; tauto. }
  rewrite lookup_union_r.
  - rewrite lookup_union_r by done. by rewrite !lookup_insert_ne.
  - assert ((<["host_submit_time" := PFloat t]>
               (list_to_map (meta_items extra_meta) ∪ base) : pydict) !! k = None)
      as Hnone.
    { rewrite lookup_insert_ne by done. apply lookup_union_None. split.
      - by apply not_elem_of_list_to_map_1.
      - apply eq_None_not_Some. unfold base. by rewrite literal_fields. }
    destruct overwrite_invoke_args as [args|]; [|done].
    cbn in Hov. apply lookup_union_None. by split.
Qed.

Lemma invoke_results extra_env extra_meta use_cached_runtime overwrite_invoke_args
    data_str callset_id call_id func_key host_job_meta agg_data_key data_byte_range :
  results
    (fun fut => forall k v,
       host_job_meta !! k = Some v ->
       untouched extra_env extra_meta overwrite_invoke_args k ->
       invoke_metadata fut !! k = Some v)
    (Executor.invoke self extra_env extra_meta use_cached_runtime
       overwrite_invoke_args data_str callset_id call_id func_key host_job_meta
       agg_data_key data_byte_range).
Proof.
  unfold Executor.invoke.
  destruct (create_keys _ _ _) as [[[data_key output_key] status_key] cancel_key].
  assert (forall k, k ∉ call_timing_keys ->
            k <> "job_invoke_timestamp" /\ k <> "data_upload_time"
            /\ k <> "data_upload_timestamp") as Hkeys.
  { intros k Hk. repeat split; intros ->; apply Hk; apply list_elem_of_In; cbn; tauto. }
  destruct agg_data_key as [agg_data_key|];
    cbn [mbind prog_bind bind trigger time Executor.put_data results];
    intros;
    (eapply results_impl; [|apply invoke_with_keys_results]);
    cbn beta; intros fut Hfut k v Hk Hun; (apply Hfut; [|done]);
    destruct (Hkeys k (proj1 Hun)) as (? & ? & ?);
    by rewrite !lookup_insert_ne.
Qed.

(** X21.  What the futures of a [map] remember of the job.  When [map]
    returns, the metadata of every future says whether the payloads were
    aggregated, how many bytes they have together, and how long the
    function package is (0 with a dependency key), unless the caller's
    metadata or overrides or the backend configuration use one of these
    three keys. *)
Theorem map_future_metadata func iterdata extra_env extra_meta invoke_pool_threads
    data_all_as_one use_cached_runtime overwrite_invoke_args exclude_modules
    module_dependencies_key schedule (w : world) handles w' :
  Executor.map self func iterdata extra_env extra_meta invoke_pool_threads
    data_all_as_one use_cached_runtime overwrite_invoke_args exclude_modules
    module_dependencies_key schedule w = (Returned handles, w') ->
  forall fut, fut ∈ handles ->
    (untouched extra_env extra_meta overwrite_invoke_args "agg_data" ->
     invoke_metadata fut !! "agg_data"
     = Some (PBool (aggregates iterdata data_all_as_one)))
    /\ (untouched extra_env extra_meta overwrite_invoke_args "data_size_bytes" ->
        invoke_metadata fut !! "data_size_bytes"
        = Some (PInt (Executor.total_size (dumps <$> iterdata))))
    /\ (untouched extra_env extra_meta overwrite_invoke_args "func_module_str_len" ->
        invoke_metadata fut !! "func_module_str_len"
        = Some (PInt match module_dependencies_key with
                     | None =>
                         Z.of_nat (length (func_module_str_of func
                                             (packaged_paths func iterdata
                                                exclude_modules)))
                     | Some _ => 0
                     end)).
Proof.
  intros Hmap fut Hfut. destruct iterdata as [|d ds].
  { injection Hmap as <- <-. by apply elem_of_nil in Hfut. }
  destruct (Executor.exceeds (length (d :: ds)) (self_map_item_limit self)) eqn:Hlim.
  { unfold Executor.map in Hmap. by rewrite Hlim in Hmap. }
  pose proof (map_phases self func d ds extra_env extra_meta invoke_pool_threads
                data_all_as_one use_cached_runtime overwrite_invoke_args
                exclude_modules module_dependencies_key schedule w Hlim) as Hph.
  pose proof (package_run self func (d :: ds) invoke_pool_threads data_all_as_one
                exclude_modules module_dependencies_key w) as Hp.
  cbn zeta in Hph, Hp. destruct Hp as (setup & _ & _ & _ & Hp).
  rewrite Hmap in Hph.
  destruct (run (Executor.package _ _ _ _ _ _ _) w) as [[j|e|] w1] eqn:Hrun;
    cbn [fst snd] in *; [|done|done].
  destruct Hp as (Hth & _ & _ & _ & _ & _ & Hexcl).
  destruct (package_trace self func (d :: ds) invoke_pool_threads data_all_as_one
              exclude_modules module_dependencies_key w Hth Hexcl)
    as (j' & w'' & Hrun' & _ & _ & _ & _ & _ & _ & Hagg & Hsize & Hlen).
  rewrite Hrun in Hrun'. injection Hrun' as <- <-.
  destruct Hph as (cbs & Hsub & [= Hcol _]). symmetry in Hcol.
  destruct (collect_returned _ _ Hcol) as [_ Hall].
  apply list_elem_of_lookup in Hfut as [i Hi].
  destruct (Hall i fut Hi) as (t & Ht & Hb).
  pose proof (pool_results
                (fun _ fut => forall k v,
                   job_host_job_meta j !! k = Some v ->
                   untouched extra_env extra_meta overwrite_invoke_args k ->
                   invoke_metadata fut !! k = Some v)
                invoke_pool_threads schedule (queued <$> cbs) w1) as Hpool.
  specialize (Hpool ltac:(
    intros i' t' Hi'; rewrite list_lookup_fmap in Hi';
    destruct (cbs !! i') as [cb|] eqn:Hcb; [|done];
    injection Hi' as <-; cbn [body queued];
    destruct (submit_all_spec _ _ _ _ _ _ _ _ Hsub) as [_ Hspec];
    destruct (Hspec i' cb Hcb) as (i'' & _ & Hs);
    apply submit_spec in Hs as (data_str & range & _ & -> & _);
    apply invoke_results) i t Ht).
  rewrite Hb in Hpool. cbn [results] in Hpool.
  repeat split; intros Hun; by apply Hpool.
Qed.

End HostJobMeta.

(** ** The lookups of the log reader *)

Section LogLookups.
Context `{Setup} `{Logs}.

Lemma py_getitem_error (container : pyval) (k : string) (e : lookup_error) :
  py_getitem container k = inl e -> getitem_error container k e.
Proof.
  unfold py_getitem, getitem_error.
  destruct container as [| | | | | | | |items|];
    try (intros [= <-]; right; split; [intros ? ?; discriminate | reflexivity]).
  destruct (dict_get items k) eqn:Hk; [discriminate|].
  intros [= <-]. left. by exists items.
Qed.

Lemma py_getitem_ok (container : pyval) (k : string) (v : pyval) :
  py_getitem container k = inr v ->
  exists items, container = PDict items /\ dict_get items k = Some v.
Proof.
  unfold py_getitem.
  destruct container as [| | | | | | | |items|]; try discriminate.
  destruct (dict_get items k) eqn:Hk; [|discriminate].
  intros [= <-]. by exists items.
Qed.

(** X24.  What [get_logs] needs.  [get_logs] returns a list exactly
    when the configuration has an account section with a region and the
    run status of the call is a dictionary that names the log group, the
    log stream and the request.  Otherwise it fails on the first of these
    lookups that fails, in this order, whatever the log service holds and
    whether it is verbose or not: with [KeyError] when a dictionary lacks
    the key, and with [TypeError] when the account section or the run
    status is not a dictionary.  In particular, when the region is
    configured, a run status that is not a dictionary ([None] on a future
    whose status has not been fetched) gives [TypeError]. *)
Theorem get_logs_lookups (self : attributes) (run_status : pyval) verbose :
  ((exists out, Instance.get_logs self run_status verbose = inr out)
   <-> exists aws_region log_group_name log_stream_name aws_request_id,
         log_stream_of self run_status aws_region log_group_name log_stream_name
           aws_request_id)
  /\ (forall e, Instance.get_logs self run_status verbose = inl e ->
        Instance.get_logs self run_status (negb verbose) = inl e
        /\ ((attr_config self !! "account" = None /\ e = KeyError "account")
            \/ (exists account,
                  attr_config self !! "account" = Some account
                  /\ getitem_error account "aws_region" e)
            \/ (exists account aws_region,
                  attr_config self !! "account" = Some account
                  /\ py_getitem account "aws_region" = inr aws_region
                  /\ (getitem_error run_status "log_group_name" e
                      \/ (exists items,
                            run_status = PDict items
                            /\ is_Some (dict_get items "log_group_name")
                            /\ dict_get items "log_stream_name" = None
                            /\ e = KeyError "log_stream_name")
                      \/ (exists items,
                            run_status = PDict items
                            /\ is_Some (dict_get items "log_group_name")
                            /\ is_Some (dict_get items "log_stream_name")
                            /\ dict_get items "aws_request_id" = None
                            /\ e = KeyError "aws_request_id")))))
  /\ (forall account aws_region,
        attr_config self !! "account" = Some account ->
        py_getitem account "aws_region" = inr aws_region ->
        (forall items, run_status <> PDict items) ->
        Instance.get_logs self run_status verbose = inl (TypeError run_status)).
Proof.
  split; [|split].
  - split.
    + intros [out Hout]. unfold Instance.get_logs in Hout.
      destruct (attr_config self !! "account") as [account|] eqn:Hacc; [|done].
      destruct (py_getitem account "aws_region") as [e|region] eqn:Hreg; [done|].
      cbn [try_] in Hout.
      destruct (py_getitem run_status "log_group_name") as [e|g] eqn:Hg; [done|].
      cbn [try_] in Hout.
      destruct (py_getitem run_status "log_stream_name") as [e|s] eqn:Hs; [done|].
      cbn [try_] in Hout.
      destruct (py_getitem run_status "aws_request_id") as [e|id] eqn:Hid; [done|].
      exists region, g, s, (format_value id).
      split; [by exists account|]. split; [done|]. split; [done|]. by exists id.
    + intros (region & g & s & id & Hl).
      rewrite (get_logs_run _ _ _ _ _ _ _ Hl). by eexists.
  - intros e. unfold Instance.get_logs.
    destruct (attr_config self !! "account") as [account|] eqn:Hacc;
      [|intros [= <-]; split; [done | by left]].
    destruct (py_getitem account "aws_region") as [e'|region] eqn:Hreg; cbn [try_].
    { intros [= <-]. split; [done|]. right. left. exists account.
      split; [done|]. by apply py_getitem_error. }
    destruct (py_getitem run_status "log_group_name") as [e'|g] eqn:Hg; cbn [try_].
    { intros [= <-]. split; [done|]. right. right. exists account, region.
      split; [done|]. split; [done|]. left. by apply py_getitem_error. }
    apply py_getitem_ok in Hg as (items & -> & Hg).
    unfold py_getitem.
    destruct (dict_get items "log_stream_name") as [s|] eqn:Hs; cbn [try_].
    2:{ intros [= <-]. split; [done|]. right. right. exists account, region.
        split; [done|]. split; [done|]. right. left. exists items.
        by rewrite Hg. }
    destruct (dict_get items "aws_request_id") as [id|] eqn:Hid; cbn [try_].
    2:{ intros [= <-]. split; [done|]. right. right. exists account, region.
        split; [done|]. split; [done|]. right. right. exists items.
        by rewrite Hg, Hs. }
    by destruct (fold_left _ _ _) as [[? ?] ?].
  - intros account region Hacc Hreg Hnd. unfold Instance.get_logs.
    rewrite Hacc, Hreg. cbn [try_].
    destruct run_status as [| | | | | | | |items|]; try reflexivity.
    by destruct (Hnd items).
Qed.

End LogLookups.

(** ** The properties at work on the concrete setting *)

Example format_05d_3 :
  format_05d <$> [0; 1; 2]%nat = ["00000"; "00001"; "00002"].
Proof. reflexivity. Qed.

(** C1 on three payloads, with the last call served first. *)
Lemma map_preserves_order_witness :
  exists handles w',
    Executor.map (Demo.pwex None) Demo.foo Demo.payloads None None 64 true true
      None None None Demo.late_first Demo.w0 = (Returned handles, w')
    /\ length handles = 3%nat
    /\ call_id <$> handles = ["00000"; "00001"; "00002"].
Proof.
  assert (returned (Executor.map (Demo.pwex None) Demo.foo Demo.payloads None None
                      64 true true None None None Demo.late_first Demo.w0).1 = true)
    as Hr by (vm_compute; reflexivity).
  destruct (Executor.map (Demo.pwex None) Demo.foo Demo.payloads None None 64
              true true None None None Demo.late_first Demo.w0)
    as [[handles| |] w'] eqn:Hmap; try discriminate Hr.
  exists handles, w'. split; [reflexivity|].
  destruct (map_preserves_order (Demo.pwex None) _ _ _ _ _ _ _ _ _ _ _ _ _ _ Hmap)
    as [Hlen Hall].
  split; [exact Hlen|].
  destruct handles as [|f0 [|f1 [|f2 [|]]]]; try discriminate Hlen.
  destruct (Hall 0%nat ltac:(simpl; lia)) as (? & [= <-] & H0 & _).
  destruct (Hall 1%nat ltac:(simpl; lia)) as (? & [= <-] & H1 & _).
  destruct (Hall 2%nat ltac:(simpl; lia)) as (? & [= <-] & H2 & _).
  cbn [fmap list_fmap]. rewrite H0, H1, H2. reflexivity.
Defined.

(** C4 as stated fails on an empty input when the limit is negative:
    the length exceeds the limit, and [map] returns the empty list. *)
Lemma map_item_limit_counterexample :
  Executor.exceeds (length (@nil pyobj)) (self_map_item_limit (Demo.pwex (Some (-1))))
  = true
  /\ Executor.map (Demo.pwex (Some (-1))) Demo.foo [] None None 64 true true
       None None None [] Demo.w0 = (Returned [], Demo.w0).
Proof. split; reflexivity. Qed.

(** C4, amended, on three payloads with a limit of two. *)
Lemma map_item_limit_exceeded_witness :
  Demo.payloads <> []
  /\ self_map_item_limit (Demo.pwex (Some 2)) = Some 2
  /\ Z.of_nat (length Demo.payloads) > 2
  /\ Executor.map (Demo.pwex (Some 2)) Demo.foo Demo.payloads None None 64 true true
       None None None Demo.late_first Demo.w0
     = (Raised (ValueError
          "len(data) ={}, exceeding map item limit of {}consider mapping over a smallernumber of items"
          [PInt (Z.of_nat (length Demo.payloads)); PInt 2]), Demo.w0).
Proof.
  assert (Demo.payloads <> []) as Hne by discriminate.
  assert (Z.of_nat (length Demo.payloads) > 2) as Hgt by (simpl; lia).
  split; [exact Hne|]. split; [reflexivity|]. split; [exact Hgt|].
  exact (map_item_limit_exceeded (Demo.pwex (Some 2)) Demo.foo Demo.payloads 2
           None None 64 true true None None None Demo.late_first Demo.w0
           Hne eq_refl Hgt).
Defined.

(** C5 as stated fails at the 100001st input: its call id has six
    characters, and comes before that of its predecessor in string
    order. *)
Lemma call_id_width_counterexample :
  format_05d (10 ^ 5) = "100000"
  /\ String.length (format_05d (10 ^ 5)) <> String.length (format_05d 0)
  /\ String.ltb (format_05d (10 ^ 5 - 1)) (format_05d (10 ^ 5)) = false
  /\ String.ltb (format_05d (10 ^ 5)) (format_05d (10 ^ 5 - 1)) = true.
Proof. vm_compute. repeat split; discriminate. Qed.

(** C7 as stated fails when [overwrite_invoke_args] rebinds [data_key]:
    the payloads are aggregated, and the invocations carry the caller's
    key instead of the aggregated key. *)
Lemma map_aggregation_counterexample :
  let r := Executor.map (Demo.pwex None) Demo.foo Demo.payloads None None 64 true
             true (Some {["data_key" := PStr "elsewhere"]}) None None
             Demo.late_first Demo.w0 in
  aggregates Demo.payloads true = true
  /\ returned r.1 = true
  /\ invoked_field "data_key" (trace r.2)
     = [Some (PStr "elsewhere"); Some (PStr "elsewhere"); Some (PStr "elsewhere")]
  /\ create_agg_data_key (self_storage_prefix (Demo.pwex None)) (callset_id_at 0)
     = "pywren.jobs/callset-0/aggdata.pickle".
Proof. vm_compute. repeat split. Qed.

(** C10 as stated fails when the input exceeds the item limit: [map]
    raises [ValueError] before it reaches the exclusion loop. *)
Lemma map_unbound_mod_paths_counterexample :
  raised (Executor.map (Demo.pwex (Some 2)) Demo.foo Demo.payloads None None 64
            true true None (Some ["numpy"]) (Some "cached") Demo.late_first
            Demo.w0).1
  = Some (ValueError
      "len(data) ={}, exceeding map item limit of {}consider mapping over a smallernumber of items"
      [PInt 3; PInt 2]).
Proof. vm_compute. reflexivity. Qed.

(** C10, amended, on three payloads. *)
Lemma map_unbound_mod_paths_witness :
  Demo.payloads <> []
  /\ Executor.exceeds (length Demo.payloads) (self_map_item_limit (Demo.pwex None))
     = false
  /\ 1 <= 64
  /\ exists w' new,
       Executor.map (Demo.pwex None) Demo.foo Demo.payloads None None 64 true true
         None (Some ("numpy" :: [])) (Some "cached") Demo.late_first Demo.w0
       = (Raised (UnboundLocalError "mod_paths"), w')
       /\ trace w' = trace Demo.w0 ++ new
       /\ Forall (fun c => is_put_func c = false /\ is_invoke c = false) new.
Proof.
  assert (Demo.payloads <> []) as Hne by discriminate.
  assert (1 <= 64) as Hth by lia.
  split; [exact Hne|]. split; [reflexivity|]. split; [exact Hth|].
  exact (map_unbound_mod_paths (Demo.pwex None) Demo.foo Demo.payloads None None 64
           true true None "numpy" [] "cached" Demo.late_first Demo.w0
           Hne eq_refl Hth).
Defined.

(** C6 on the concrete setting: the caller's [host_submit_time] is
    accepted and lost. *)
Example extra_meta_host_submit_time_ex :
  let r := Executor.map (Demo.pwex None) Demo.foo [OVal (PBytes [x01])] None
             (Some [("host_submit_time", PStr "noon")]) 64 true true None None None
             [0; 0; 0; 0; 0; 0; 0; 0]%nat Demo.w0 in
  returned r.1 = true
  /\ invoked_field "host_submit_time" (trace r.2) = [Some (PFloat 1049)].
Proof. vm_compute. repeat split. Qed.

(** The sanity check at work on another field. *)
Example extra_meta_data_key_ex :
  let r := Executor.map (Demo.pwex None) Demo.foo [OVal (PBytes [x01])] None
             (Some [("data_key", PStr "mine")]) 64 true true None None None
             [0; 0; 0; 0; 0; 0; 0; 0]%nat Demo.w0 in
  raised r.1 = Some (ValueError "Key {} already in dict" [PStr "data_key"])
  /\ invoked_field "data_key" (trace r.2) = [].
Proof. vm_compute. repeat split. Qed.

(** C7 on the concrete setting, with and without aggregation. *)
Example map_aggregation_ex :
  let r := Executor.map (Demo.pwex None) Demo.foo Demo.payloads None None 64 true
             true None None None Demo.late_first Demo.w0 in
  filter (fun c => is_put_data c = true) (trace r.2)
  = [CPutData "pywren.jobs/callset-0/aggdata.pickle" [x01; x02; x03]]
  /\ invoked_field "call_id" (trace r.2)
     = [Some (PStr "00002"); Some (PStr "00001"); Some (PStr "00000")]
  /\ invoked_field "data_byte_range" (trace r.2)
     = [Some (PTuple [PInt 2; PInt 2]); Some (PTuple [PInt 2; PInt 1]);
        Some (PTuple [PInt 0; PInt 1])].
Proof. vm_compute. repeat split. Qed.

(** C7 with rebound fields: the payloads are still uploaded under the
    data keys of their calls, and every invocation carries the caller's
    values. *)
Example map_aggregation_override_ex :
  let r := Executor.map (Demo.pwex None) Demo.foo Demo.payloads None None 64 false
             true
             (Some {["data_key" := PStr "elsewhere";
                     "data_byte_range" := PTuple [PInt 0; PInt 7]]})
             None None (sequential 3 12) Demo.w0 in
  returned r.1 = true
  /\ filter (fun c => is_put_data c = true) (trace r.2)
     = [CPutData "pywren.jobs/callset-0/00000/data.pickle" [x01; x02];
        CPutData "pywren.jobs/callset-0/00001/data.pickle" [];
        CPutData "pywren.jobs/callset-0/00002/data.pickle" [x03]]
  /\ invoked_field "data_key" (trace r.2)
     = [Some (PStr "elsewhere"); Some (PStr "elsewhere"); Some (PStr "elsewhere")]
  /\ invoked_field "data_byte_range" (trace r.2)
     = [Some (PTuple [PInt 0; PInt 7]); Some (PTuple [PInt 0; PInt 7]);
        Some (PTuple [PInt 0; PInt 7])]
  /\ invoked_field "call_id" (trace r.2)
     = [Some (PStr "00000"); Some (PStr "00001"); Some (PStr "00002")].
Proof. vm_compute. repeat split. Qed.

Example map_own_data_ex :
  let r := Executor.map (Demo.pwex None) Demo.foo Demo.payloads None None 64 false
             true None None None (sequential 3 12) Demo.w0 in
  returned r.1 = true
  /\ filter (fun c => is_put_data c = true) (trace r.2)
     = [CPutData "pywren.jobs/callset-0/00000/data.pickle" [x01; x02];
        CPutData "pywren.jobs/callset-0/00001/data.pickle" [];
        CPutData "pywren.jobs/callset-0/00002/data.pickle" [x03]]
  /\ invoked_field "data_byte_range" (trace r.2)
     = [Some PNone; Some PNone; Some PNone].
Proof. vm_compute. repeat split. Qed.

(** C8 on the concrete setting: the remote job of call 00001 fails. *)
Example reduce_failed_ex :
  let fut := fun call =>
    {| call_id := call; callset_id := "callset-0"; invoke_metadata := ∅;
       storage_path := PNone; state := invoked |} in
  let fs := [fut "00000"; fut "00001"; fut "00002"] in
  Executor.reduce (Demo.pwex None) (OFunc "sum") fs None None (sequential 1 12)
    Demo.w0
  = (Raised (HandleError "callset-0" "00001"), record (CWait fs) Demo.w0).
Proof. reflexivity. Qed.

Example reduce_succeeded_ex :
  let fut := fun call =>
    {| call_id := call; callset_id := "callset-0"; invoke_metadata := ∅;
       storage_path := PNone; state := invoked |} in
  let fs := [fut "00000"; fut "00002"] in
  let r := Executor.reduce (Demo.pwex None) (OFunc "sum") fs None None
             (sequential 1 12) Demo.w0 in
  returned r.1 = true
  /\ invoked_field "call_id" (trace r.2) = [Some (PStr "00000")].
Proof. vm_compute. repeat split. Qed.

(** C9 on the concrete setting. *)
Example parse_module_dependencies_ex :
  run (Executor.parse_module_dependencies (Demo.pwex None) Demo.foo (Some "foo")
         true true) Demo.w0
  = (Raised (AssertionError 185), Demo.w0)
  /\ trace (run (Executor.parse_module_dependencies (Demo.pwex None) Demo.foo
                   (Some "foo") false true) Demo.w0).2
     = [CSerialize [Demo.foo] false;
        CCreateModData {["/site-packages/numpy"; "/home/user/helpers"]};
        CPutModuleDependencies "pywren.jobs/modules/foo" [x80; x66; x6e]].
Proof. split; reflexivity. Qed.

(** The constructor on the concrete configuration. *)
Example init_ex :
  Instance.__init__ (PObj 0) (DemoInstance.config None) (PInt 300)
  = inr DemoInstance.self.
Proof. vm_compute. reflexivity. Qed.

Example init_without_preinstalls_ex :
  @Instance.__init__
    {| extract_storage_config := fun _ => PNone; storage_prefix := fun _ => "";
       get_runtime_info := fun _ => ∅ |}
    (PObj 0) (DemoInstance.config None) (PInt 300)
  = inl (KeyError "preinstalls").
Proof. reflexivity. Qed.

(** The lookups of [get_logs] on the concrete setting. *)
Lemma demo_log_stream (name aws_request_id : string) :
  log_stream_of DemoInstance.self (DemoInstance.run_status name aws_request_id)
    (PStr "us-west-2") (PStr "/aws/lambda/pywren_1") (PStr name) aws_request_id.
Proof.
  split; [|split; [|split]].
  - exists (PDict [("aws_region", PStr "us-west-2")]). split; reflexivity.
  - reflexivity.
  - reflexivity.
  - exists (PStr aws_request_id). split; reflexivity.
Defined.

(** X1 on the concrete stream. *)
Lemma get_logs_sublist_witness :
  log_stream_of DemoInstance.self (DemoInstance.run_status "main" "42ab")
    (PStr "us-west-2") (PStr "/aws/lambda/pywren_1") (PStr "main") "42ab"
  /\ exists printed this_events_logs,
       Instance.get_logs DemoInstance.self (DemoInstance.run_status "main" "42ab")
         false = inr (printed, this_events_logs)
       /\ sublist this_events_logs
            (entry <$> DemoInstance.events "main")
       /\ (length this_events_logs
           <= length (DemoInstance.events "main"))%nat.
Proof.
  split; [apply demo_log_stream|].
  exact (get_logs_sublist DemoInstance.self _ false _ _ _ _
           (demo_log_stream "main" "42ab")).
Defined.

(** X2 on the concrete stream. *)
Lemma get_logs_verbose_witness :
  log_stream_of DemoInstance.self (DemoInstance.run_status "main" "42ab")
    (PStr "us-west-2") (PStr "/aws/lambda/pywren_1") (PStr "main") "42ab"
  /\ exists printed this_events_logs,
       Instance.get_logs DemoInstance.self (DemoInstance.run_status "main" "42ab")
         true = inr (printed, this_events_logs)
       /\ Instance.get_logs DemoInstance.self (DemoInstance.run_status "main" "42ab")
            false = inr ([], this_events_logs)
       /\ printed
          = [PStr "log events returned"]
            :: ((fun e => [PInt (timestamp e); PStr (strip (message e))])
                  <$> DemoInstance.events "main").
Proof.
  split; [apply demo_log_stream|].
  exact (get_logs_verbose DemoInstance.self _ _ _ _ _ (demo_log_stream "main" "42ab")).
Defined.

Example get_logs_ex :
  Instance.get_logs DemoInstance.self (DemoInstance.run_status "main" "42ab") false
  = inr ([], [(3, "START RequestId: 42ab Version: $LATEST");
              (4, "hello from the job");
              (5, "END RequestId: 42ab");
              (6, "REPORT RequestId: 42ab Duration: 12 ms")]).
Proof. vm_compute. reflexivity. Qed.

(** X3 on the concrete stream: the log of request 42ab. *)
Lemma get_logs_request_window_witness :
  let pre := [DemoInstance.line 1 "START RequestId: 7d1f Version: $LATEST";
              DemoInstance.line 2 "REPORT RequestId: 7d1f Duration: 3 ms"] in
  let s := DemoInstance.line 3 "  START RequestId: 42ab Version: $LATEST " in
  let mid := [DemoInstance.line 4 "hello from the job";
              DemoInstance.line 5 "END RequestId: 42ab"] in
  let r := DemoInstance.line 6 "REPORT RequestId: 42ab Duration: 12 ms" in
  let post := [DemoInstance.line 7 "START RequestId: 9c0e Version: $LATEST"] in
  DemoInstance.events "main"
  = pre ++ s :: mid ++ r :: post
  /\ Forall (fun e => is_marker "42ab" e = false) (pre ++ mid ++ post)
  /\ is_start "42ab" s = true
  /\ is_report "42ab" r = true
  /\ exists printed,
       Instance.get_logs DemoInstance.self (DemoInstance.run_status "main" "42ab")
         false = inr (printed, entry <$> s :: mid ++ [r]).
Proof.
  intros pre s mid r post.
  assert (Forall (fun e => is_marker "42ab" e = false) (pre ++ mid ++ post))
    as Hquiet by (repeat constructor).
  split; [reflexivity|]. split; [exact Hquiet|].
  split; [reflexivity|]. split; [reflexivity|].
  exact (get_logs_request_window DemoInstance.self _ false _ _ _ _ pre s mid r post
           (demo_log_stream "main" "42ab") eq_refl Hquiet eq_refl eq_refl).
Defined.

(** X4 on the stream that starts after the opening line of the
    request. *)
Lemma get_logs_report_without_start_witness :
  Forall (fun e => is_start "42ab" e = false)
    (DemoInstance.events "late")
  /\ exists printed,
       Instance.get_logs DemoInstance.self (DemoInstance.run_status "late" "42ab")
         false
       = inr (printed,
              entry <$> filter (fun e => is_report "42ab" e = true)
                          (DemoInstance.events "late")).
Proof.
  assert (Forall (fun e => is_start "42ab" e = false)
            (DemoInstance.events "late"))
    as Hquiet by (repeat constructor).
  split; [exact Hquiet|].
  exact (get_logs_report_without_start DemoInstance.self _ false _ _ _ _
           (demo_log_stream "late" "42ab") Hquiet).
Defined.

Example get_logs_late_ex :
  Instance.get_logs DemoInstance.self (DemoInstance.run_status "late" "42ab") false
  = inr ([], [(6, "REPORT RequestId: 42ab Duration: 12 ms")]).
Proof. vm_compute. reflexivity. Qed.

(** X5 on the stream that ends before the report of the request. *)
Lemma get_logs_unclosed_witness :
  let pre := [DemoInstance.line 1 "START RequestId: 7d1f Version: $LATEST";
              DemoInstance.line 2 "REPORT RequestId: 7d1f Duration: 3 ms"] in
  let s := DemoInstance.line 3 "  START RequestId: 42ab Version: $LATEST " in
  let rest := [DemoInstance.line 4 "hello from the job";
               DemoInstance.line 5 "END RequestId: 42ab"] in
  DemoInstance.events "open" = pre ++ s :: rest
  /\ Forall (fun e => is_marker "42ab" e = false) pre
  /\ is_start "42ab" s = true
  /\ Forall (fun e => is_report "42ab" e = false) rest
  /\ exists printed,
       Instance.get_logs DemoInstance.self (DemoInstance.run_status "open" "42ab")
         false = inr (printed, entry <$> s :: rest).
Proof.
  intros pre s rest.
  assert (Forall (fun e => is_marker "42ab" e = false) pre)
    as Hpre by (repeat constructor).
  assert (Forall (fun e => is_report "42ab" e = false) rest)
    as Hrest by (repeat constructor).
  split; [reflexivity|]. split; [exact Hpre|]. split; [reflexivity|].
  split; [exact Hrest|].
  exact (get_logs_unclosed DemoInstance.self _ false _ _ _ _ pre s rest
           (demo_log_stream "open" "42ab") eq_refl Hpre eq_refl Hrest).
Defined.

(** X7 on a configuration with a limit of two items. *)
Lemma init_map_item_limit_witness :
  exists (self : attributes) (pwex : executor),
    Instance.__init__ (PObj 0) (DemoInstance.config (Some 2)) (PInt 300) = inr self
    /\ Instance.as_executor self = Some pwex
    /\ self_map_item_limit pwex = Some 2
    /\ exists msg,
         Executor.map pwex Demo.foo Demo.payloads None None 64 true true None None
           None Demo.late_first Demo.w0
         = (Raised (ValueError msg [PInt (Z.of_nat (length Demo.payloads)); PInt 2]),
            Demo.w0).
Proof.
  destruct (Instance.__init__ (PObj 0) (DemoInstance.config (Some 2)) (PInt 300))
    as [e|self] eqn:Hinit; [vm_compute in Hinit; discriminate Hinit|].
  destruct (init_map_item_limit _ _ _ self Hinit) as [Hlimit _].
  destruct (Hlimit [("map_item_limit", PInt 2)] 2 eq_refl eq_refl)
    as (pwex & Hpwex & Hl & Hmap).
  exists self, pwex. split; [reflexivity|]. split; [exact Hpwex|].
  split; [exact Hl|].
  apply Hmap; [discriminate | simpl; lia].
Defined.

(** X10 on a call whose [call_id] is rebound for the backend. *)
Lemma future_metadata_witness :
  exists fut w',
    run (Executor.invoke_with_keys (Demo.pwex None) "func" "data" "output" "status"
           "cancel" "callset-0" "00000" None None PNone true
           {["agg_data" := PBool false]} (PInt 300)
           (Some {["call_id" := PStr "other"]})) Demo.w0
    = (Returned fut, w')
    /\ call_id fut = "00000" /\ callset_id fut = "callset-0" /\ state fut = invoked
    /\ exists a, trace w' = trace Demo.w0 ++ [CInvoke a; CInvokerConfig]
                 /\ a ⊆ invoke_metadata fut.
Proof.
  assert (returned
            (run (Executor.invoke_with_keys (Demo.pwex None) "func" "data" "output"
                    "status" "cancel" "callset-0" "00000" None None PNone true
                    {["agg_data" := PBool false]} (PInt 300)
                    (Some {["call_id" := PStr "other"]})) Demo.w0).1 = true)
    as Hr by (vm_compute; reflexivity).
  destruct (run _ Demo.w0) as [[fut| |] w'] eqn:Hrun; try discriminate Hr.
  exists fut, w'. split; [reflexivity|].
  destruct (future_metadata (Demo.pwex None) _ _ _ _ _ _ _ _ _ _ _ _ _ _ _ _ _ Hrun)
    as (Hc & Hcs & Hst & _ & a & Htr & Hsub & _).
  split; [exact Hc|]. split; [exact Hcs|]. split; [exact Hst|].
  exists a. split; [exact Htr | exact Hsub].
Defined.

Example future_metadata_ex :
  let r := run (Executor.invoke_with_keys (Demo.pwex None) "func" "data" "output"
                  "status" "cancel" "callset-0" "00000" None None PNone true
                  {["agg_data" := PBool false]} (PInt 300)
                  (Some {["call_id" := PStr "other"]})) Demo.w0 in
  invoked_field "call_id" (trace r.2) = [Some (PStr "other")]
  /\ match r.1 with
     | Returned fut =>
         call_id fut = "00000"
         /\ invoke_metadata fut !! "call_id" = Some (PStr "other")
         /\ invoke_metadata fut !! "function_name" = Some (PStr "pywren_1")
         /\ invoke_metadata fut !! "lambda_invoke_time" = Some (PFloat 7)
         /\ invoke_metadata fut !! "agg_data" = Some (PBool false)
     | _ => False
     end.
Proof. vm_compute. repeat split. Qed.

(** X11 on a call with metadata and an environment. *)
Lemma invocation_record_witness :
  exists fut w' a,
    run (Executor.invoke_with_keys (Demo.pwex None) "func" "data" "output" "status"
           "cancel" "callset-0" "00000" (Some (PDict [("HOME", PStr "/tmp")]))
           (Some [("job_owner", PStr "me")]) PNone true ∅ (PInt 300) None) Demo.w0
    = (Returned fut, w')
    /\ trace w' = trace Demo.w0 ++ [CInvoke a; CInvokerConfig]
    /\ dom a = list_to_set (fields_at_merge (Some (PDict [("HOME", PStr "/tmp")])))
               ∪ list_to_set (meta_items (Some [("job_owner", PStr "me")])).*1
               ∪ {["host_submit_time"]} ∪ override_keys None.
Proof.
  assert (returned
            (run (Executor.invoke_with_keys (Demo.pwex None) "func" "data" "output"
                    "status" "cancel" "callset-0" "00000"
                    (Some (PDict [("HOME", PStr "/tmp")]))
                    (Some [("job_owner", PStr "me")]) PNone true ∅ (PInt 300) None)
               Demo.w0).1 = true)
    as Hr by (vm_compute; reflexivity).
  destruct (run _ Demo.w0) as [[fut| |] w'] eqn:Hrun; try discriminate Hr.
  destruct (invocation_record (Demo.pwex None) _ _ _ _ _ _ _ _ _ _ _ _ _ _ _ _ _ Hrun)
    as (a & url & Htr & Hdom & _).
  exists fut, w', a. split; [reflexivity|]. split; [exact Htr | exact Hdom].
Defined.

(** X12 on three payloads. *)
Lemma map_packaging_witness :
  Demo.payloads <> []
  /\ Executor.exceeds (length Demo.payloads) (self_map_item_limit (Demo.pwex None))
     = false
  /\ 1 <= 64
  /\ exists calls,
       trace (Executor.map (Demo.pwex None) Demo.foo Demo.payloads None None 64 true
                true None (Some ["numpy"]) None Demo.late_first Demo.w0).2
       = trace Demo.w0
         ++ packaging_calls (Demo.pwex None) Demo.foo Demo.payloads true
              (Some ["numpy"]) None (callset_id_at (callsets Demo.w0))
         ++ calls
       /\ Forall (pool_call (fun _ => True)) calls
       /\ (aggregates Demo.payloads true = true ->
           Z.of_nat (length (concat (dumps <$> Demo.payloads))) < MAX_AGG_DATA_SIZE).
Proof.
  assert (Demo.payloads <> []) as Hne by discriminate.
  assert (1 <= 64) as Hth by lia.
  split; [exact Hne|]. split; [reflexivity|]. split; [exact Hth|].
  exact (map_packaging (Demo.pwex None) Demo.foo Demo.payloads None None 64 true true
           None (Some ["numpy"]) None Demo.late_first Demo.w0 Hne eq_refl Hth
           (or_introl eq_refl)).
Defined.

Example map_packaging_ex :
  packaging_calls (Demo.pwex None) Demo.foo Demo.payloads true (Some ["numpy"]) None
    "callset-0"
  = [CSerialize (Demo.foo :: Demo.payloads) false;
     CPutData "pywren.jobs/callset-0/aggdata.pickle" [x01; x02; x03];
     CCreateModData {["/home/user/helpers"]};
     CPutFunc "pywren.jobs/callset-0/func.json" [x80; x66; x6e]].
Proof. vm_compute. reflexivity. Qed.

(** X14 on a caller's [data_key]. *)
Lemma map_extra_meta_collision_witness :
  first_collision None (Some [("job_owner", PStr "me"); ("data_key", PStr "mine")])
  = Some ("data_key", PStr "mine")
  /\ Demo.payloads <> []
  /\ returned (Executor.map (Demo.pwex None) Demo.foo Demo.payloads None
                 (Some [("job_owner", PStr "me"); ("data_key", PStr "mine")]) 64
                 false true None None None Demo.late_first Demo.w0).1 = false
  /\ (Executor.map (Demo.pwex None) Demo.foo Demo.payloads None
        (Some [("job_owner", PStr "me"); ("data_key", PStr "mine")]) 64
        false true None None None (sequential (length Demo.payloads) 12) Demo.w0).1
     = Raised (ValueError "Key {} already in dict" [PStr "data_key"]).
Proof.
  assert (first_collision None
            (Some [("job_owner", PStr "me"); ("data_key", PStr "mine")])
          = Some ("data_key", PStr "mine")) as Hcol by (vm_compute; reflexivity).
  assert (Demo.payloads <> []) as Hne by discriminate.
  assert (1 <= 64) as Hth by lia.
  destruct (map_extra_meta_collision (Demo.pwex None) Demo.foo Demo.payloads None
              (Some [("job_owner", PStr "me"); ("data_key", PStr "mine")]) 64 false
              true None None None Demo.late_first Demo.w0 "data_key" (PStr "mine")
              Hcol Hne) as (_ & Hret & Hraise).
  split; [exact Hcol|]. split; [exact Hne|]. split; [exact Hret|].
  exact (proj2 (Hraise eq_refl Hth (or_introl eq_refl))).
Defined.

(** X19 on three payloads, with numpy excluded. *)
Lemma map_excluded_modules_witness :
  Demo.payloads <> []
  /\ Executor.exceeds (length Demo.payloads) (self_map_item_limit (Demo.pwex None))
     = false
  /\ 1 <= 64
  /\ exists paths before after,
       trace (Executor.map (Demo.pwex None) Demo.foo Demo.payloads None None 64 true
                true None (Some ["numpy"]) None Demo.late_first Demo.w0).2
       = trace Demo.w0 ++ before
         ++ CCreateModData paths
            :: CPutFunc (create_func_key (self_storage_prefix (Demo.pwex None))
                           (callset_id_at (callsets Demo.w0)))
                 (func_module_str_of Demo.foo paths)
            :: after
       /\ "/site-packages/numpy" ∉ paths.
Proof.
  assert (Demo.payloads <> []) as Hne by discriminate.
  assert (1 <= 64) as Hth by lia.
  split; [exact Hne|]. split; [reflexivity|]. split; [exact Hth|].
  destruct (map_excluded_modules (Demo.pwex None) Demo.foo Demo.payloads None None 64
              true true None (Some ["numpy"]) Demo.late_first Demo.w0 Hne eq_refl Hth)
    as (paths & before & after & Htr & _ & Hpaths & _).
  exists paths, before, after. split; [exact Htr|].
  intros Hin. apply Hpaths in Hin as [_ Hall].
  apply (Hall "numpy"); [by left|].
  by exists "/site-packages/", "".
Defined.

(** X21 on three payloads. *)
Lemma map_future_metadata_witness :
  exists handles w',
    Executor.map (Demo.pwex None) Demo.foo Demo.payloads None None 64 true true
      None None None Demo.late_first Demo.w0 = (Returned handles, w')
    /\ forall fut, fut ∈ handles ->
         invoke_metadata fut !! "agg_data"
         = Some (PBool (aggregates Demo.payloads true))
         /\ invoke_metadata fut !! "data_size_bytes"
            = Some (PInt (Executor.total_size (dumps <$> Demo.payloads))).
Proof.
  assert (returned (Executor.map (Demo.pwex None) Demo.foo Demo.payloads None None
                      64 true true None None None Demo.late_first Demo.w0).1 = true)
    as Hr by (vm_compute; reflexivity).
  destruct (Executor.map (Demo.pwex None) Demo.foo Demo.payloads None None 64
              true true None None None Demo.late_first Demo.w0)
    as [[handles| |] w'] eqn:Hmap; try discriminate Hr.
  exists handles, w'. split; [reflexivity|]. intros fut Hfut.
  assert (forall k, k ∈ ["agg_data"; "data_size_bytes"] ->
            untouched None None None k) as Hun.
  { intros k Hk. repeat split.
    - intros Hin. apply list_elem_of_In in Hin. apply list_elem_of_In in Hk.
      cbn in Hin, Hk. intuition (subst; discriminate).
    - intros Hin. apply list_elem_of_In in Hin. apply list_elem_of_In in Hk.
      cbn in Hin, Hk. intuition (subst; discriminate).
    - intros Hin. cbn in Hin. by apply elem_of_nil in Hin.
    - apply list_elem_of_In in Hk. cbn in Hk.
      destruct Hk as [<-|[<-|[]]]; reflexivity. }
  destruct (map_future_metadata (Demo.pwex None) _ _ _ _ _ _ _ _ _ _ _ _ _ _ Hmap
              fut Hfut) as (Hagg & Hsize & _).
  split; [apply Hagg | apply Hsize]; apply Hun; apply list_elem_of_In; cbn; tauto.
Defined.

(** X22 on three payloads. *)
Lemma map_served_in_turn_witness :
  1 <= 64
  /\ Executor.exceeds (length Demo.payloads) (self_map_item_limit (Demo.pwex None))
     = false
  /\ returned (Executor.map (Demo.pwex None) Demo.foo Demo.payloads None None 64
                 false true None None None
                 (sequential (length Demo.payloads) 12) Demo.w0).1 = true.
Proof.
  assert (1 <= 64) as Hth by lia.
  split; [exact Hth|]. split; [reflexivity|].
  exact (map_served_in_turn (Demo.pwex None) Demo.foo Demo.payloads None 64 false
           true None None None Demo.w0 Hth eq_refl (or_introl eq_refl)).
Defined.

(** X23 on a caller's [job_owner]. *)
Lemma extra_meta_added_witness :
  (forall k, k ∈ [("job_owner", PStr "me")].*1 -> k ∉ fields_at_merge None)
  /\ exists a,
       trace (run (Executor.invoke_with_keys (Demo.pwex None) "func" "data" "output"
                     "status" "cancel" "callset-0" "00000" None
                     (Some [("job_owner", PStr "me")]) PNone true ∅ (PInt 300) None)
                Demo.w0).2
       = trace Demo.w0 ++ [CInvoke a; CInvokerConfig]
       /\ a !! "job_owner" = Some (PStr "me").
Proof.
  assert (forall k, k ∈ [("job_owner", PStr "me")].*1 -> k ∉ fields_at_merge None)
    as Hfresh.
  { intros k Hk Hin. apply list_elem_of_In in Hk. apply list_elem_of_In in Hin.
    cbn in Hk, Hin. intuition (subst; discriminate). }
  split; [exact Hfresh|].
  destruct (extra_meta_added (Demo.pwex None) "func" "data" "output" "status" "cancel"
              "callset-0" "00000" None [("job_owner", PStr "me")] PNone true ∅
              (PInt 300) None Demo.w0 Hfresh) as (_ & a & Htr & Hall).
  exists a. split; [exact Htr|].
  apply Hall; [by left | discriminate | reflexivity].
Defined.

(** X8 on a sharded runtime: the second draw picks the second url. *)
Example runtime_url_ex :
  let sharded :=
    {| self_job_max_runtime := PInt 300;
       self_config_runtime := PDict [("s3_bucket", PStr "runtimes")];
       self_storage_config := PDict [("storage_backend", PStr "s3")];
       self_storage_prefix := "pywren.jobs";
       self_runtime_urls := Some (PList [PStr "s3://shard-0"; PStr "s3://shard-1"]);
       self_map_item_limit := None |} in
  let r := Executor.map sharded Demo.foo Demo.payloads None None 64 true true None
             None None (sequential 3 12) Demo.w0 in
  invoked_field "runtime_url" (trace r.2)
  = [Some (PStr "s3://shard-0"); Some (PStr "s3://shard-1"); Some (PStr "s3://shard-0")]
  /\ invoked_field "runtime_url"
       (trace (Executor.map (Demo.pwex None) Demo.foo Demo.payloads None None 64 true
                 true None None None (sequential 3 12) Demo.w0).2)
     = [Some (PStr ""); Some (PStr ""); Some (PStr "")].
Proof. vm_compute. repeat split. Qed.

(** X13 and X20 on the concrete setting: the function key of the
    records, without and with a dependency key. *)
Example map_invocation_fields_ex :
  let r := Executor.map (Demo.pwex None) Demo.foo Demo.payloads None None 64 true
             true None None None (sequential 3 12) Demo.w0 in
  invoked_field "func_key" (trace r.2)
  = [Some (PStr "pywren.jobs/callset-0/func.json");
     Some (PStr "pywren.jobs/callset-0/func.json");
     Some (PStr "pywren.jobs/callset-0/func.json")]
  /\ invoked_field "output_key" (trace r.2)
     = [Some (PStr "pywren.jobs/callset-0/00000/output.pickle");
        Some (PStr "pywren.jobs/callset-0/00001/output.pickle");
        Some (PStr "pywren.jobs/callset-0/00002/output.pickle")].
Proof. vm_compute. repeat split. Qed.

Example module_dependencies_round_trip_ex :
  let stored := run (Executor.parse_module_dependencies (Demo.pwex None) Demo.foo
                       (Some "foo") false true) Demo.w0 in
  let r := Executor.map (Demo.pwex None) Demo.foo Demo.payloads None None 64 true
             true None None (Some "foo") (sequential 3 12) stored.2 in
  returned r.1 = true
  /\ filter (fun c => is_package_call c = true) (trace r.2)
     = [CCreateModData {["/site-packages/numpy"; "/home/user/helpers"]};
        CPutModuleDependencies "pywren.jobs/modules/foo" [x80; x66; x6e]]
  /\ invoked_field "func_key" (trace r.2)
     = [Some (PStr "pywren.jobs/modules/foo"); Some (PStr "pywren.jobs/modules/foo");
        Some (PStr "pywren.jobs/modules/foo")].
Proof. vm_compute. repeat split. Qed.

(** X15 on the concrete setting. *)
Example call_async_single_ex :
  let r := Executor.call_async (Demo.pwex None) Demo.foo (OVal (PBytes [x01])) None
             None (sequential 1 12) Demo.w0 in
  match r.1 with
  | Returned fut => call_id fut = "00000" /\ callset_id fut = "callset-0"
  | _ => False
  end
  /\ raised (Executor.call_async (Demo.pwex (Some 0)) Demo.foo (OVal (PBytes [x01]))
               None None (sequential 1 12) Demo.w0).1
     = Some (ValueError
         "len(data) ={}, exceeding map item limit of {}consider mapping over a smallernumber of items"
         [PInt 1; PInt 0]).
Proof. vm_compute. repeat split. Qed.

(** X17 on the concrete setting: an empty payload in front. *)
Example agg_data_sizes_ex :
  agg_data [[]; [x01; x02]; []] = ([x01; x02], [(0, -1); (0, 1); (2, 1)]).
Proof. reflexivity. Qed.

(** X24 on a future whose status has not been fetched, on a run status
    that lacks the request, on an empty run status, and on a
    configuration whose account section is a string. *)
Example get_logs_lookups_ex :
  Instance.get_logs DemoInstance.self PNone true = inl (TypeError PNone)
  /\ Instance.get_logs DemoInstance.self
       (PDict [("log_group_name", PStr "/aws/lambda/pywren_1");
               ("log_stream_name", PStr "open")]) true
     = inl (KeyError "aws_request_id")
  /\ Instance.get_logs DemoInstance.self (PDict []) false
     = inl (KeyError "log_group_name")
  /\ Instance.get_logs
       {| attr_invoker := PObj 0;
          attr_job_max_runtime := PInt 300;
          attr_config := {["account" := PStr "us-west-2"]};
          attr_storage_config := PNone;
          attr_storage_prefix := "pywren.jobs";
          attr_runtime_meta_info := ∅;
          attr_serializer := None;
          attr_map_item_limit := PNone |}
       (DemoInstance.run_status "open" "42ab") true
     = inl (TypeError (PStr "us-west-2")).
Proof. vm_compute. repeat split. Qed.
